(** * Symbol tables of lab3: binary search tree and chained hash table

    A shallow embedding of [lab3/st_bst.c] and [lab3/st_hashtable.c] and the
    verification of their insertion, search and resizing algorithms, of
    what they display and of the release of their memory.

    Conventions of the embedding.
    - A name (a C string) is the [string] of its characters before the
      terminating NUL; a name therefore never contains the NUL character.
    - Values of type [int] ([position], [size], [capacity], [next_position])
      are integers of [Z]; signed overflow, which C leaves undefined, is
      outside the model ([load_factor_bounded_run] bounds the fields of a
      hash table well below 2^31 for runs of up to 31457280 calls).
    - [unsigned long] is the 64-bit type of LP64 platforms and wraps around.
    - [float] is IEEE 754 binary32 and [double] binary64, with rounding to
      nearest, ties to even, as specified by [SpecFloat].
    - A pointer to a structure is the structure itself, [NULL] being the
      empty tree or the empty chain; a singly linked chain is a [list].
      Only for [free_tree] and [st_destroy] are the structures laid out in
      a heap of blocks, with pointers as addresses.
    - An access outside an array is undefined in C: array reads and writes
      are partial ([option]) and operations of the hash table propagate the
      failure. *)

From Stdlib Require Import ZArith String Ascii List Lia Sorted Permutation.
From Stdlib Require Import Floats.SpecFloat.
From stdpp Require Import base option list strings sorting pretty gmap.
Import ListNotations.

Local Open Scope Z_scope.

(** ** [strcmp] of <string.h> *)

(** The value of a character read as [unsigned char]. *)
Definition uchar (c : ascii) : Z := Z.of_N (N_of_ascii c).

(** [strcmp] compares two names byte by byte as [unsigned char]; only the
    sign of the result is specified.  Where one name ends, its terminating
    NUL is smaller than the (non-NUL) character of the other. *)
Fixpoint strcmp (s1 s2 : string) : Z :=
  match s1, s2 with
  | EmptyString, EmptyString => 0
  | EmptyString, String _ _ => -1
  | String _ _, EmptyString => 1
  | String c1 r1, String c2 r2 =>
      if uchar c1 =? uchar c2 then strcmp r1 r2 else uchar c1 - uchar c2
  end.

(** ** The binary search tree backend, [lab3/st_bst.c] *)

Module BST.

(** [struct BSTNode]; a [BSTNode *] is [NULL] or points to a node that
    owns its two children. *)
Inductive BSTNode : Type :=
  | NULL
  | Node (name : string) (position : Z) (left right : BSTNode).

Record SymbolTableBST : Type := {
  root : BSTNode;
  size : Z
}.

Definition st_create : SymbolTableBST := {| root := NULL; size := 0 |}.

Definition create_node (name : string) (position : Z) : BSTNode :=
  Node name position NULL NULL.

(** [insert_node] returns the new root together with the final contents
    of its two out-parameters [*position] and [*found]. *)
Fixpoint insert_node (root : BSTNode) (name : string) (position found : Z)
  : BSTNode * Z * Z :=
  match root with
  | NULL => (create_node name position, position, 0)
  | Node rname rposition l r =>
      let cmp := strcmp name rname in
      if cmp <? 0 then
        let '(l', position', found') := insert_node l name position found in
        (Node rname rposition l' r, position', found')
      else if cmp >? 0 then
        let '(r', position', found') := insert_node r name position found in
        (Node rname rposition l r', position', found')
      else
        (Node rname rposition l r, rposition, 1)
  end.

(** [st_add] returns the position and the updated table. *)
Definition st_add (st : SymbolTableBST) (name : string) : Z * SymbolTableBST :=
  let position := size st in
  let found := 0 in
  let '(root', position', found') := insert_node (root st) name position found in
  (position',
   {| root := root'; size := if found' =? 0 then size st + 1 else size st |}).

(** [search_node] returns the node found, or [NULL]. *)
Fixpoint search_node (root : BSTNode) (name : string) : BSTNode :=
  match root with
  | NULL => NULL
  | Node rname _ l r =>
      let cmp := strcmp name rname in
      if cmp <? 0 then search_node l name
      else if cmp >? 0 then search_node r name
      else root
  end.

Definition st_search (st : SymbolTableBST) (name : string) : Z :=
  match search_node (root st) name with
  | NULL => -1
  | Node _ position _ _ => position
  end.

(** [inorder_traversal] prints one line per node; the output is the list
    of the (name, position) pairs printed. *)
Fixpoint inorder_traversal (root : BSTNode) : list (string * Z) :=
  match root with
  | NULL => []
  | Node name position l r =>
      inorder_traversal l ++ (name, position) :: inorder_traversal r
  end.

(** A sequence of [st_add] calls, as the driver performs them: the
    positions returned, in order, and the final table. *)
Fixpoint st_add_all (st : SymbolTableBST) (names : list string)
  : list Z * SymbolTableBST :=
  match names with
  | [] => ([], st)
  | name :: rest =>
      let '(pos, st1) := st_add st name in
      let '(poss, st2) := st_add_all st1 rest in
      (pos :: poss, st2)
  end.

(** [st_display] prints the [size] field after "Size:", then the lines of
    the in-order traversal: the output is the number and the rows. *)
Definition st_display (st : SymbolTableBST) : Z * list (string * Z) :=
  (size st, inorder_traversal (root st)).

End BST.

(** ** The hash table backend, [lab3/st_hashtable.c] *)

Module HT.

Definition INITIAL_TABLE_SIZE : Z := 10.

(** The constant [0.75], of type [double]: 3 * 2^-2. *)
Definition LOAD_FACTOR_THRESHOLD : spec_float :=
  binary_normalize 53 1024 3 (-2) false.

(** [(float)i] for an [int] [i]. *)
Definition float_of_int (i : Z) : spec_float := binary_normalize 24 128 i 0 false.

(** Division of two [float]s. *)
Definition float_div (x y : spec_float) : spec_float := SFdiv 24 128 x y.

(** The promotion of a [float] to [double], which is exact. *)
Definition double_of_float (x : spec_float) : spec_float :=
  match x with
  | S754_finite s m e => binary_round 53 1024 s m e
  | _ => x
  end.

(** [x > y] on [double]s. *)
Definition double_gt (x y : spec_float) : bool := SFltb y x.

(** [struct HTEntry]; the [next] pointer of an entry is the tail of the
    list that models its chain. *)
Record HTEntry : Type := {
  name : string;
  position : Z
}.

Record SymbolTableHT : Type := {
  buckets : list (list HTEntry);
  capacity : Z;
  size : Z;
  next_position : Z
}.

Definition st_create : SymbolTableHT :=
  {| buckets := replicate (Z.to_nat INITIAL_TABLE_SIZE) [];
     capacity := INITIAL_TABLE_SIZE;
     size := 0;
     next_position := 0 |}.

Definition create_entry (name : string) (position : Z) : HTEntry :=
  {| name := name; position := position |}.

Section Platform.

(** Whether plain [char] is a signed type is implementation-defined. *)
Variable char_is_signed : bool.

(** The value of [c = *str++], a [char] converted to [int]. *)
Definition char_to_int (c : ascii) : Z :=
  if char_is_signed && (128 <=? uchar c) then uchar c - 256 else uchar c.

(** Arithmetic on [unsigned long] is modulo 2^64. *)
Definition ulong (z : Z) : Z := z mod 2 ^ 64.

(** The loop of [hash_function]: [hash = ((hash << 5) + hash) + c]. *)
Fixpoint hash_loop (str : string) (hash : Z) : Z :=
  match str with
  | EmptyString => hash
  | String c str' =>
      hash_loop str' (ulong (ulong (ulong (Z.shiftl hash 5) + hash) + char_to_int c))
  end.

Definition hash_function (str : string) (capacity : Z) : Z :=
  hash_loop str 5381 mod capacity.

(** The inner loop of [st_resize]: every entry of an old chain is
    pushed on the bucket of its new index. *)
Fixpoint rehash_chain (entry : list HTEntry) (st : SymbolTableHT)
  : option SymbolTableHT :=
  match entry with
  | [] => Some st
  | e :: next =>
      let index := hash_function (name e) (capacity st) in
      head ← buckets st !! Z.to_nat index;
      rehash_chain next
        {| buckets := <[Z.to_nat index := e :: head]> (buckets st);
           capacity := capacity st;
           size := size st + 1;
           next_position := next_position st |}
  end.

(** The outer loop of [st_resize], [n] iterations from index [i]. *)
Fixpoint rehash_buckets (old_buckets : list (list HTEntry)) (i n : nat)
  (st : SymbolTableHT) : option SymbolTableHT :=
  match n with
  | O => Some st
  | S n' =>
      entry ← old_buckets !! i;
      st' ← rehash_chain entry st;
      rehash_buckets old_buckets (S i) n' st'
  end.

Definition st_resize (st : SymbolTableHT) : option SymbolTableHT :=
  let old_capacity := capacity st in
  let old_buckets := buckets st in
  rehash_buckets old_buckets 0 (Z.to_nat old_capacity)
    {| buckets := replicate (Z.to_nat (capacity st * 2)) [];
       capacity := capacity st * 2;
       size := 0;
       next_position := next_position st |}.

(** The loop of [st_search] along a chain. *)
Fixpoint search_chain (entry : list HTEntry) (name0 : string) : Z :=
  match entry with
  | [] => -1
  | e :: next =>
      if strcmp (name e) name0 =? 0 then position e
      else search_chain next name0
  end.

Definition st_search (st : SymbolTableHT) (name0 : string) : option Z :=
  let index := hash_function name0 (capacity st) in
  entry ← buckets st !! Z.to_nat index;
  Some (search_chain entry name0).

(** [(float)(st->size + 1) / st->capacity > LOAD_FACTOR_THRESHOLD] *)
Definition load_factor (st : SymbolTableHT) : spec_float :=
  float_div (float_of_int (size st + 1)) (float_of_int (capacity st)).

Definition load_factor_exceeded (st : SymbolTableHT) : bool :=
  double_gt (double_of_float (load_factor st)) LOAD_FACTOR_THRESHOLD.

Definition st_add (st : SymbolTableHT) (name0 : string)
  : option (Z * SymbolTableHT) :=
  existing_pos ← st_search st name0;
  if negb (existing_pos =? -1) then Some (existing_pos, st)
  else
    st1 ← (if load_factor_exceeded st then st_resize st else Some st);
    let index := hash_function name0 (capacity st1) in
    let position0 := next_position st1 in
    let new_entry := create_entry name0 position0 in
    head ← buckets st1 !! Z.to_nat index;
    Some (position0,
          {| buckets := <[Z.to_nat index := new_entry :: head]> (buckets st1);
             capacity := capacity st1;
             size := size st1 + 1;
             next_position := next_position st1 + 1 |}).

(** A sequence of [st_add] calls, as the driver performs them. *)
Fixpoint st_add_all (st : SymbolTableHT) (names : list string)
  : option (list Z * SymbolTableHT) :=
  match names with
  | [] => Some ([], st)
  | name0 :: rest =>
      '(pos, st1) ← st_add st name0;
      '(poss, st2) ← st_add_all st1 rest;
      Some (pos :: poss, st2)
  end.

End Platform.

(** The inner loop of [st_display]: one row per entry of a chain, with the
    name, the position and the index [i] of the bucket. *)
Fixpoint display_chain (entry : list HTEntry) (i : Z) : list (string * Z * Z) :=
  match entry with
  | [] => []
  | e :: next => (name e, position e, i) :: display_chain next i
  end.

(** The outer loop of [st_display], [n] iterations from index [i]. *)
Fixpoint display_buckets (bs : list (list HTEntry)) (i n : nat)
  : option (list (string * Z * Z)) :=
  match n with
  | O => Some []
  | S n' =>
      entry ← bs !! i;
      rows ← display_buckets bs (S i) n';
      Some (display_chain entry (Z.of_nat i) ++ rows)
  end.

(** What [st_display] prints: the size, the capacity and the load factor
    [(float)st->size / st->capacity] of its header line, and the rows. *)
Record Display : Type := {
  display_size : Z;
  display_capacity : Z;
  display_load_factor : spec_float;
  display_rows : list (string * Z * Z)
}.

Definition st_display (st : SymbolTableHT) : option Display :=
  rows ← display_buckets (buckets st) 0 (Z.to_nat (capacity st));
  Some {| display_size := size st;
          display_capacity := capacity st;
          display_load_factor :=
            float_div (float_of_int (size st)) (float_of_int (capacity st));
          display_rows := rows |}.

(** What [st_display_structure] prints after a bucket index: "(empty)"
    for a [NULL] chain, else the entries of the chain as [name:position],
    joined by arrows. *)
Inductive BucketLine : Type :=
  | LineEmpty
  | LineChain (items : list (string * Z)).

Fixpoint structure_chain (entry : list HTEntry) : list (string * Z) :=
  match entry with
  | [] => []
  | e :: next => (name e, position e) :: structure_chain next
  end.

Fixpoint structure_buckets (bs : list (list HTEntry)) (i n : nat)
  : option (list (Z * BucketLine)) :=
  match n with
  | O => Some []
  | S n' =>
      entry ← bs !! i;
      lines ← structure_buckets bs (S i) n';
      Some ((Z.of_nat i,
             match entry with
             | [] => LineEmpty
             | _ :: _ => LineChain (structure_chain entry)
             end) :: lines)
  end.

(** The capacity and the size of the header, and the bucket lines. *)
Definition st_display_structure (st : SymbolTableHT)
  : option (Z * Z * list (Z * BucketLine)) :=
  lines ← structure_buckets (buckets st) 0 (Z.to_nat (capacity st));
  Some (capacity st, size st, lines).

End HT.

(** ** Dynamic memory: the release of the tables

    [free_tree] and the two [st_destroy] do nothing but release memory.
    For them a table is laid out in a heap of blocks, one block for each
    [malloc], [calloc] and [strdup]; a pointer is [NULL] or the address of
    a block.  Reading through [NULL] or through the address of a block that
    has been released, reading a block as a structure of another type,
    and releasing a block that is not allocated are undefined.  Loops and
    recursion run on fuel. *)

Module Mem.

Definition addr : Type := positive.

(** A pointer; [None] is [NULL]. *)
Definition ptr : Type := option addr.

Inductive block : Type :=
  | BChars (s : string)
  | BNode (name : ptr) (position : Z) (left right : ptr)
  | BTableBST (root : ptr) (size : Z)
  | BEntry (name : ptr) (position : Z) (next : ptr)
  | BBuckets (cells : list ptr)
  | BTableHT (buckets : ptr) (capacity size next_position : Z).

Abbreviation heap := (gmap addr block).

Inductive result (A : Type) : Type :=
  | Ok (a : A)
  | Undefined
  | OutOfFuel.

Arguments Ok {A} a.
Arguments Undefined {A}.
Arguments OutOfFuel {A}.

#[global] Instance result_bind : MBind result := λ A B k m,
  match m with
  | Ok a => k a
  | Undefined => Undefined
  | OutOfFuel => OutOfFuel
  end.

(** [*p] *)
Definition load (p : ptr) (h : heap) : result block :=
  match p with
  | None => Undefined
  | Some a =>
      match h !! a with
      | Some b => Ok b
      | None => Undefined
      end
  end.

(** [free(p)]; [free(NULL)] does nothing. *)
Definition free (p : ptr) (h : heap) : result heap :=
  match p with
  | None => Ok h
  | Some a =>
      match h !! a with
      | Some _ => Ok (delete a h)
      | None => Undefined
      end
  end.

End Mem.

(** *** [free_tree] and [st_destroy] of [lab3/st_bst.c] *)

Module BSTMem.

Import Mem.

(** [root->left], [root->right] and [root->name]. *)
Definition node_left (root : ptr) (h : heap) : result ptr :=
  b ← load root h;
  match b with
  | BNode _ _ l _ => Ok l
  | _ => Undefined
  end.

Definition node_right (root : ptr) (h : heap) : result ptr :=
  b ← load root h;
  match b with
  | BNode _ _ _ r => Ok r
  | _ => Undefined
  end.

Definition node_name (root : ptr) (h : heap) : result ptr :=
  b ← load root h;
  match b with
  | BNode name _ _ _ => Ok name
  | _ => Undefined
  end.

(** [st->root] *)
Definition table_root (st : ptr) (h : heap) : result ptr :=
  b ← load st h;
  match b with
  | BTableBST root _ => Ok root
  | _ => Undefined
  end.

Fixpoint free_tree (fuel : nat) (root : ptr) (h : heap) : result heap :=
  match root with
  | None => Ok h
  | Some _ =>
      match fuel with
      | O => OutOfFuel
      | S fuel' =>
          l ← node_left root h;
          h1 ← free_tree fuel' l h;
          r ← node_right root h1;
          h2 ← free_tree fuel' r h1;
          name ← node_name root h2;
          h3 ← free name h2;
          free root h3
      end
  end.

Definition st_destroy (fuel : nat) (st : ptr) (h : heap) : result heap :=
  root ← table_root st h;
  h1 ← free_tree fuel root h;
  free st h1.

End BSTMem.

(** *** [st_destroy] of [lab3/st_hashtable.c] *)

Module HTMem.

Import Mem.

(** [entry->next] and [entry->name]. *)
Definition entry_next (entry : ptr) (h : heap) : result ptr :=
  b ← load entry h;
  match b with
  | BEntry _ _ next => Ok next
  | _ => Undefined
  end.

Definition entry_name (entry : ptr) (h : heap) : result ptr :=
  b ← load entry h;
  match b with
  | BEntry name _ _ => Ok name
  | _ => Undefined
  end.

(** [st->capacity] and [st->buckets]. *)
Definition table_capacity (st : ptr) (h : heap) : result Z :=
  b ← load st h;
  match b with
  | BTableHT _ capacity _ _ => Ok capacity
  | _ => Undefined
  end.

Definition table_buckets (st : ptr) (h : heap) : result ptr :=
  b ← load st h;
  match b with
  | BTableHT buckets _ _ _ => Ok buckets
  | _ => Undefined
  end.

(** [buckets[i]] *)
Definition bucket_cell (buckets : ptr) (i : Z) (h : heap) : result ptr :=
  b ← load buckets h;
  match b with
  | BBuckets cells =>
      if i <? 0 then Undefined
      else match cells !! Z.to_nat i with
           | Some entry => Ok entry
           | None => Undefined
           end
  | _ => Undefined
  end.

(** The inner loop of [st_destroy], along a chain. *)
Fixpoint free_chain (fuel : nat) (entry : ptr) (h : heap) : result heap :=
  match entry with
  | None => Ok h
  | Some _ =>
      match fuel with
      | O => OutOfFuel
      | S fuel' =>
          next ← entry_next entry h;
          name ← entry_name entry h;
          h1 ← free name h;
          h2 ← free entry h1;
          free_chain fuel' next h2
      end
  end.

(** The outer loop of [st_destroy], from index [i]; [chain_fuel] is the
    fuel of each inner loop. *)
Fixpoint destroy_loop (fuel chain_fuel : nat) (st : ptr) (i : Z) (h : heap)
  : result heap :=
  match fuel with
  | O => OutOfFuel
  | S fuel' =>
      capacity ← table_capacity st h;
      if i <? capacity then
        buckets ← table_buckets st h;
        entry ← bucket_cell buckets i h;
        h1 ← free_chain chain_fuel entry h;
        destroy_loop fuel' chain_fuel st (i + 1) h1
      else Ok h
  end.

Definition st_destroy (fuel : nat) (st : ptr) (h : heap) : result heap :=
  h1 ← destroy_loop fuel fuel st 0 h;
  buckets ← table_buckets st h1;
  h2 ← free buckets h1;
  free st h2.

End HTMem.

(** ** Specifications *)

(** *** The contract shared by the two backends

    [run add st names] performs [add] for each name in turn and collects
    the positions returned. *)
Fixpoint run {T : Type} (add : T → string → option (Z * T)) (st : T)
  (names : list string) : option (list Z * T) :=
  match names with
  | [] => Some ([], st)
  | name :: rest =>
      '(pos, st1) ← add st name;
      '(poss, st2) ← run add st1 rest;
      Some (pos :: poss, st2)
  end.

(** The [NotFound] signal of [st_search]. *)
Definition NotFound : Z := -1.

(** *** The binary search tree *)

(** [all_nodes P t]: every node of [t] satisfies [P name position]. *)
Fixpoint all_nodes (P : string → Z → Prop) (t : BST.BSTNode) : Prop :=
  match t with
  | BST.NULL => True
  | BST.Node name position l r => P name position ∧ all_nodes P l ∧ all_nodes P r
  end.

(** The ordering invariant: the left subtree of every node holds only
    smaller keys, its right subtree only greater keys. *)
Fixpoint bst_ordered (t : BST.BSTNode) : Prop :=
  match t with
  | BST.NULL => True
  | BST.Node name _ l r =>
      all_nodes (λ k _, strcmp k name < 0) l ∧
      all_nodes (λ k _, 0 < strcmp k name) r ∧
      bst_ordered l ∧ bst_ordered r
  end.

(** Strictly ascending order of [strcmp]: every name is smaller than all
    the names after it. *)
Definition strictly_ascending (names : list string) : Prop :=
  StronglySorted (λ a b, strcmp a b < 0) names.

(** The position stored in the node a search returns, [NotFound] for
    [NULL]. *)
Definition node_position (node : BST.BSTNode) : Z :=
  match node with
  | BST.NULL => NotFound
  | BST.Node _ position _ _ => position
  end.

(** Tables in which no stored position can be mistaken for [NotFound];
    every table built by [st_add] is one. *)
Definition bst_inv (st : BST.SymbolTableBST) : Prop :=
  0 ≤ BST.size st ∧ all_nodes (λ _ position, 0 ≤ position) (BST.root st).

(** The number of nodes on the longest descent from the root. *)
Fixpoint height (t : BST.BSTNode) : nat :=
  match t with
  | BST.NULL => O
  | BST.Node _ _ l r => S (height l `max` height r)
  end.

(** The tree without left children that holds the given rows from the
    root downwards: a linked list. *)
Fixpoint right_spine (rows : list (string * Z)) : BST.BSTNode :=
  match rows with
  | [] => BST.NULL
  | (name, position) :: rest => BST.Node name position BST.NULL (right_spine rest)
  end.

(** Every node holds a smaller position than the nodes below it: it was
    added before them. *)
Fixpoint position_ordered (t : BST.BSTNode) : Prop :=
  match t with
  | BST.NULL => True
  | BST.Node _ position l r =>
      all_nodes (λ _ q, position < q) l ∧
      all_nodes (λ _ q, position < q) r ∧
      position_ordered l ∧ position_ordered r
  end.

(** The table that a sequence of [st_add] calls builds from a fresh one. *)
Definition bst_built (names : list string) : BST.SymbolTableBST :=
  (BST.st_add_all BST.st_create names).2.

(** *** The hash table *)

(** All the entries of a table, bucket after bucket. *)
Definition entries (st : HT.SymbolTableHT) : list HT.HTEntry :=
  concat (HT.buckets st).

(** The bucket array has [capacity] elements, and [capacity] is positive. *)
Definition ht_wf (st : HT.SymbolTableHT) : Prop :=
  0 < HT.capacity st ∧ length (HT.buckets st) = Z.to_nat (HT.capacity st).

(** Every entry lies in the bucket of its hash. *)
Definition placed (char_is_signed : bool) (capacity : Z)
  (buckets : list (list HT.HTEntry)) : Prop :=
  ∀ i chain e, buckets !! i = Some chain → e ∈ chain →
    Z.to_nat (HT.hash_function char_is_signed (HT.name e) capacity) = i.

(** The invariant of the hash table. *)
Record ht_inv (char_is_signed : bool) (st : HT.SymbolTableHT) : Prop := {
  inv_wf : ht_wf st;
  inv_placed : placed char_is_signed (HT.capacity st) (HT.buckets st);
  inv_names : NoDup (HT.name <$> entries st);
  inv_size : HT.size st = Z.of_nat (length (entries st));
  inv_next : 0 ≤ HT.next_position st;
  inv_positions : ∀ e, e ∈ entries st → 0 ≤ HT.position e < HT.next_position st
}.

(** [(size + 1) / capacity > 0.75] as [st_add] computes it, in terms of the
    two fields it reads. *)
Definition exceeded (size capacity : Z) : bool :=
  HT.double_gt
    (HT.double_of_float
       (HT.float_div (HT.float_of_int (size + 1)) (HT.float_of_int capacity)))
    HT.LOAD_FACTOR_THRESHOLD.

(** The entries printed on a bucket line of [st_display_structure]. *)
Definition line_items (line : HT.BucketLine) : list (string * Z) :=
  match line with
  | HT.LineEmpty => []
  | HT.LineChain items => items
  end.

(** The djb2 hash as the specification words it: seed 5381, then
    [hash = hash * 33 + c] for each character, modulo 2^64.  [value] gives
    the integer that a character stands for. *)
Fixpoint djb2_from (value : ascii → Z) (hash : Z) (str : string) : Z :=
  match str with
  | EmptyString => hash
  | String c str' => djb2_from value ((hash * 33 + value c) mod 2 ^ 64) str'
  end.

Definition djb2 (value : ascii → Z) (str : string) : Z := djb2_from value 5381 str.

(** A byte read as a signed 8-bit number, in two's complement. *)
Definition signed_byte (c : ascii) : Z :=
  if 128 <=? uchar c then uchar c - 256 else uchar c.

(** The name made of the two bytes C3 A9, the UTF-8 encoding of an
    accented letter e. *)
Definition e_acute : string :=
  String (ascii_of_N 195) (String (ascii_of_N 169) EmptyString).


(** Names made of 7-bit characters only. *)
Fixpoint seven_bit (str : string) : Prop :=
  match str with
  | EmptyString => True
  | String c str' => uchar c < 128 ∧ seven_bit str'
  end.

(** The position and the table after each call of a sequence of [st_add]
    calls. *)
Fixpoint st_add_trace (char_is_signed : bool) (st : HT.SymbolTableHT)
  (names : list string) : option (list (Z * HT.SymbolTableHT)) :=
  match names with
  | [] => Some []
  | name :: rest =>
      '(pos, st1) ← HT.st_add char_is_signed st name;
      trace ← st_add_trace char_is_signed st1 rest;
      Some ((pos, st1) :: trace)
  end.

(** The size and the capacity after each of [n] insertions of new names,
    from a table of the given size and capacity. *)
Fixpoint growth (n : nat) (size capacity : Z) : list (Z * Z) :=
  match n with
  | O => []
  | S n' =>
      let capacity' := if exceeded size capacity then capacity * 2 else capacity in
      (size + 1, capacity') :: growth n' (size + 1) capacity'
  end.

(** *** The tables in memory *)

(** [released fp h h']: the heap [h'] is the heap [h] without the blocks
    at the addresses [fp], all other blocks being as they were. *)
Definition released (fp : gset Mem.addr) (h h' : Mem.heap) : Prop :=
  ∀ a, h' !! a = if decide (a ∈ fp) then None else h !! a.

(** [tree_at h p t fp]: in the heap [h] the pointer [p] is the root of the
    tree [t]; each node has a block of its own and a block for its name,
    and [fp] is the set of the addresses of these blocks. *)
Inductive tree_at (h : Mem.heap) : Mem.ptr → BST.BSTNode → gset Mem.addr → Prop :=
  | tree_at_null : tree_at h None BST.NULL ∅
  | tree_at_node a q name position pl pr l r fl fr :
      h !! a = Some (Mem.BNode (Some q) position pl pr) →
      h !! q = Some (Mem.BChars name) →
      tree_at h pl l fl → tree_at h pr r fr →
      a ≠ q → a ∉ fl → a ∉ fr → q ∉ fl → q ∉ fr → fl ## fr →
      tree_at h (Some a) (BST.Node name position l r) ({[a; q]} ∪ fl ∪ fr).

(** The table structure at [a], with its tree. *)
Inductive bst_at (h : Mem.heap) (a : Mem.addr) (st : BST.SymbolTableBST)
  : gset Mem.addr → Prop :=
  | bst_at_table p fp :
      h !! a = Some (Mem.BTableBST p (BST.size st)) →
      tree_at h p (BST.root st) fp → a ∉ fp →
      bst_at h a st ({[a]} ∪ fp).

(** [chain_at h p chain fp]: the pointer [p] is the head of the linked
    list of the entries [chain]. *)
Inductive chain_at (h : Mem.heap) : Mem.ptr → list HT.HTEntry → gset Mem.addr → Prop :=
  | chain_at_null : chain_at h None [] ∅
  | chain_at_entry a q e next rest fr :
      h !! a = Some (Mem.BEntry (Some q) (HT.position e) next) →
      h !! q = Some (Mem.BChars (HT.name e)) →
      chain_at h next rest fr →
      a ≠ q → a ∉ fr → q ∉ fr →
      chain_at h (Some a) (e :: rest) ({[a; q]} ∪ fr).

(** The cells of the bucket array are the heads of the chains, which
    share no block. *)
Inductive buckets_at (h : Mem.heap)
  : list Mem.ptr → list (list HT.HTEntry) → gset Mem.addr → Prop :=
  | buckets_at_nil : buckets_at h [] [] ∅
  | buckets_at_cons p cells chain chains fc fr :
      chain_at h p chain fc → buckets_at h cells chains fr → fc ## fr →
      buckets_at h (p :: cells) (chain :: chains) (fc ∪ fr).

(** The table structure at [a], with its bucket array and its chains. *)
Inductive ht_at (h : Mem.heap) (a : Mem.addr) (st : HT.SymbolTableHT)
  : gset Mem.addr → Prop :=
  | ht_at_table b cells fp :
      h !! a = Some (Mem.BTableHT (Some b) (HT.capacity st) (HT.size st)
                       (HT.next_position st)) →
      h !! b = Some (Mem.BBuckets cells) →
      buckets_at h cells (HT.buckets st) fp →
      a ≠ b → a ∉ fp → b ∉ fp →
      ht_at h a st ({[a; b]} ∪ fp).

(** *** The scenario of the drivers

    The names that the two [main] functions add first, and the hash table
    after the hash table driver has added two more. *)
Definition driver_names : list string :=
  ["variable1"; "count"; "sum"; "array"; "index"]%string.

Definition driver_table : HT.SymbolTableHT :=
  Eval vm_compute in
    default HT.st_create
      (snd <$> HT.st_add_all true HT.st_create
                 (driver_names ++ ["result"; "temp"]%string)).

(** The largest size at which [size / capacity <= 0.75]. *)
Definition threshold (capacity : Z) : Z := 3 * capacity / 4.

(** The capacity after [k] resizes. *)
Definition capacity_at (k : nat) : Z := HT.INITIAL_TABLE_SIZE * 2 ^ Z.of_nat k.

(** A table between two resizes: its capacity is [capacity_at k] and its
    size is above the threshold of the previous capacity and at most the
    threshold of its own. *)
Definition in_phase (k : nat) (st : HT.SymbolTableHT) : Prop :=
  HT.capacity st = capacity_at k ∧
  HT.size st ≤ threshold (capacity_at k) ∧
  (k ≠ O → threshold (capacity_at (k - 1)) < HT.size st).

(** The names "0", "1", ..., in decimal. *)
Definition numbered_names (n : nat) : list string := pretty <$> seq 0 n.

(** *** Two small tables in memory

    The BST table that holds "count" and "sum", and a hash table of two
    buckets whose first chain holds "b" and "a". *)
Definition bst_heap : gmap Mem.addr Mem.block :=
  {[ 1%positive := Mem.BTableBST (Some 2%positive) 2;
     2%positive := Mem.BNode (Some 3%positive) 0 None (Some 4%positive);
     3%positive := Mem.BChars "count";
     4%positive := Mem.BNode (Some 5%positive) 1 None None;
     5%positive := Mem.BChars "sum" ]}.

Definition ht_small : HT.SymbolTableHT :=
  {| HT.buckets := [[HT.create_entry "b" 1; HT.create_entry "a" 0]; []];
     HT.capacity := 2;
     HT.size := 2;
     HT.next_position := 2 |}.

Definition ht_heap : gmap Mem.addr Mem.block :=
  {[ 1%positive := Mem.BTableHT (Some 2%positive) 2 2 2;
     2%positive := Mem.BBuckets [Some 3%positive; None];
     3%positive := Mem.BEntry (Some 4%positive) 1 (Some 5%positive);
     4%positive := Mem.BChars "b";
     5%positive := Mem.BEntry (Some 6%positive) 0 None;
     6%positive := Mem.BChars "a" ]}.

(** *** The reference table

    A symbol table seen from outside is the list of its names in the order
    in which they were first added; the position of a name is its index in
    this list. *)
Fixpoint index_of (x : string) (seen : list string) : option nat :=
  match seen with
  | [] => None
  | y :: rest => if decide (x = y) then Some O else S <$> index_of x rest
  end.

Definition ref_search (seen : list string) (x : string) : Z :=
  match index_of x seen with
  | Some i => Z.of_nat i
  | None => NotFound
  end.

(** The names of a sequence of calls in the order of their first
    occurrence, after the names [seen] so far. *)
Fixpoint first_seen_from (seen names : list string) : list string :=
  match names with
  | [] => seen
  | x :: rest =>
      first_seen_from (if decide (x ∈ seen) then seen else seen ++ [x]) rest
  end.

Definition first_seen (names : list string) : list string :=
  first_seen_from [] names.

(** *** Facts about [strcmp] *)

Lemma uchar_inj c1 c2 : uchar c1 = uchar c2 → c1 = c2.
Proof.
  unfold uchar. intros H. apply N2Z.inj in H.
  rewrite <- (ascii_N_embedding c1), <- (ascii_N_embedding c2). by rewrite H.
Qed.

Lemma strcmp_refl s : strcmp s s = 0.
Proof. induction s as [|c s IH]; simpl; [done|]. by rewrite Z.eqb_refl. Qed.

Lemma strcmp_eq s1 s2 : strcmp s1 s2 = 0 ↔ s1 = s2.
Proof.
  split; [|intros ->; apply strcmp_refl].
  revert s2. induction s1 as [|c1 r1 IH]; intros [|c2 r2]; simpl; try done.
  destruct (Z.eqb_spec (uchar c1) (uchar c2)) as [E|E]; [|lia].
  intros H. f_equal; [by apply uchar_inj | by apply IH].
Qed.

Lemma strcmp_antisym s1 s2 : strcmp s1 s2 < 0 ↔ 0 < strcmp s2 s1.
Proof.
  revert s2. induction s1 as [|c1 r1 IH]; intros [|c2 r2]; simpl; try lia.
  destruct (Z.eqb_spec (uchar c1) (uchar c2)) as [E|E];
    destruct (Z.eqb_spec (uchar c2) (uchar c1)) as [E'|E']; try lia.
  apply IH.
Qed.

Lemma strcmp_lt_trans s1 s2 s3 :
  strcmp s1 s2 < 0 → strcmp s2 s3 < 0 → strcmp s1 s3 < 0.
Proof.
  revert s2 s3.
  induction s1 as [|c1 r1 IH]; intros [|c2 r2] [|c3 r3]; simpl; try lia.
  destruct (Z.eqb_spec (uchar c1) (uchar c2)) as [E12|E12];
    destruct (Z.eqb_spec (uchar c2) (uchar c3)) as [E23|E23];
    destruct (Z.eqb_spec (uchar c1) (uchar c3)) as [E13|E13]; try lia.
  apply IH.
Qed.

(** The three-way branch of the descents: [cmp < 0], [cmp > 0], else. *)
Variant cmp_case (s1 s2 : string) : Prop :=
  | cmp_lt : strcmp s1 s2 < 0 → (strcmp s1 s2 <? 0) = true → cmp_case s1 s2
  | cmp_gt : 0 < strcmp s1 s2 → (strcmp s1 s2 <? 0) = false →
             (strcmp s1 s2 >? 0) = true → cmp_case s1 s2
  | cmp_eq : s1 = s2 → (strcmp s1 s2 <? 0) = false →
             (strcmp s1 s2 >? 0) = false → cmp_case s1 s2.

Lemma strcmp_cases s1 s2 : cmp_case s1 s2.
Proof.
  destruct (strcmp s1 s2 <? 0) eqn:Hlt.
  - apply cmp_lt; [by apply Z.ltb_lt|done].
  - apply Z.ltb_ge in Hlt.
    destruct (strcmp s1 s2 >? 0) eqn:Hgt.
    + apply cmp_gt; [|apply Z.ltb_ge|]; [|done..]. by apply Z.gtb_gt, Z.gt_lt in Hgt.
    + apply cmp_eq; [|by apply Z.ltb_ge|done].
      apply strcmp_eq. rewrite Z.gtb_ltb in Hgt. apply Z.ltb_ge in Hgt. lia.
Qed.

(** *** Facts about the reference table *)

Lemma index_of_None x seen : index_of x seen = None ↔ x ∉ seen.
Proof.
  induction seen as [|y rest IH]; simpl.
  - split; [intros _; apply not_elem_of_nil|done].
  - rewrite not_elem_of_cons. destruct (decide (x = y)) as [->|Hne].
    + split; [done|]. by intros [? _].
    + rewrite <- IH. destruct (index_of x rest); simpl; [|done].
      split; [done|]. by intros [_ ?].
Qed.

Lemma index_of_Some x seen i :
  index_of x seen = Some i ↔ seen !! i = Some x ∧ x ∉ take i seen.
Proof.
  revert i. induction seen as [|y rest IH]; intros i; simpl.
  - split; [done|]. by intros [? _].
  - destruct (decide (x = y)) as [->|Hne].
    + split.
      * intros [= <-]. split; [done|]. apply not_elem_of_nil.
      * destruct i as [|i]; [done|]. simpl. intros [_ H]. destruct H. left.
    + destruct i as [|i]; simpl.
      * split; [by destruct (index_of x rest)|]. by intros [[= ->] _].
      * rewrite not_elem_of_cons. specialize (IH i).
        destruct (index_of x rest) as [j|]; simpl.
        -- split.
           ++ intros [= ->]. split; [|split; [done|]]; by apply IH.
           ++ intros (H1 & _ & H2). destruct IH as [_ IH].
              specialize (IH (conj H1 H2)). by simplify_eq.
        -- split; [done|]. intros (H1 & _ & H2). destruct IH as [_ IH].
           by specialize (IH (conj H1 H2)).
Qed.

Lemma index_of_lt x seen i : index_of x seen = Some i → (i < length seen)%nat.
Proof. intros [H _]%index_of_Some. by apply lookup_lt_Some in H. Qed.

Lemma index_of_app_l x seen more i :
  index_of x seen = Some i → index_of x (seen ++ more) = Some i.
Proof.
  revert i. induction seen as [|y rest IH]; intros i; simpl; [done|].
  destruct (decide (x = y)); [done|].
  destruct (index_of x rest) as [j|]; simpl; [|done].
  intros [= <-]. by rewrite (IH j).
Qed.

Lemma index_of_app_r x seen more :
  x ∉ seen →
  index_of x (seen ++ more) = (λ i, length seen + i)%nat <$> index_of x more.
Proof.
  induction seen as [|y rest IH]; simpl.
  - intros _. by destruct (index_of x more).
  - intros [Hne Hx]%not_elem_of_cons. destruct (decide (x = y)); [done|].
    rewrite (IH Hx). by destruct (index_of x more).
Qed.

Lemma first_seen_from_prefix names : ∀ seen,
  ∃ more, first_seen_from seen names = seen ++ more.
Proof.
  induction names as [|x rest IH]; intros seen; simpl.
  - exists []. by rewrite app_nil_r.
  - destruct (decide (x ∈ seen)); [apply IH|].
    destruct (IH (seen ++ [x])) as [more ->]. exists (x :: more).
    by rewrite <- app_assoc.
Qed.

Lemma first_seen_from_elem_of names : ∀ seen x,
  x ∈ first_seen_from seen names ↔ x ∈ seen ∨ x ∈ names.
Proof.
  induction names as [|y rest IH]; intros seen x; simpl.
  - rewrite elem_of_nil. tauto.
  - rewrite IH, elem_of_cons. destruct (decide (y ∈ seen)).
    + split; [tauto|]. intros [?|[->|?]]; tauto.
    + rewrite elem_of_app, list_elem_of_singleton. tauto.
Qed.

Lemma first_seen_from_NoDup names : ∀ seen,
  NoDup seen → NoDup (first_seen_from seen names).
Proof.
  induction names as [|y rest IH]; intros seen Hnd; simpl; [done|].
  apply IH. destruct (decide (y ∈ seen)); [done|].
  apply NoDup_app. split_and!; [done| |apply NoDup_singleton].
  by intros x Hx ->%list_elem_of_singleton.
Qed.

(** The names first seen are the distinct names of the sequence. *)
Lemma first_seen_remove_dups names : first_seen names ≡ₚ remove_dups names.
Proof.
  apply NoDup_Permutation.
  - apply first_seen_from_NoDup, NoDup_nil_2.
  - apply NoDup_remove_dups.
  - intros x. unfold first_seen.
    rewrite first_seen_from_elem_of, elem_of_remove_dups, elem_of_nil. tauto.
Qed.

Lemma ref_search_elem_of seen x :
  x ∈ seen → ∃ i, seen !! i = Some x ∧ ref_search seen x = Z.of_nat i.
Proof.
  intros Hx. unfold ref_search.
  destruct (index_of x seen) as [i|] eqn:Hi.
  - apply index_of_Some in Hi as [Hi _]. eauto.
  - by apply index_of_None in Hi.
Qed.

Lemma ref_search_not_elem_of seen x : x ∉ seen → ref_search seen x = NotFound.
Proof. intros Hx%index_of_None. unfold ref_search. by rewrite Hx. Qed.

Lemma ref_search_found seen x : ref_search seen x ≠ NotFound ↔ x ∈ seen.
Proof.
  split.
  - intros H. destruct (decide (x ∈ seen)) as [|Hx]; [done|].
    by apply ref_search_not_elem_of in Hx.
  - intros (i & _ & ->)%ref_search_elem_of. unfold NotFound. lia.
Qed.

Lemma ref_search_lookup seen i x :
  NoDup seen → seen !! i = Some x → ref_search seen x = Z.of_nat i.
Proof.
  intros Hnd Hi.
  destruct (ref_search_elem_of seen x) as (j & Hj & ->).
  - by apply list_elem_of_lookup_2 in Hi.
  - by rewrite (NoDup_lookup seen i j x Hnd Hi Hj).
Qed.

Lemma ref_search_app_l seen more x :
  x ∈ seen → ref_search (seen ++ more) x = ref_search seen x.
Proof.
  intros Hx. unfold ref_search.
  destruct (index_of x seen) as [i|] eqn:Hi.
  - by rewrite (index_of_app_l x seen more i Hi).
  - by apply index_of_None in Hi.
Qed.

Lemma ref_search_snoc seen x y :
  x ∉ seen →
  ref_search (seen ++ [x]) y
  = if decide (y = x) then Z.of_nat (length seen) else ref_search seen y.
Proof.
  intros Hx. destruct (decide (y = x)) as [->|Hne].
  - unfold ref_search. rewrite index_of_app_r by done. simpl.
    rewrite decide_True by done. simpl. f_equal. lia.
  - destruct (decide (y ∈ seen)) as [Hy|Hy]; [by apply ref_search_app_l|].
    rewrite !ref_search_not_elem_of; [done..|].
    rewrite elem_of_app, list_elem_of_singleton. tauto.
Qed.

Lemma ref_search_first_seen_from seen names x :
  x ∈ seen → ref_search (first_seen_from seen names) x = ref_search seen x.
Proof.
  intros Hx. destruct (first_seen_from_prefix names seen) as [more ->].
  by apply ref_search_app_l.
Qed.

(** ** The contract of a symbol table, and what follows from it *)

Section Contract.

Context {T : Type}.
Variable inv : T → Prop.
Variable add : T → string → option (Z * T).
Variable search : T → string → option Z.
(** The position that the next new name receives, and the entry count. *)
Variable next : T → Z.
Variable count : T → Z.

Hypothesis next_nonneg : ∀ st, inv st → 0 ≤ next st.
Hypothesis search_defined : ∀ st x, inv st → is_Some (search st x).
Hypothesis add_hit : ∀ st x p,
  inv st → search st x = Some p → p ≠ NotFound → add st x = Some (p, st).
Hypothesis add_miss : ∀ st x,
  inv st → search st x = Some NotFound →
  ∃ st', add st x = Some (next st, st') ∧ inv st' ∧
         next st' = next st + 1 ∧ count st' = count st + 1 ∧
         search st' x = Some (next st) ∧
         ∀ y, y ≠ x → search st' y = search st y.

Lemma contract_add st x :
  inv st →
  ∃ p st', add st x = Some (p, st') ∧ inv st' ∧ search st' x = Some p ∧
           p ≠ NotFound ∧ (∀ y, y ≠ x → search st' y = search st y).
Proof.
  intros Hinv. destruct (search_defined st x Hinv) as [q Hq].
  destruct (decide (q = NotFound)) as [->|Hne].
  - destruct (add_miss st x Hinv Hq) as (st' & Hadd & Hinv' & _ & _ & Hs & Ho).
    exists (next st), st'. repeat split; try done.
    specialize (next_nonneg st Hinv). unfold NotFound. lia.
  - exists q, st. rewrite (add_hit st x q); done.
Qed.

Lemma contract_run_defined names : ∀ st,
  inv st → ∃ ps st', run add st names = Some (ps, st') ∧ inv st'.
Proof.
  induction names as [|x rest IH]; intros st Hinv; simpl.
  - by exists [], st.
  - destruct (contract_add st x Hinv) as (p & st1 & -> & Hinv1 & _). simpl.
    destruct (IH st1 Hinv1) as (ps & st2 & -> & Hinv2). simpl.
    by exists (p :: ps), st2.
Qed.

(** New, pairwise distinct names receive consecutive positions. *)
Lemma contract_run_distinct names : ∀ st,
  inv st → NoDup names → (∀ x, x ∈ names → search st x = Some NotFound) →
  ∃ st', run add st names = Some (seqZ (next st) (Z.of_nat (length names)), st') ∧
         inv st' ∧ next st' = next st + Z.of_nat (length names) ∧
         count st' = count st + Z.of_nat (length names).
Proof.
  induction names as [|x rest IH]; intros st Hinv Hnd Hnew; simpl.
  - exists st. repeat split; [done|lia..].
  - apply NoDup_cons in Hnd as [Hx Hnd].
    destruct (add_miss st x Hinv) as (st1 & -> & Hinv1 & Hn1 & Hc1 & _ & Ho).
    { apply Hnew. left. }
    simpl.
    destruct (IH st1 Hinv1 Hnd) as (st2 & -> & Hinv2 & Hn2 & Hc2).
    { intros y Hy. rewrite Ho; [apply Hnew; by right|]. by intros ->. }
    exists st2. simpl. repeat split; [|done|lia..].
    rewrite Hn1. f_equal. f_equal.
    replace (Z.of_nat (S (length rest))) with (Z.succ (Z.of_nat (length rest))) by lia.
    rewrite (seqZ_cons (next st)) by lia. f_equal. f_equal; lia.
Qed.

(** Names that are not added keep the result of their search. *)
Lemma contract_run_other names : ∀ st ps st' y,
  inv st → run add st names = Some (ps, st') → y ∉ names →
  search st' y = search st y.
Proof.
  induction names as [|x rest IH]; intros st ps st' y Hinv Hrun Hy; simpl in *.
  - by simplify_eq.
  - apply not_elem_of_cons in Hy as [Hyx Hy].
    destruct (contract_add st x Hinv) as (p & st1 & Hadd & Hinv1 & _ & _ & Ho).
    rewrite Hadd in Hrun. simpl in Hrun.
    destruct (run add st1 rest) as [[ps2 st2]|] eqn:Hrest; simpl in Hrun; [|done].
    simplify_eq. rewrite (IH st1 ps2 st' y); [by apply Ho|done..].
Qed.

(** The names that a run inserts are pairwise distinct names of the run;
    the entry count grows by their number. *)
Lemma contract_run_news names : ∀ st ps st',
  inv st → run add st names = Some (ps, st') →
  ∃ news, NoDup news ∧ news ⊆ names ∧
          (∀ x, x ∈ news → search st x = Some NotFound) ∧
          count st' = count st + Z.of_nat (length news).
Proof.
  induction names as [|x rest IH]; intros st ps st' Hinv Hrun; simpl in *.
  - simplify_eq. exists []. repeat split; [apply NoDup_nil_2|done|by intros ? ?%elem_of_nil|simpl; lia].
  - destruct (search_defined st x Hinv) as [q Hq].
    destruct (decide (q = NotFound)) as [->|Hne].
    + destruct (add_miss st x Hinv Hq) as (st1 & Hadd & Hinv1 & Hn1 & Hc1 & Hs & Ho).
      rewrite Hadd in Hrun. simpl in Hrun.
      destruct (run add st1 rest) as [[ps2 st2]|] eqn:Hrest; simpl in Hrun; [|done].
      simplify_eq.
      destruct (IH st1 ps2 st' Hinv1 Hrest) as (news & Hnd & Hsub & Hmiss & Hc).
      assert (x ∉ news) as Hx.
      { intros Hin. apply Hmiss in Hin. rewrite Hs in Hin.
        specialize (next_nonneg st Hinv). unfold NotFound in Hin. simplify_eq. lia. }
      exists (x :: news). repeat split.
      * by apply NoDup_cons.
      * intros y [->|Hy]%elem_of_cons; [left|right; by apply Hsub].
      * intros y [->|Hy]%elem_of_cons; [done|].
        rewrite <- Ho; [by apply Hmiss|]. by intros ->.
      * simpl. lia.
    + rewrite (add_hit st x q Hinv Hq Hne) in Hrun. simpl in Hrun.
      destruct (run add st rest) as [[ps2 st2]|] eqn:Hrest; simpl in Hrun; [|done].
      simplify_eq.
      destruct (IH st ps2 st' Hinv Hrest) as (news & Hnd & Hsub & Hmiss & Hc).
      exists news. repeat split; [done| |done..].
      intros y Hy. right. by apply Hsub.
Qed.

(** The entry count grows by at most one per distinct name. *)
Lemma contract_run_count names st ps st' :
  inv st → run add st names = Some (ps, st') →
  count st ≤ count st' ≤ count st + Z.of_nat (length (remove_dups names)).
Proof.
  intros Hinv Hrun.
  destruct (contract_run_news names st ps st' Hinv Hrun) as (news & Hnd & Hsub & _ & ->).
  split; [lia|].
  assert (length news ≤ length (remove_dups names))%nat; [|lia].
  apply submseteq_length, NoDup_submseteq; [done|].
  intros x Hx. apply elem_of_remove_dups. by apply Hsub.
Qed.

(** Sequences of calls compose. *)
Lemma contract_run_app l1 : ∀ l2 st,
  run add st (l1 ++ l2)
  = '(ps1, st1) ← run add st l1;
    '(ps2, st2) ← run add st1 l2;
    Some (ps1 ++ ps2, st2).
Proof.
  induction l1 as [|x l1 IH]; intros l2 st; simpl.
  - by destruct (run add st l2) as [[ps2 st2]|].
  - destruct (add st x) as [[p st1]|]; simpl; [|done].
    rewrite IH. destruct (run add st1 l1) as [[ps1 st2]|]; simpl; [|done].
    by destruct (run add st2 l2) as [[ps2 st3]|].
Qed.

(** A name that is present keeps its position through later calls. *)
Lemma contract_run_found names : ∀ st ps st' x p,
  inv st → search st x = Some p → p ≠ NotFound →
  run add st names = Some (ps, st') → search st' x = Some p.
Proof.
  induction names as [|y rest IH]; intros st ps st' x p Hinv Hs Hp Hrun;
    simpl in Hrun; [by simplify_eq|].
  destruct (contract_add st y Hinv) as (q & st1 & Hadd & Hinv1 & Hsy & _ & Ho).
  rewrite Hadd in Hrun. simpl in Hrun.
  destruct (run add st1 rest) as [[ps2 st2]|] eqn:Hrest; simpl in Hrun; [|done].
  simplify_eq. apply (IH st1 ps2 st' x p Hinv1); [|done..].
  destruct (decide (x = y)) as [->|Hne]; [|by rewrite Ho].
  rewrite (add_hit st y p Hinv Hs Hp) in Hadd. by simplify_eq.
Qed.

(** The table refines the reference table: a call returns the index of
    its name among the names in the order of their first occurrence. *)
Lemma contract_run_first_seen names : ∀ st seen,
  inv st → next st = Z.of_nat (length seen) →
  (∀ x, search st x = Some (ref_search seen x)) →
  ∃ st', run add st names
           = Some (ref_search (first_seen_from seen names) <$> names, st') ∧
         inv st' ∧
         next st' = Z.of_nat (length (first_seen_from seen names)) ∧
         count st' = count st + Z.of_nat (length (first_seen_from seen names))
                     - Z.of_nat (length seen) ∧
         ∀ x, search st' x = Some (ref_search (first_seen_from seen names) x).
Proof.
  induction names as [|x rest IH]; intros st seen Hinv Hnext Hs; simpl.
  - exists st. split_and!; [done|done|done|lia|done].
  - destruct (decide (x ∈ seen)) as [Hx|Hx].
    + destruct (ref_search_elem_of seen x Hx) as (i & _ & Hi).
      rewrite (add_hit st x (Z.of_nat i)); [|done|by rewrite Hs, Hi|unfold NotFound; lia].
      simpl. destruct (IH st seen Hinv Hnext Hs) as (st' & -> & Hinv' & Hn' & Hc' & Hs').
      simpl. exists st'. split_and!; [|done..].
      by rewrite ref_search_first_seen_from, Hi.
    + destruct (add_miss st x Hinv) as (st1 & -> & Hinv1 & Hn1 & Hc1 & Hs1 & Ho).
      { by rewrite Hs, ref_search_not_elem_of. }
      simpl.
      destruct (IH st1 (seen ++ [x]) Hinv1) as (st' & -> & Hinv' & Hn' & Hc' & Hs').
      { rewrite Hn1, Hnext, length_app. simpl. lia. }
      { intros y. rewrite ref_search_snoc by done.
        destruct (decide (y = x)) as [->|Hne]; [by rewrite Hs1, Hnext|].
        by rewrite Ho, Hs. }
      simpl. exists st'. split_and!; [|done|done| |done].
      * rewrite ref_search_first_seen_from
          by (rewrite elem_of_app, list_elem_of_singleton; tauto).
        rewrite ref_search_snoc, decide_True by done. by rewrite Hnext.
      * rewrite Hc', Hc1, length_app. simpl. lia.
Qed.

End Contract.

(** ** The binary search tree backend *)

Section BSTFacts.

Import BST.

Lemma search_node_name t x n p l r :
  search_node t x = Node n p l r → n = x.
Proof.
  induction t as [|n' p' l' IHl r' IHr]; simpl; [done|].
  destruct (strcmp_cases x n') as [_ -> | _ -> -> | -> -> ->]; [done..|].
  by intros [= -> _ _ _].
Qed.

(** A name that the descent finds is not inserted: nothing changes. *)
Lemma insert_node_found t x n p l r position found :
  search_node t x = Node n p l r →
  insert_node t x position found = (t, p, 1).
Proof.
  induction t as [|n' p' l' IHl r' IHr]; simpl; [done|].
  destruct (strcmp_cases x n') as [_ -> | _ -> -> | -> -> ->].
  - intros H. by rewrite (IHl H).
  - intros H. by rewrite (IHr H).
  - by intros [= _ -> _ _].
Qed.

(** A name that the descent misses becomes a new leaf where the descent
    ended; the search of any other name is unchanged. *)
Lemma insert_node_missing t x position found :
  search_node t x = NULL →
  ∃ t', insert_node t x position found = (t', position, 0) ∧
        search_node t' x = Node x position NULL NULL ∧
        (∀ y, y ≠ x →
           node_position (search_node t' y) = node_position (search_node t y)) ∧
        (∀ P, all_nodes P t → P x position → all_nodes P t').
Proof.
  induction t as [|n' p' l' IHl r' IHr]; simpl.
  - intros _. exists (create_node x position). split_and!.
    + done.
    + simpl. by rewrite strcmp_refl.
    + intros y Hy. simpl.
      destruct (strcmp_cases y x) as [_ -> | _ -> -> | -> -> ->]; done.
    + intros Q _ HQ. simpl. done.
  - destruct (strcmp_cases x n') as [Hlt Hb | Hgt Hb1 Hb2 | -> Hb1 Hb2].
    + rewrite Hb. intros H. destruct (IHl H) as (t' & -> & Hs & Ho & HP).
      exists (Node n' p' t' r'). simpl. rewrite Hb. split_and!; [done|done| |].
      * intros y Hy. destruct (strcmp_cases y n') as [_ -> | _ -> -> | -> -> ->];
          [by apply Ho|done..].
      * intros Q (? & ? & ?) ?. split_and!; [done| |done]. by apply HP.
    + rewrite Hb1, Hb2. intros H. destruct (IHr H) as (t' & -> & Hs & Ho & HP).
      exists (Node n' p' l' t'). simpl. rewrite Hb1, Hb2. split_and!; [done|done| |].
      * intros y Hy. destruct (strcmp_cases y n') as [_ -> | _ -> -> | -> -> ->];
          [done|by apply Ho|done].
      * intros Q (? & ? & ?) ?. split_and!; [done..|]. by apply HP.
    + by rewrite Hb1, Hb2.
Qed.

(** Whatever the tree, the name just inserted is found, at the position
    [insert_node] reports. *)
Lemma search_insert_node t x position found :
  ∃ l r, search_node (insert_node t x position found).1.1 x
         = Node x (insert_node t x position found).1.2 l r.
Proof.
  destruct (search_node t x) as [|n p l r] eqn:Hs.
  - destruct (insert_node_missing t x position found Hs) as (t' & -> & Hs' & _).
    simpl. eauto.
  - rewrite (insert_node_found t x n p l r position found Hs). simpl.
    rewrite Hs. apply search_node_name in Hs as ->. eauto.
Qed.

(** [insert_node] maintains the ordering invariant. *)
Lemma insert_node_ordered t x position found :
  bst_ordered t → bst_ordered (insert_node t x position found).1.1.
Proof.
  induction t as [|n' p' l' IHl r' IHr]; simpl; [done|].
  intros (Hl & Hr & Hol & Hor).
  destruct (strcmp_cases x n') as [Hlt Hb | Hgt Hb1 Hb2 | -> Hb1 Hb2].
  - rewrite Hb. specialize (IHl Hol).
    destruct (search_node l' x) as [|n p l r] eqn:Hs.
    + destruct (insert_node_missing l' x position found Hs) as (t' & Hins & _ & _ & HP).
      rewrite Hins in *. simpl in *. split_and!; [|done..]. by apply HP.
    + rewrite (insert_node_found _ _ _ _ _ _ position found Hs). simpl. done.
  - rewrite Hb1, Hb2. specialize (IHr Hor).
    destruct (search_node r' x) as [|n p l r] eqn:Hs.
    + destruct (insert_node_missing r' x position found Hs) as (t' & Hins & _ & _ & HP).
      rewrite Hins in *. simpl in *. split_and!; [done| |done..]. by apply HP.
    + rewrite (insert_node_found _ _ _ _ _ _ position found Hs). simpl. done.
  - rewrite Hb1, Hb2. simpl. done.
Qed.

Lemma all_nodes_inorder (P : string → Prop) t :
  all_nodes (λ k _, P k) t → ∀ k, k ∈ (inorder_traversal t).*1 → P k.
Proof.
  induction t as [|n p l IHl r IHr]; simpl.
  - intros _ k Hk. by apply elem_of_nil in Hk.
  - intros (Hn & Hl & Hr) k. rewrite fmap_app, elem_of_app, fmap_cons, elem_of_cons.
    simpl. intros [?|[->|?]]; [by apply IHl|done|by apply IHr].
Qed.

(** The in-order traversal of an ordered tree prints the names in
    strictly ascending order. *)
Lemma inorder_ascending t :
  bst_ordered t → strictly_ascending (inorder_traversal t).*1.
Proof.
  unfold strictly_ascending.
  induction t as [|n p l IHl r IHr]; simpl; [constructor|].
  intros (Hl & Hr & Hol & Hor).
  rewrite fmap_app, fmap_cons. simpl.
  apply StronglySorted_app_2; [|by apply IHl|].
  - intros a b Ha [->|Hb]%elem_of_cons.
    + by apply (all_nodes_inorder (λ k, strcmp k n < 0) l).
    + apply strcmp_lt_trans with n.
      * by apply (all_nodes_inorder (λ k, strcmp k n < 0) l).
      * apply strcmp_antisym. by apply (all_nodes_inorder (λ k, 0 < strcmp k n) r).
  - apply StronglySorted_cons. split; [|by apply IHr].
    apply Forall_forall. intros b Hb. apply strcmp_antisym.
    by apply (all_nodes_inorder (λ k, 0 < strcmp k n) r).
Qed.

(** [st_add] in terms of the search that precedes it. *)
Lemma bst_add_found st x n p l r :
  search_node (root st) x = Node n p l r → st_add st x = (p, st).
Proof.
  intros Hs. unfold st_add.
  rewrite (insert_node_found _ _ _ _ _ _ (size st) 0 Hs). simpl. by destruct st.
Qed.

Lemma bst_add_missing st x :
  search_node (root st) x = NULL →
  ∃ t', st_add st x = (size st, {| root := t'; size := size st + 1 |}) ∧
        search_node t' x = Node x (size st) NULL NULL ∧
        (∀ y, y ≠ x →
           node_position (search_node t' y) = node_position (search_node (root st) y)) ∧
        (∀ P, all_nodes P (root st) → P x (size st) → all_nodes P t') ∧
        (bst_ordered (root st) → bst_ordered t').
Proof.
  intros Hs. unfold st_add.
  pose proof (insert_node_ordered (root st) x (size st) 0) as Hord.
  destruct (insert_node_missing (root st) x (size st) 0 Hs) as (t' & Hins & ? & ? & ?).
  rewrite Hins in *. simpl in *. by exists t'.
Qed.

Lemma bst_add_ordered st x :
  bst_ordered (root st) → bst_ordered (root (st_add st x).2).
Proof.
  intros Hord. destruct (search_node (root st) x) as [|n p l r] eqn:Hs.
  - destruct (bst_add_missing st x Hs) as (t' & -> & _ & _ & _ & H). simpl. auto.
  - by rewrite (bst_add_found st x n p l r Hs).
Qed.

Lemma bst_add_all_ordered names : ∀ st,
  bst_ordered (root st) → bst_ordered (root (st_add_all st names).2).
Proof.
  induction names as [|x rest IH]; intros st Hord; simpl; [done|].
  pose proof (bst_add_ordered st x Hord) as H1.
  destruct (st_add st x) as [p st1]. simpl in H1.
  specialize (IH st1 H1). destruct (st_add_all st1 rest) as [ps st2]. done.
Qed.

(** The driver's sequence of calls is a [run] of the contract. *)
Lemma bst_add_all_run names : ∀ st,
  run (λ st x, Some (st_add st x)) st names = Some (st_add_all st names).
Proof.
  induction names as [|x rest IH]; intros st; simpl; [done|].
  destruct (st_add st x) as [p st1]. simpl. rewrite IH.
  by destruct (st_add_all st1 rest).
Qed.

(** The BST backend satisfies the contract. *)
Lemma bst_search_defined st x :
  bst_inv st → is_Some (Some (st_search st x)).
Proof. eauto. Qed.

Lemma bst_search_not_found st x :
  bst_inv st → st_search st x = NotFound → search_node (root st) x = NULL.
Proof.
  intros [_ Hpos]. unfold st_search.
  destruct (search_node (root st) x) as [|n p l r] eqn:Hs; [done|].
  intros ->. exfalso. clear -Hs Hpos. revert Hs Hpos.
  induction (root st) as [|n' p' l' IHl r' IHr]; simpl; [done|].
  destruct (strcmp_cases x n') as [_ -> | _ -> -> | -> -> ->].
  - intros Hs (_ & Hl & _). by apply IHl.
  - intros Hs (_ & _ & Hr). by apply IHr.
  - intros [= _ -> _ _] (H & _). unfold NotFound in H. lia.
Qed.

Lemma bst_add_hit st x p :
  bst_inv st → Some (st_search st x) = Some p → p ≠ NotFound →
  Some (st_add st x) = Some (p, st).
Proof.
  intros _ [= <-] Hne. f_equal. unfold st_search in *.
  destruct (search_node (root st) x) as [|n q l r] eqn:Hs; [done|].
  by apply (bst_add_found st x n q l r).
Qed.

Lemma bst_add_miss st x :
  bst_inv st → Some (st_search st x) = Some NotFound →
  ∃ st', Some (st_add st x) = Some (size st, st') ∧ bst_inv st' ∧
         size st' = size st + 1 ∧ size st' = size st + 1 ∧
         Some (st_search st' x) = Some (size st) ∧
         ∀ y, y ≠ x → Some (st_search st' y) = Some (st_search st y).
Proof.
  intros Hinv [= Hs]. apply bst_search_not_found in Hs; [|done].
  destruct Hinv as [Hsz Hpos].
  destruct (bst_add_missing st x Hs) as (t' & -> & Hs' & Ho & HP & _).
  eexists. split; [done|]. unfold bst_inv, st_search. simpl. split_and!; [lia| |done..| |].
  - by apply HP.
  - by rewrite Hs'.
  - intros y Hy. f_equal. by apply Ho.
Qed.

Lemma bst_inv_create : bst_inv st_create.
Proof. by split. Qed.

Lemma bst_run_defined names st :
  bst_inv st → bst_inv (st_add_all st names).2.
Proof.
  intros Hinv.
  destruct (contract_run_defined bst_inv (λ st x, Some (st_add st x))
              (λ st x, Some (st_search st x)) size size
              (λ st H, proj1 H) bst_search_defined bst_add_hit bst_add_miss
              names st Hinv) as (ps & st' & Hrun & Hinv').
  rewrite bst_add_all_run in Hrun. injection Hrun as Hrun. by rewrite Hrun.
Qed.

Lemma bst_run_distinct names st :
  bst_inv st → NoDup names →
  (∀ x, x ∈ names → st_search st x = NotFound) →
  (st_add_all st names).1 = seqZ (size st) (Z.of_nat (length names)).
Proof.
  intros Hinv Hnd Hnew.
  destruct (contract_run_distinct bst_inv (λ st x, Some (st_add st x))
              (λ st x, Some (st_search st x)) size size bst_add_miss
              names st Hinv Hnd) as (st' & Hrun & _).
  { intros x Hx. by rewrite Hnew. }
  rewrite bst_add_all_run in Hrun. injection Hrun as Hrun. by rewrite Hrun.
Qed.

Lemma bst_run_other names st y :
  bst_inv st → y ∉ names →
  st_search (st_add_all st names).2 y = st_search st y.
Proof.
  intros Hinv Hy.
  pose proof (contract_run_other bst_inv (λ st x, Some (st_add st x))
                (λ st x, Some (st_search st x)) size size
                (λ st H, proj1 H) bst_search_defined bst_add_hit bst_add_miss
                names st (st_add_all st names).1 (st_add_all st names).2 y Hinv) as H.
  rewrite bst_add_all_run in H. destruct (st_add_all st names) as [ps st'].
  simpl in *. specialize (H eq_refl Hy). by simplify_eq.
Qed.

Lemma bst_run_count names st :
  bst_inv st →
  size st ≤ size (st_add_all st names).2
          ≤ size st + Z.of_nat (length (remove_dups names)).
Proof.
  intros Hinv.
  apply (contract_run_count bst_inv (λ st x, Some (st_add st x))
           (λ st x, Some (st_search st x)) size size
           (λ st H, proj1 H) bst_search_defined bst_add_hit bst_add_miss
           names st (st_add_all st names).1); [done|].
  rewrite bst_add_all_run. by destruct (st_add_all st names).
Qed.

(** Whatever the table, the name just added is found, at the position
    that [st_add] returned. *)
Lemma bst_add_search st x :
  ∃ l r, search_node (root (st_add st x).2) x = Node x (st_add st x).1 l r.
Proof.
  unfold st_add.
  destruct (search_insert_node (root st) x (size st) 0) as (l & r & Hs).
  destruct (insert_node (root st) x (size st) 0) as [[t' p'] f'].
  simpl in *. eauto.
Qed.

End BSTFacts.

(** *** The contents of the tree *)

Section BSTContents.

Import BST.

(** The BST backend refines the reference table. *)
Lemma bst_run_first_seen names :
  (st_add_all st_create names).1 = ref_search (first_seen names) <$> names ∧
  bst_inv (st_add_all st_create names).2 ∧
  size (st_add_all st_create names).2 = Z.of_nat (length (first_seen names)) ∧
  ∀ x, st_search (st_add_all st_create names).2 x = ref_search (first_seen names) x.
Proof.
  destruct (contract_run_first_seen bst_inv (λ st x, Some (st_add st x))
              (λ st x, Some (st_search st x)) size size bst_add_hit bst_add_miss
              names st_create [] bst_inv_create eq_refl)
    as (st' & Hrun & Hinv & Hn & _ & Hs); [done|].
  rewrite bst_add_all_run in Hrun. injection Hrun as Hrun. rewrite Hrun. simpl.
  split_and!; [done..|]. intros x. specialize (Hs x). by simplify_eq.
Qed.

Lemma bst_run_found names st x :
  bst_inv st → st_search st x ≠ NotFound →
  st_search (st_add_all st names).2 x = st_search st x.
Proof.
  intros Hinv Hx.
  pose proof (contract_run_found bst_inv (λ st x, Some (st_add st x))
                (λ st x, Some (st_search st x)) size size
                (λ st H, proj1 H) bst_search_defined bst_add_hit bst_add_miss
                names st (st_add_all st names).1 (st_add_all st names).2
                x (st_search st x) Hinv eq_refl Hx) as H.
  rewrite bst_add_all_run in H. destruct (st_add_all st names) as [ps st'].
  simpl in *. specialize (H eq_refl). by simplify_eq.
Qed.

(** [insert_node] adds one node, or none when it reports the name found. *)
Lemma insert_node_inorder t x position found :
  (insert_node t x position found).2 = 0 ∧
  inorder_traversal (insert_node t x position found).1.1
    ≡ₚ (x, position) :: inorder_traversal t
  ∨
  (insert_node t x position found).2 = 1 ∧
  (insert_node t x position found).1.1 = t.
Proof.
  induction t as [|n p l IHl r IHr]; simpl; [by left|].
  destruct (strcmp_cases x n) as [_ -> | _ -> -> | -> -> ->].
  - destruct (insert_node l x position found) as [[l' p'] f']. simpl in *.
    destruct IHl as [[-> Hp]|[-> ->]]; [left|by right].
    split; [done|]. by rewrite Hp.
  - destruct (insert_node r x position found) as [[r' p'] f']. simpl in *.
    destruct IHr as [[-> Hp]|[-> ->]]; [left|by right].
    split; [done|]. rewrite Hp. by rewrite !Permutation_middle, Permutation_swap.
  - by right.
Qed.

(** [st_add] leaves the table as it is, or adds one row that holds the
    old size. *)
Lemma bst_add_rows st x :
  (st_add st x).2 = st ∨
  size (st_add st x).2 = size st + 1 ∧
  inorder_traversal (root (st_add st x).2)
    ≡ₚ (x, size st) :: inorder_traversal (root st).
Proof.
  unfold st_add.
  destruct (insert_node_inorder (root st) x (size st) 0) as [[Hf Hp]|[Hf Ht]];
    destruct (insert_node (root st) x (size st) 0) as [[t' p'] f']; simpl in *;
    subst.
  - by right.
  - left. by destruct st.
Qed.

(** The positions stored in a table built from a fresh one are the
    numbers below its size, each once. *)
Lemma bst_run_positions names : ∀ st,
  0 ≤ size st → (inorder_traversal (root st)).*2 ≡ₚ seqZ 0 (size st) →
  (inorder_traversal (root (st_add_all st names).2)).*2
    ≡ₚ seqZ 0 (size (st_add_all st names).2).
Proof.
  induction names as [|x rest IH]; intros st Hsz Hp; simpl; [done|].
  pose proof (bst_add_rows st x) as Hadd.
  destruct (st_add st x) as [p st1]. simpl in Hadd.
  specialize (IH st1). destruct (st_add_all st1 rest) as [ps st2]. simpl in *.
  destruct Hadd as [->|[Hs1 Hr1]]; [by apply IH|].
  apply IH; [lia|]. rewrite Hr1, Hs1, fmap_cons, Hp. simpl.
  rewrite seqZ_app by lia.
  replace (seqZ (0 + size st) 1) with [size st] by (cbn; f_equal; lia).
  by rewrite Permutation_cons_append.
Qed.

(** In an ordered tree the rows of the traversal are the nodes that the
    search reaches. *)
Lemma search_node_inorder t x p :
  bst_ordered t →
  (x, p) ∈ inorder_traversal t ↔ ∃ l r, search_node t x = Node x p l r.
Proof.
  induction t as [|n q l IHl r IHr]; simpl.
  - intros _. rewrite elem_of_nil. split; [done|]. by intros (? & ? & ?).
  - intros (Hl & Hr & Hol & Hor). rewrite elem_of_app, elem_of_cons.
    assert (∀ k, (k, p) ∈ inorder_traversal l → strcmp k n < 0) as Hlt.
    { intros k Hk. apply (all_nodes_inorder (λ k, strcmp k n < 0) l Hl).
      apply list_elem_of_fmap. by exists (k, p). }
    assert (∀ k, (k, p) ∈ inorder_traversal r → 0 < strcmp k n) as Hgt.
    { intros k Hk. apply (all_nodes_inorder (λ k, 0 < strcmp k n) r Hr).
      apply list_elem_of_fmap. by exists (k, p). }
    destruct (strcmp_cases x n) as [Hc Hb | Hc Hb1 Hb2 | -> Hb1 Hb2].
    + rewrite Hb, <- (IHl Hol). split; [|tauto]. intros [?|[[= -> _]|Hin]]; [done| |].
      * rewrite strcmp_refl in Hc. lia.
      * apply Hgt in Hin. lia.
    + rewrite Hb1, Hb2, <- (IHr Hor). split; [|tauto].
      intros [Hin|[[= -> _]|?]]; [| |done].
      * apply Hlt in Hin. lia.
      * rewrite strcmp_refl in Hc. lia.
    + rewrite Hb1, Hb2. split.
      * intros [Hin|[[= ->]|Hin]]; [|by eauto|].
        -- apply Hlt in Hin. rewrite strcmp_refl in Hin. lia.
        -- apply Hgt in Hin. rewrite strcmp_refl in Hin. lia.
      * intros (l0 & r0 & [= -> _ _]). right. by left.
Qed.

(** A name greater than all the names of a right spine is appended to it. *)
Lemma insert_node_right_spine rows x position found :
  Forall (λ row, 0 < strcmp x row.1) rows →
  insert_node (right_spine rows) x position found
  = (right_spine (rows ++ [(x, position)]), position, 0).
Proof.
  induction rows as [|[n p] rows IH]; simpl; [done|].
  intros [Hn Hrows]%Forall_cons. simpl in Hn.
  destruct (strcmp_cases x n) as [Hc _ | _ -> -> | -> _ _].
  - lia.
  - by rewrite (IH Hrows).
  - rewrite strcmp_refl in Hn. lia.
Qed.

Lemma st_add_all_right_spine names : ∀ rows,
  strictly_ascending (rows.*1 ++ names) →
  st_add_all {| root := right_spine rows; size := Z.of_nat (length rows) |} names
  = (seqZ (Z.of_nat (length rows)) (Z.of_nat (length names)),
     {| root := right_spine
                  (rows ++ zip names (seqZ (Z.of_nat (length rows))
                                           (Z.of_nat (length names))));
        size := Z.of_nat (length rows + length names) |}).
Proof.
  unfold strictly_ascending.
  induction names as [|x rest IH]; intros rows Hasc.
  - simpl. by rewrite app_nil_r, Nat.add_0_r.
  - cbn [st_add_all]. unfold st_add. cbn [root size].
    rewrite insert_node_right_spine.
    + cbn [fst snd]. rewrite Z.eqb_refl.
      specialize (IH (rows ++ [(x, Z.of_nat (length rows))])).
      rewrite length_app in IH. cbn [length] in IH.
      replace (Z.of_nat (length rows) + 1) with (Z.of_nat (length rows + 1)) by lia.
      rewrite IH.
      * replace (Z.of_nat (length (x :: rest)))
          with (Z.succ (Z.of_nat (length rest))) by (simpl; lia).
        rewrite (seqZ_cons (Z.of_nat (length rows))) by lia.
        replace (Z.succ (Z.of_nat (length rows))) with (Z.of_nat (length rows + 1)) by lia.
        replace (Z.pred (Z.succ (Z.of_nat (length rest))))
          with (Z.of_nat (length rest)) by lia.
        cbn [zip zip_with]. rewrite <- app_assoc. simpl.
        do 3 f_equal. lia.
      * rewrite fmap_app. simpl. by rewrite <- app_assoc.
    + apply Forall_forall. intros [n p] Hin. simpl.
      apply strcmp_antisym.
      apply (StronglySorted_app_1_elem_of _ _ _ _ _ Hasc); [|left].
      apply list_elem_of_fmap. by exists (n, p).
Qed.

Lemma height_right_spine rows : height (right_spine rows) = length rows.
Proof. induction rows as [|[n p] rows IH]; simpl; [done|]. by rewrite IH. Qed.



(** *** The shape of the tree *)

Lemma all_nodes_impl (P Q : string → Z → Prop) t :
  (∀ k q, P k q → Q k q) → all_nodes P t → all_nodes Q t.
Proof.
  intros HPQ. induction t as [|n p l IHl r IHr]; simpl; [done|].
  intros (? & ? & ?). split_and!; auto.
Qed.

(** A new node goes below older nodes only. *)
Lemma insert_node_position_ordered t x position found :
  position_ordered t → all_nodes (λ _ q, q < position) t →
  position_ordered (insert_node t x position found).1.1.
Proof.
  induction t as [|n p l IHl r IHr]; simpl; [done|].
  intros (Hl & Hr & Hol & Hor) (Hp & Hbl & Hbr).
  destruct (strcmp_cases x n) as [_ -> | _ -> -> | -> -> ->].
  - specialize (IHl Hol Hbl).
    destruct (search_node l x) as [|n' p' l' r'] eqn:Hs.
    + destruct (insert_node_missing l x position found Hs) as (t' & Hins & _ & _ & HP).
      rewrite Hins in *. simpl in *. split_and!; [|done..]. by apply HP.
    + rewrite (insert_node_found _ _ _ _ _ _ position found Hs). simpl. done.
  - specialize (IHr Hor Hbr).
    destruct (search_node r x) as [|n' p' l' r'] eqn:Hs.
    + destruct (insert_node_missing r x position found Hs) as (t' & Hins & _ & _ & HP).
      rewrite Hins in *. simpl in *. split_and!; [done| |done..]. by apply HP.
    + rewrite (insert_node_found _ _ _ _ _ _ position found Hs). simpl. done.
  - simpl. done.
Qed.

Lemma insert_node_below t x position found (P : string → Z → Prop) :
  all_nodes P t → P x position → all_nodes P (insert_node t x position found).1.1.
Proof.
  intros Ht Hx. destruct (search_node t x) as [|n' p' l' r'] eqn:Hs.
  - destruct (insert_node_missing t x position found Hs) as (t' & -> & _ & _ & HP).
    simpl. by apply HP.
  - by rewrite (insert_node_found _ _ _ _ _ _ position found Hs).
Qed.

Lemma bst_add_position_ordered st x :
  position_ordered (root st) → all_nodes (λ _ q, q < size st) (root st) →
  position_ordered (root (st_add st x).2) ∧
  all_nodes (λ _ q, q < size (st_add st x).2) (root (st_add st x).2).
Proof.
  intros Hord Hb. unfold st_add.
  pose proof (insert_node_position_ordered (root st) x (size st) 0 Hord Hb) as Hord'.
  pose proof (insert_node_below (root st) x (size st) 0 (λ _ q, q < size st + 1)) as Hb'.
  destruct (insert_node_inorder (root st) x (size st) 0) as [[Hf _]|[Hf Ht]];
    destruct (insert_node (root st) x (size st) 0) as [[t' p'] f'];
    simpl in *; subst; simpl.
  - split; [done|]. apply Hb'; [|lia].
    apply (all_nodes_impl (λ _ q, q < size st)); [|done]. intros; lia.
  - done.
Qed.

Lemma bst_run_position_ordered names : ∀ st,
  position_ordered (root st) → all_nodes (λ _ q, q < size st) (root st) →
  position_ordered (root (st_add_all st names).2).
Proof.
  induction names as [|x rest IH]; intros st Hord Hb; simpl; [done|].
  destruct (bst_add_position_ordered st x Hord Hb) as [Hord1 Hb1].
  destruct (st_add st x) as [p st1]. simpl in *.
  specialize (IH st1 Hord1 Hb1). by destruct (st_add_all st1 rest).
Qed.

(** The root node is never replaced. *)
Lemma insert_node_root n p l r x position found :
  ∃ l' r', (insert_node (Node n p l r) x position found).1.1 = Node n p l' r'.
Proof.
  simpl. destruct (strcmp_cases x n) as [_ -> | _ -> -> | -> -> ->].
  - destruct (insert_node l x position found) as [[l' ?] ?]. simpl. eauto.
  - destruct (insert_node r x position found) as [[r' ?] ?]. simpl. eauto.
  - simpl. eauto.
Qed.

Lemma st_add_all_root names : ∀ st n p l r,
  root st = Node n p l r →
  ∃ l' r', root (st_add_all st names).2 = Node n p l' r'.
Proof.
  induction names as [|x rest IH]; intros st n p l r Hroot; simpl; [eauto|].
  assert (∃ l' r', root (st_add st x).2 = Node n p l' r') as (l1 & r1 & H1).
  { unfold st_add. rewrite Hroot.
    destruct (insert_node_root n p l r x (size st) 0) as (l' & r' & H').
    destruct (insert_node (Node n p l r) x (size st) 0) as [[t' ?] ?].
    simpl in *. eauto. }
  destruct (st_add st x) as [q st1]. simpl in *.
  destruct (IH st1 n p l1 r1 H1) as (l' & r' & H').
  destruct (st_add_all st1 rest). eauto.
Qed.

End BSTContents.

(** ** Single-precision arithmetic of the load factor

    What [SpecFloat] computes for the conversions, the division and the
    comparison of [st_add], for the integers that occur in a table of at
    most [10 * 2^22] buckets. *)

Lemma digits2_pos_log2 p : Zpos (digits2_pos p) = Z.log2 (Zpos p) + 1.
Proof.
  induction p as [p IH|p IH|]; simpl digits2_pos.
  - rewrite Pos2Z.inj_succ, IH. 
    change (Zpos p~1) with (2 * Zpos p + 1). rewrite Z.log2_succ_double by lia. lia.
  - rewrite Pos2Z.inj_succ, IH.
    change (Zpos p~0) with (2 * Zpos p). rewrite Z.log2_double by lia. lia.
  - reflexivity.
Qed.

Lemma Zdigits2_unique p n :
  2 ^ (n - 1) ≤ Zpos p < 2 ^ n → 0 < n → Zdigits2 (Zpos p) = n.
Proof.
  intros H Hn. simpl. rewrite digits2_pos_log2.
  rewrite (Z.log2_unique (Zpos p) (n - 1)); [lia|lia|].
  by replace (Z.succ (n - 1)) with n by lia.
Qed.

Lemma digits2_pos_bounds p :
  2 ^ (Zpos (digits2_pos p) - 1) ≤ Zpos p < 2 ^ Zpos (digits2_pos p).
Proof.
  rewrite digits2_pos_log2. replace (Z.log2 (Z.pos p) + 1 - 1) with (Z.log2 (Z.pos p)) by lia.
  pose proof (Z.log2_spec (Zpos p)). replace (Z.succ (Z.log2 (Z.pos p))) with (Z.log2 (Z.pos p) + 1) in * by lia. lia.
Qed.

Section RoundingAux.

Variables prec emax : Z.
Hypothesis prec_pos : 0 < prec.

Lemma shr_record_of_loc_m m l : shr_m (shr_record_of_loc m l) = m.
Proof. by destruct l as [|[]]. Qed.

Lemma loc_of_shr_record_of_loc m l : loc_of_shr_record (shr_record_of_loc m l) = l.
Proof. by destruct l as [|[]]. Qed.

Lemma shr_fexp_same m e l :
  Zdigits2 m = prec → emin prec emax ≤ e →
  shr_fexp prec emax m e l = (shr_record_of_loc m l, e).
Proof.
  intros Hd He. unfold shr_fexp, fexp. rewrite Hd.
  replace (Z.max (prec + e - prec) (emin prec emax) - e) with 0 by lia. done.
Qed.

Lemma shr_fexp_one m e l :
  Zdigits2 m = prec + 1 → emin prec emax ≤ e + 1 →
  shr_fexp prec emax m e l = (shr_1 (shr_record_of_loc m l), e + 1).
Proof.
  intros Hd He. unfold shr_fexp, fexp. rewrite Hd.
  replace (Z.max (prec + 1 + e - prec) (emin prec emax) - e) with 1 by lia. done.
Qed.

Lemma round_nearest_even_bounds m l :
  m ≤ round_nearest_even m l ≤ m + 1.
Proof. destruct l as [|[]]; simpl; try lia. destruct (Z.even m); lia. Qed.

(** No shift: the mantissa has [prec] digits before and after rounding. *)
Lemma binary_round_aux_same s m e l :
  Zdigits2 (Zpos m) = prec → emin prec emax ≤ e ≤ emax - prec →
  Zdigits2 (round_nearest_even (Zpos m) l) = prec →
  binary_round_aux prec emax s (Zpos m) e l
  = S754_finite s (Z.to_pos (round_nearest_even (Zpos m) l)) e.
Proof.
  intros Hd He Hd1. unfold binary_round_aux.
  rewrite shr_fexp_same by (done || lia).
  rewrite shr_record_of_loc_m, loc_of_shr_record_of_loc.
  rewrite shr_fexp_same by (done || lia).
  rewrite shr_record_of_loc_m.
  pose proof (round_nearest_even_bounds (Zpos m) l) as Hb.
  destruct (round_nearest_even (Zpos m) l) as [|m1|m1]; [lia| |lia].
  destruct (Z.leb_spec e (emax - prec)); [done|lia].
Qed.

(** One shift: the mantissa has [prec + 1] digits. *)
Lemma binary_round_aux_one s m e l :
  Zdigits2 (Zpos m) = prec + 1 → emin prec emax ≤ e + 1 ≤ emax - prec →
  let mrs := shr_1 (shr_record_of_loc (Zpos m) l) in
  let m1 := round_nearest_even (shr_m mrs) (loc_of_shr_record mrs) in
  Zdigits2 m1 = prec →
  binary_round_aux prec emax s (Zpos m) e l = S754_finite s (Z.to_pos m1) (e + 1).
Proof.
  intros Hd He mrs m1 Hd1. unfold binary_round_aux.
  rewrite shr_fexp_one by (done || lia). fold mrs. fold m1.
  rewrite shr_fexp_same by (done || lia).
  rewrite shr_record_of_loc_m.
  destruct m1 as [|p|p] eqn:Hm1.
  - simpl in Hd1. lia.
  - destruct (Z.leb_spec (e + 1) (emax - prec)); [done|lia].
  - simpl in Hd1. 
    pose proof (digits2_pos_bounds p). rewrite Hd1 in *.
    (* negative mantissa impossible: shr_m of shr_1 on positive is >= 0 *)
    exfalso. subst m1.
    pose proof (round_nearest_even_bounds (shr_m mrs) (loc_of_shr_record mrs)) as Hb.
    rewrite Hm1 in Hb.
    assert (0 ≤ shr_m mrs). { subst mrs. destruct l as [|[]]; destruct m; simpl; lia. }
    lia.
Qed.

End RoundingAux.

Lemma Zpos_iter_xO m d : Zpos (Pos.iter xO m d) = Zpos m * 2 ^ Zpos d.
Proof.
  induction d as [|d IH] using Pos.peano_ind.
  - simpl. lia.
  - rewrite Pos.iter_succ, Pos2Z.inj_xO, IH, Pos2Z.inj_succ, Z.pow_succ_r by lia. lia.
Qed.

Section BinaryRound.
Variables prec emax : Z.
Hypothesis prec_pos : 0 < prec.

(** A mantissa of fewer than [prec] digits is shifted left; nothing is
    rounded. *)
Lemma binary_round_short s m e :
  Zpos (digits2_pos m) < prec →
  emin prec emax ≤ e - (prec - Zpos (digits2_pos m)) ≤ emax - prec →
  binary_round prec emax s m e
  = S754_finite s (Pos.iter xO m (Z.to_pos (prec - Zpos (digits2_pos m))))
                  (e - (prec - Zpos (digits2_pos m))).
Proof.
  intros Hd He. unfold binary_round, shl_align, fexp.
  set (d := Zpos (digits2_pos m)) in *.
  assert (0 < d) as Hdpos by (unfold d; lia).
  replace (Z.max (d + e - prec) (emin prec emax)) with (e - (prec - d)) by lia.
  destruct (e - (prec - d) - e) as [|k|k] eqn:Hk; [lia|lia|].
  assert (k = Z.to_pos (prec - d)) as -> by lia.
  assert (Zdigits2 (Zpos (Pos.iter xO m (Z.to_pos (prec - d)))) = prec) as Hdig.
  { apply Zdigits2_unique; [|done].
    rewrite Zpos_iter_xO. pose proof (digits2_pos_bounds m) as Hb. fold d in Hb.
    rewrite Z2Pos.id by lia.
    assert (2 ^ (prec - 1) = 2 ^ (d - 1) * 2 ^ (prec - d)) as ->.
    { rewrite <- Z.pow_add_r by lia. f_equal. lia. }
    assert (2 ^ prec = 2 ^ d * 2 ^ (prec - d)) as ->.
    { rewrite <- Z.pow_add_r by lia. f_equal. lia. }
    assert (0 < 2 ^ (prec - d)) by (apply Z.pow_pos_nonneg; lia). nia. }
  rewrite (binary_round_aux_same prec emax); [done|done|lia|done].
Qed.

Lemma binary_round_full s m e :
  Zpos (digits2_pos m) = prec → emin prec emax ≤ e ≤ emax - prec →
  binary_round prec emax s m e = S754_finite s m e.
Proof.
  intros Hd He. unfold binary_round, shl_align, fexp. rewrite Hd.
  replace (Z.max (prec + e - prec) (emin prec emax) - e) with 0 by lia.
  rewrite (binary_round_aux_same prec emax); [done|done|lia|done].
Qed.

Lemma binary_round_long s m e :
  Zpos (digits2_pos m) = prec + 1 → emin prec emax ≤ e + 1 ≤ emax - prec →
  let mrs := shr_1 (shr_record_of_loc (Zpos m) loc_Exact) in
  let m1 := round_nearest_even (shr_m mrs) (loc_of_shr_record mrs) in
  Zdigits2 m1 = prec →
  binary_round prec emax s m e = S754_finite s (Z.to_pos m1) (e + 1).
Proof.
  intros Hd He mrs m1 Hd1. unfold binary_round, shl_align, fexp. rewrite Hd.
  replace (Z.max (prec + 1 + e - prec) (emin prec emax) - e) with 1 by lia.
  by rewrite (binary_round_aux_one prec emax).
Qed.

End BinaryRound.

Lemma shr_1_m m l :
  0 ≤ m → shr_m (shr_1 (shr_record_of_loc m l)) = m / 2.
Proof.
  intros Hm. rewrite <- Z.div2_div.
  destruct m as [|[p|p|]|p]; destruct l as [|[]]; simpl; lia || reflexivity.
Qed.

(** The quotient of a [float] by the [float] of a capacity [10 * 2^k]
    (mantissa [10 * 2^20]), when the exact quotient is at most 0.75. *)
Lemma float_div_by_capacity (ma : positive) (ea ec : Z) :
  2 ^ 23 ≤ Zpos ma < 2 ^ 24 →
  -125 ≤ ea - ec ≤ -1 →
  (ea - ec ≤ -2 ∨ Zpos ma ≤ 15728640) →
  ∃ mf ef,
    HT.float_div (S754_finite false ma ea) (S754_finite false 10485760 ec)
      = S754_finite false mf ef ∧
    2 ^ 23 ≤ Zpos mf < 2 ^ 24 ∧ -149 ≤ ef ∧
    (ef < -24 ∨ ef = -24 ∧ Zpos mf ≤ 12582912).
Proof.
  intros Hma HE Hle.
  assert (Zdigits2 (Zpos ma) = 24) as Hda by (apply Zdigits2_unique; lia).
  unfold HT.float_div, SFdiv, SFdiv_core_binary. rewrite Hda.
  change (Zdigits2 (Zpos 10485760)) with 24.
  unfold fexp, emin.
  replace (Z.min (Z.max (24 + ea - (24 + ec) - 24) (3 - 128 - 24)) (ea - ec))
    with (ea - ec - 24) by lia.
  replace (ea - ec - (ea - ec - 24)) with 24 by lia.
  rewrite Z.shiftl_mul_pow2 by lia.
  pose proof (Z.div_eucl_eq (Zpos ma * 2 ^ 24) 10485760 ltac:(lia)) as Heq.
  pose proof (Z.mod_pos_bound (Zpos ma * 2 ^ 24) 10485760 ltac:(lia)) as Hr.
  unfold Z.modulo in Hr.
  destruct (Z.div_eucl (Zpos ma * 2 ^ 24) 10485760) as [q r].
  set (l := new_location 10485760 r).
  change (2 ^ 24) with 16777216 in *. change (2 ^ 23) with 8388608 in *.
  destruct (Z_lt_le_dec (Zpos ma) 10485760) as [Hlt|Hge].
  - (* quotient below 1: 24 digits, no shift *)
    assert (13421772 ≤ q ≤ 16777214) as Hq by lia.
    destruct q as [|q|q]; [lia| |lia].
    assert (Zdigits2 (Zpos q) = 24) as Hdq by (apply Zdigits2_unique; lia).
    pose proof (round_nearest_even_bounds (Zpos q) l) as Hb.
    rewrite (binary_round_aux_same 24 128); [|done|unfold emin; lia|].
    + destruct (round_nearest_even (Zpos q) l) as [|mf|mf] eqn:Hmf; [lia| |lia].
      exists mf, (ea - ec - 24). simpl Z.to_pos. split; [done|]. lia.
    + destruct (round_nearest_even (Zpos q) l) as [|mf|mf] eqn:Hmf; [lia| |lia].
      apply Zdigits2_unique; lia.
  - (* quotient in [1, 1.6): 25 digits, one shift *)
    assert (16777216 ≤ q ≤ 26843545) as Hq by lia.
    destruct q as [|q|q]; [lia| |lia].
    assert (Zdigits2 (Zpos q) = 24 + 1) as Hdq by (apply Zdigits2_unique; lia).
    pose proof (shr_1_m (Zpos q) l ltac:(lia)) as Hm.
    pose proof (round_nearest_even_bounds
                  (shr_m (shr_1 (shr_record_of_loc (Zpos q) l)))
                  (loc_of_shr_record (shr_1 (shr_record_of_loc (Zpos q) l)))) as Hb.
    rewrite Hm in Hb.
    assert (8388608 ≤ Zpos q / 2 ≤ 13421772) as Hq2.
    { split; [apply Z.div_le_lower_bound; lia|apply Z.div_le_upper_bound; lia]. }
    rewrite (binary_round_aux_one 24 128); [|lia|done|unfold emin; lia|].
    + rewrite Hm.
      destruct (round_nearest_even (Zpos q / 2) _) as [|mf|mf] eqn:Hmf; [lia| |lia].
      exists mf, (ea - ec - 24 + 1). simpl Z.to_pos. split; [done|].
      split; [lia|]. split; [lia|].
      destruct Hle as [Hle|Hle]; [left; lia|].
      destruct (Z.eq_dec (ea - ec) (-1)) as [HE1|HE1]; [right|left; lia].
      split; [lia|].
      destruct (Z.eq_dec (Zpos ma) 15728640) as [Hma1|Hma1].
      * (* the quotient is exactly 1.5 *)
        assert (r = 0 ∧ Zpos q = 25165824) as [-> Hq1] by lia.
        rewrite Hq1 in Hmf. subst l. vm_compute in Hmf. by simplify_eq.
      * assert (Zpos q ≤ 25165822) by lia.
        assert (Zpos q / 2 ≤ 12582911) by (apply Z.div_le_upper_bound; lia). lia.
    + cbv zeta. rewrite Hm.
      destruct (round_nearest_even (Zpos q / 2) _) as [|mf|mf] eqn:Hmf; [lia| |lia].
      apply Zdigits2_unique; lia.
Qed.

(** A [float] at most 0.75 does not exceed the threshold. *)
Lemma double_gt_threshold (mf : positive) (ef : Z) :
  2 ^ 23 ≤ Zpos mf < 2 ^ 24 → -149 ≤ ef →
  (ef < -24 ∨ ef = -24 ∧ Zpos mf ≤ 12582912) →
  HT.double_gt (HT.double_of_float (S754_finite false mf ef))
    HT.LOAD_FACTOR_THRESHOLD = false.
Proof.
  intros Hmf Hef Hle.
  assert (Zpos (digits2_pos mf) = 24) as Hd.
  { change (Zpos (digits2_pos mf)) with (Zdigits2 (Zpos mf)). apply Zdigits2_unique; lia. }
  unfold HT.double_of_float.
  rewrite binary_round_short; [|lia|rewrite Hd; lia|rewrite Hd; unfold emin; lia].
  rewrite Hd. change (Z.to_pos (53 - 24)) with 29%positive.
  pose proof (Zpos_iter_xO mf 29) as Hbig.
  change (2 ^ Zpos 29) with 536870912 in Hbig.
  remember (Pos.iter xO mf 29) as big eqn:Ebig. clear Ebig.
  change HT.LOAD_FACTOR_THRESHOLD with (S754_finite false 6755399441055744 (-53)).
  unfold HT.double_gt, SFltb, SFcompare.
  destruct (Z.compare_spec (-53) (ef - (53 - 24))) as [He|He|He]; [|lia|done].
  rewrite Pos.compare_cont_spec. unfold Pos.switch_Eq.
  destruct (Pos.compare_spec 6755399441055744 big) as [H|H|H]; [done| |done].
  exfalso. apply Pos2Z.pos_lt_pos in H. lia.
Qed.

Lemma float_of_int_capacity (k : nat) :
  (k ≤ 22)%nat →
  HT.float_of_int (10 * 2 ^ Z.of_nat k) = S754_finite false 10485760 (Z.of_nat k - 20).
Proof.
  intros Hk.
  do 23 (destruct k as [|k]; [vm_compute; reflexivity|]). lia.
Qed.

(** [(float)a] for [0 < a < 2^24] is exact. *)
Lemma float_of_int_exact (p : positive) :
  Zpos p < 2 ^ 24 →
  ∃ ma, HT.float_of_int (Zpos p) = S754_finite false ma (Zpos (digits2_pos p) - 24) ∧
        Zpos ma = Zpos p * 2 ^ (24 - Zpos (digits2_pos p)) ∧
        2 ^ 23 ≤ Zpos ma < 2 ^ 24.
Proof.
  intros Hp. unfold HT.float_of_int, binary_normalize.
  pose proof (digits2_pos_bounds p) as Hb.
  set (d := Zpos (digits2_pos p)) in *.
  assert (0 < d) as Hdpos by (unfold d; lia).
  assert (d ≤ 24) as Hd.
  { destruct (Z_le_gt_dec d 24) as [|Hgt]; [done|].
    assert (2 ^ 24 ≤ 2 ^ (d - 1)) by (apply Z.pow_le_mono_r; lia). lia. }
  destruct (Z.eq_dec d 24) as [Hd24|Hd24].
  - rewrite binary_round_full; [|done|unfold emin; lia].
    exists p. rewrite Hd24 in *. split; [done|]. simpl. lia.
  - rewrite binary_round_short; [|lia|fold d; lia|fold d; unfold emin; lia].
    fold d. eexists. split; [f_equal; lia|].
    rewrite Zpos_iter_xO, Z2Pos.id by lia. split; [done|].
    assert (2 ^ 23 = 2 ^ (d - 1) * 2 ^ (24 - d)) as ->.
    { rewrite <- Z.pow_add_r by lia. f_equal. lia. }
    assert (2 ^ 24 = 2 ^ d * 2 ^ (24 - d)) as ->.
    { rewrite <- Z.pow_add_r by lia. f_equal. lia. }
    assert (0 < 2 ^ (24 - d)) by (apply Z.pow_pos_nonneg; lia). nia.
Qed.

(** [(float)a] for [2^24 <= a <= 31457280] is [a / 2], rounded, times 2. *)
Lemma float_of_int_rounded (p : positive) :
  2 ^ 24 ≤ Zpos p ≤ 31457280 →
  ∃ ma, HT.float_of_int (Zpos p) = S754_finite false ma 1 ∧
        2 ^ 23 ≤ Zpos ma ≤ 15728640.
Proof.
  intros Hp. unfold HT.float_of_int, binary_normalize.
  change (2 ^ 24) with 16777216 in Hp.
  assert (Zdigits2 (Zpos p) = 24 + 1) as Hd by (apply Zdigits2_unique; lia).
  pose proof (shr_1_m (Zpos p) loc_Exact ltac:(lia)) as Hm.
  pose proof (round_nearest_even_bounds
                (shr_m (shr_1 (shr_record_of_loc (Zpos p) loc_Exact)))
                (loc_of_shr_record (shr_1 (shr_record_of_loc (Zpos p) loc_Exact)))) as Hb.
  rewrite Hm in Hb.
  assert (8388608 ≤ Zpos p / 2 ≤ 15728640) as Hp2.
  { split; [apply Z.div_le_lower_bound; lia|apply Z.div_le_upper_bound; lia]. }
  assert (round_nearest_even (Zpos p / 2)
            (loc_of_shr_record (shr_1 (shr_record_of_loc (Zpos p) loc_Exact)))
          ≤ 15728640) as Hle.
  { destruct p as [p|p|]; [| |lia].
    - (* odd: a / 2 < 15728640 *)
      assert (Zpos p~1 / 2 < 15728640) by (apply Z.div_lt_upper_bound; lia). lia.
    - (* even: exact *)
      simpl loc_of_shr_record. simpl round_nearest_even. lia. }
  rewrite binary_round_long; [|lia|done|unfold emin; lia|].
  - rewrite Hm.
    destruct (round_nearest_even (Zpos p / 2) _) as [|ma|ma] eqn:Hma; [lia| |lia].
    exists ma. split; [done|]. change (2 ^ 23) with 8388608. lia.
  - cbv zeta. rewrite Hm.
    destruct (round_nearest_even (Zpos p / 2) _) as [|ma|ma] eqn:Hma; [lia| |lia].
    apply Zdigits2_unique; lia.
Qed.

(** The check does not fire while [(size + 1) / capacity <= 0.75], for the
    capacities [10 * 2^k] up to [10 * 2^22]. *)
Lemma exceeded_below (k : nat) (s : Z) :
  (k ≤ 22)%nat → 0 ≤ s → 4 * (s + 1) ≤ 3 * (10 * 2 ^ Z.of_nat k) →
  exceeded s (10 * 2 ^ Z.of_nat k) = false.
Proof.
  intros Hk Hs Hle. unfold exceeded. rewrite float_of_int_capacity by done.
  destruct (s + 1) as [|p|p] eqn:Hp; [lia| |lia]. clear s Hs Hp.
  assert (0 < 2 ^ Z.of_nat k) as Hpow by (apply Z.pow_pos_nonneg; lia).
  assert (2 ^ Z.of_nat k ≤ 2 ^ 22) as Hpow22 by (apply Z.pow_le_mono_r; lia).
  change (2 ^ 22) with 4194304 in Hpow22.
  destruct (Z_lt_le_dec (Zpos p) (2 ^ 24)) as [Hsmall|Hbig].
  - destruct (float_of_int_exact p Hsmall) as (ma & -> & Hma & Hrange).
    pose proof (digits2_pos_bounds p) as Hb.
    set (d := Zpos (digits2_pos p)) in *.
    assert (0 < d) as Hdpos by (unfold d; lia).
    assert (d ≤ 24) as Hd24.
    { destruct (Z_le_gt_dec d 24) as [|Hgt]; [done|].
      assert (2 ^ 24 ≤ 2 ^ (d - 1)) by (apply Z.pow_le_mono_r; lia). lia. }
    assert (d ≤ Z.of_nat k + 3) as Hdk.
    { destruct (Z_le_gt_dec d (Z.of_nat k + 3)) as [|Hgt]; [done|].
      assert (2 ^ (Z.of_nat k + 3) ≤ 2 ^ (d - 1)) by (apply Z.pow_le_mono_r; lia).
      rewrite Z.pow_add_r in * by lia. change (2 ^ 3) with 8 in *. lia. }
    destruct (float_div_by_capacity ma (d - 24) (Z.of_nat k - 20) Hrange)
      as (mf & ef & -> & Hmf & Hef & Hcmp); [lia| |by apply double_gt_threshold].
    destruct (Z.eq_dec d (Z.of_nat k + 3)) as [Heq|Hne]; [right|left; lia].
    rewrite Hma, Heq.
    assert (2 ^ Z.of_nat k * 2 ^ (24 - (Z.of_nat k + 3)) = 2 ^ 21) as Hmul.
    { rewrite <- Z.pow_add_r by lia. f_equal. lia. }
    change (2 ^ 21) with 2097152 in Hmul.
    assert (0 < 2 ^ (24 - (Z.of_nat k + 3))) by (apply Z.pow_pos_nonneg; lia). nia.
  - assert (k = 22%nat) as ->.
    { destruct (decide (k = 22%nat)) as [|Hne]; [done|].
      assert (2 ^ Z.of_nat k ≤ 2 ^ 21) by (apply Z.pow_le_mono_r; lia).
      change (2 ^ 21) with 2097152 in *. change (2 ^ 24) with 16777216 in *. lia. }
    change (2 ^ Z.of_nat 22) with 4194304 in *.
    destruct (float_of_int_rounded p) as (ma & -> & Hma); [lia|].
    destruct (float_div_by_capacity ma 1 (Z.of_nat 22 - 20))
      as (mf & ef & -> & Hmf & Hef & Hcmp);
      [change (2 ^ 24) with 16777216; lia|lia|right; lia|by apply double_gt_threshold].
Qed.

(** At the capacities up to [10 * 2^21] the check fires as soon as
    [(size + 1) / capacity > 0.75]. *)
Lemma exceeded_at_threshold (k : nat) :
  (k ≤ 21)%nat →
  exceeded (threshold (10 * 2 ^ Z.of_nat k)) (10 * 2 ^ Z.of_nat k) = true.
Proof.
  intros Hk. do 22 (destruct k as [|k]; [vm_compute; reflexivity|]). lia.
Qed.

(** ** The hash table backend *)

Section HTFacts.

Import HT.
Variable cs : bool.

Lemma hash_function_range str capacity :
  0 < capacity → 0 ≤ hash_function cs str capacity < capacity.
Proof. intros H. unfold hash_function. by apply Z.mod_pos_bound. Qed.

Lemma bucket_defined st x :
  ht_wf st → is_Some (buckets st !! Z.to_nat (hash_function cs x (capacity st))).
Proof.
  intros [Hc Hl]. apply lookup_lt_is_Some_2. rewrite Hl.
  pose proof (hash_function_range x _ Hc). lia.
Qed.

(** *** Searching a chain *)

Lemma search_chain_absent l x :
  (∀ e, e ∈ l → name e ≠ x) → search_chain l x = NotFound.
Proof.
  induction l as [|e l IH]; intros H; simpl; [done|].
  destruct (Z.eqb_spec (strcmp (name e) x) 0) as [E|E].
  - apply strcmp_eq in E. destruct (H e); [left|done].
  - apply IH. intros e' He'. apply H. by right.
Qed.

Lemma search_chain_present l e :
  NoDup (name <$> l) → e ∈ l → search_chain l (name e) = position e.
Proof.
  induction l as [|e' l IH]; intros Hnd He; [by apply elem_of_nil in He|].
  rewrite fmap_cons in Hnd. apply NoDup_cons in Hnd as [Hne Hnd]. simpl.
  destruct (Z.eqb_spec (strcmp (name e') (name e)) 0) as [E|E].
  - apply strcmp_eq in E. apply elem_of_cons in He as [->|He]; [done|].
    destruct Hne. rewrite E. by apply list_elem_of_fmap_2.
  - apply elem_of_cons in He as [->|He]; [by rewrite strcmp_refl in E|].
    by apply IH.
Qed.

Lemma search_chain_perm l l' x :
  NoDup (name <$> l) → l ≡ₚ l' → search_chain l x = search_chain l' x.
Proof.
  intros Hnd Hp.
  assert (NoDup (name <$> l')) as Hnd' by by rewrite <- Hp.
  destruct (decide (x ∈ name <$> l)) as [Hx|Hx].
  - apply list_elem_of_fmap in Hx as (e & -> & He).
    rewrite (search_chain_present l e Hnd He).
    rewrite (search_chain_present l' e Hnd'); [done|by rewrite <- Hp].
  - rewrite (search_chain_absent l), (search_chain_absent l'); [done| |].
    + intros e He <-. apply Hx, list_elem_of_fmap_2. by rewrite Hp.
    + intros e He <-. by apply Hx, list_elem_of_fmap_2.
Qed.

(** *** The entries of a bucket array *)

Lemma entries_insert (bs : list (list HTEntry)) i head e :
  bs !! i = Some head → concat (<[i := e :: head]> bs) ≡ₚ e :: concat bs.
Proof.
  revert i. induction bs as [|b bs IH]; intros [|i] H; simplify_eq/=; [done|].
  rewrite (IH i H). by rewrite Permutation_middle.
Qed.

Lemma elem_of_entries st e :
  e ∈ entries st ↔ ∃ i chain, buckets st !! i = Some chain ∧ e ∈ chain.
Proof.
  unfold entries. rewrite list_elem_of_In, in_concat. split.
  - intros (chain & Hc & He). apply list_elem_of_In, list_elem_of_lookup in Hc as [i Hi].
    apply list_elem_of_In in He. eauto.
  - intros (i & chain & Hi & He). exists chain.
    split; apply list_elem_of_In; [|done]. by apply list_elem_of_lookup_2 in Hi.
Qed.

Lemma chain_names_nodup st i chain :
  NoDup (name <$> entries st) → buckets st !! i = Some chain →
  NoDup (name <$> chain).
Proof.
  unfold entries. generalize (buckets st). intros bs. revert i.
  induction bs as [|b bs IH]; intros [|i] Hnd H; simplify_eq/=;
    rewrite fmap_app in Hnd; apply NoDup_app in Hnd as (? & ? & ?); eauto.
Qed.

Lemma placed_insert capacity0 bs head e :
  placed cs capacity0 bs →
  bs !! Z.to_nat (hash_function cs (name e) capacity0) = Some head →
  placed cs capacity0 (<[Z.to_nat (hash_function cs (name e) capacity0) := e :: head]> bs).
Proof.
  intros Hp Hh i chain e' Hi He'.
  apply list_lookup_insert_Some in Hi as [(<- & <- & _)|(Hne & Hi)].
  - apply elem_of_cons in He' as [->|He']; [done|]. by apply (Hp _ head).
  - by apply (Hp _ chain).
Qed.

(** *** The search in terms of the entries

    Under the invariant, [st_search] finds a name exactly when some entry
    of the table carries it. *)
Lemma st_search_entries st x :
  ht_inv cs st → st_search cs st x = Some (search_chain (entries st) x).
Proof.
  intros [Hwf Hpl Hnd _ _ _]. unfold st_search.
  destruct (bucket_defined st x Hwf) as [chain Hc]. rewrite Hc. simpl. f_equal.
  pose proof (chain_names_nodup st _ chain Hnd Hc) as Hndc.
  destruct (decide (x ∈ name <$> entries st)) as [Hx|Hx].
  - apply list_elem_of_fmap in Hx as (e & -> & He).
    rewrite (search_chain_present (entries st)); [|done..].
    apply search_chain_present; [done|].
    apply elem_of_entries in He as (i & chain' & Hi & He).
    rewrite <- (Hpl i chain' e Hi He) in Hi. by simplify_eq.
  - rewrite (search_chain_absent chain), (search_chain_absent (entries st)); [done| |].
    + intros e He <-. by apply Hx, list_elem_of_fmap_2.
    + intros e He <-. apply Hx, list_elem_of_fmap_2, elem_of_entries. eauto.
Qed.

Lemma st_search_defined st x : ht_wf st → is_Some (st_search cs st x).
Proof.
  intros Hwf. unfold st_search.
  destruct (bucket_defined st x Hwf) as [chain ->]. simpl. eauto.
Qed.

(** *** Rehashing *)

Lemma rehash_chain_spec chain : ∀ st,
  ht_wf st →
  ∃ st', rehash_chain cs chain st = Some st' ∧ ht_wf st' ∧
         capacity st' = capacity st ∧ next_position st' = next_position st ∧
         size st' = size st + Z.of_nat (length chain) ∧
         entries st' ≡ₚ chain ++ entries st ∧
         (placed cs (capacity st) (buckets st) →
          placed cs (capacity st') (buckets st')).
Proof.
  induction chain as [|e next IH]; intros st Hwf; simpl.
  - exists st. split_and!; [done..|lia|done|done].
  - destruct (bucket_defined st (name e) Hwf) as [head Hh]. rewrite Hh. simpl.
    match goal with |- context [rehash_chain cs next ?s] => set (st1 := s) end.
    assert (ht_wf st1) as Hwf1.
    { destruct Hwf as [Hc Hl]. split; simpl; [done|]. by rewrite length_insert. }
    destruct (IH st1 Hwf1) as (st' & -> & Hwf' & Hc & Hn & Hs & He & Hp).
    exists st'. split_and!; [done..| | |].
    + rewrite Hs. simpl. lia.
    + rewrite He. unfold entries at 1. simpl. rewrite (entries_insert _ _ head e Hh).
      by rewrite Permutation_middle.
    + intros Hpl. apply Hp. simpl. by apply placed_insert.
Qed.

Lemma rehash_buckets_spec old n : ∀ i st,
  ht_wf st → (i + n ≤ length old)%nat →
  ∃ st', rehash_buckets cs old i n st = Some st' ∧ ht_wf st' ∧
         capacity st' = capacity st ∧ next_position st' = next_position st ∧
         size st' = size st + Z.of_nat (length (concat (take n (drop i old)))) ∧
         entries st' ≡ₚ concat (take n (drop i old)) ++ entries st ∧
         (placed cs (capacity st) (buckets st) →
          placed cs (capacity st') (buckets st')).
Proof.
  induction n as [|n IH]; intros i st Hwf Hlen; simpl.
  - exists st. split_and!; [done..|lia|done|done].
  - destruct (lookup_lt_is_Some_2 old i) as [chain Hi]; [lia|].
    rewrite Hi. simpl. rewrite (drop_S _ _ _ Hi). simpl.
    destruct (rehash_chain_spec chain st Hwf) as (st1 & -> & Hwf1 & Hc1 & Hn1 & Hs1 & He1 & Hp1).
    simpl.
    destruct (IH (S i) st1 Hwf1) as (st' & -> & Hwf' & Hc & Hn & Hs & He & Hp); [lia|].
    exists st'. split_and!; [done|done|congruence|congruence| | |].
    + rewrite Hs, Hs1, length_app. lia.
    + rewrite He, He1. rewrite !(assoc_L (++)). f_equiv. apply Permutation_app_comm.
    + intros Hpl. by apply Hp, Hp1.
Qed.

(** [st_resize] doubles the capacity and keeps every entry. *)
Lemma st_resize_spec st :
  ht_inv cs st →
  ∃ st', st_resize cs st = Some st' ∧ ht_inv cs st' ∧
         capacity st' = capacity st * 2 ∧ size st' = size st ∧
         next_position st' = next_position st ∧
         entries st' ≡ₚ entries st.
Proof.
  intros [[Hc Hl] Hpl Hnd Hsz Hnx Hpos]. unfold st_resize.
  match goal with |- context [rehash_buckets cs _ _ _ ?s] => set (st0 := s) end.
  assert (ht_wf st0) as Hwf0.
  { split; simpl; [lia|]. by rewrite length_replicate. }
  assert (entries st0 = []) as He0.
  { unfold entries. simpl. generalize (Z.to_nat (capacity st * 2)).
    intros n. by induction n. }
  destruct (rehash_buckets_spec (buckets st) (Z.to_nat (capacity st)) O st0 Hwf0)
    as (st' & Hr & Hwf' & Hc' & Hn' & Hs' & He' & Hp'); [lia|].
  rewrite drop_0, take_ge, He0, app_nil_r in He' by lia.
  rewrite drop_0, take_ge in Hs' by lia.
  exists st'. split_and!; [done| |done| |done|done].
  - split; [done| | | | |].
    + apply Hp'. intros i chain e [-> _]%lookup_replicate_1 He.
      by apply elem_of_nil in He.
    + by rewrite He'.
    + rewrite He'. rewrite Hs'. simpl. done.
    + by rewrite Hn'.
    + intros e He. rewrite Hn'. apply Hpos. by rewrite <- He'.
  - rewrite Hs'. simpl. by rewrite Hsz.
Qed.

Lemma st_resize_search st st' x :
  ht_inv cs st → st_resize cs st = Some st' →
  st_search cs st' x = st_search cs st x.
Proof.
  intros Hinv Hr.
  destruct (st_resize_spec st Hinv) as (st'' & Hr' & Hinv' & _ & _ & _ & He).
  simplify_eq. rewrite !st_search_entries by done. f_equal.
  apply search_chain_perm; [apply Hinv'|done].
Qed.

(** *** Adding a name *)

Lemma load_factor_exceeded_eq st :
  load_factor_exceeded st = exceeded (size st) (capacity st).
Proof. reflexivity. Qed.

Lemma ht_add_hit st x p :
  st_search cs st x = Some p → p ≠ NotFound → st_add cs st x = Some (p, st).
Proof.
  intros Hs Hp. unfold st_add. rewrite Hs. simpl.
  destruct (Z.eqb_spec p (-1)) as [E|E]; [done|]. done.
Qed.

Lemma not_found_absent st x :
  ht_inv cs st → st_search cs st x = Some NotFound → x ∉ name <$> entries st.
Proof.
  intros Hinv Hs Hx. rewrite st_search_entries in Hs by done.
  apply list_elem_of_fmap in Hx as (e & -> & He).
  rewrite search_chain_present in Hs; [|apply Hinv|done].
  apply (inv_positions _ _ Hinv) in He. unfold NotFound in Hs. simplify_eq. lia.
Qed.

Lemma ht_add_miss st x :
  ht_inv cs st → st_search cs st x = Some NotFound →
  ∃ st', st_add cs st x = Some (next_position st, st') ∧ ht_inv cs st' ∧
         next_position st' = next_position st + 1 ∧
         size st' = size st + 1 ∧
         capacity st' = (if exceeded (size st) (capacity st)
                         then capacity st * 2 else capacity st) ∧
         entries st' ≡ₚ create_entry x (next_position st) :: entries st ∧
         st_search cs st' x = Some (next_position st) ∧
         ∀ y, y ≠ x → st_search cs st' y = st_search cs st y.
Proof.
  intros Hinv Hs. pose proof (not_found_absent st x Hinv Hs) as Habs.
  unfold st_add. rewrite Hs. simpl. rewrite load_factor_exceeded_eq.
  assert (∃ st1, (if exceeded (size st) (capacity st)
                  then st_resize cs st else Some st) = Some st1 ∧
                 ht_inv cs st1 ∧
                 capacity st1 = (if exceeded (size st) (capacity st)
                                 then capacity st * 2 else capacity st) ∧
                 size st1 = size st ∧ next_position st1 = next_position st ∧
                 entries st1 ≡ₚ entries st) as (st1 & -> & Hinv1 & Hc1 & Hs1 & Hn1 & He1).
  { destruct (exceeded (size st) (capacity st)).
    - destruct (st_resize_spec st Hinv) as (st1 & ? & ? & ? & ? & ? & ?). by exists st1.
    - by exists st. }
  simpl. destruct (bucket_defined st1 x (inv_wf _ _ Hinv1)) as [head Hh].
  rewrite Hh. simpl. rewrite Hn1.
  match goal with |- context [Some (_, ?s)] => set (st' := s) end.
  assert (entries st' ≡ₚ create_entry x (next_position st) :: entries st) as He'.
  { unfold entries at 1. simpl.
    rewrite (entries_insert _ _ head (create_entry x (next_position st)) Hh).
    by rewrite He1. }
  assert (ht_inv cs st') as Hinv'.
  { destruct Hinv1 as [[Hc Hl] Hpl Hnd Hsz Hnx Hpos]. split; simpl.
    - split; simpl; [done|]. by rewrite length_insert.
    - by apply (placed_insert _ _ head (create_entry x (next_position st))).
    - rewrite He'. rewrite fmap_cons. apply NoDup_cons. split; [done|apply Hinv].
    - rewrite He'. simpl. rewrite Hs1, (inv_size _ _ Hinv). lia.
    - lia.
    - intros e. rewrite He'. intros [->|He]%elem_of_cons; simpl.
      + pose proof (inv_next _ _ Hinv). lia.
      + apply (inv_positions _ _ Hinv) in He. lia. }
  exists st'. split_and!; [done|done|simpl; lia|simpl; lia|done|done| |].
  - rewrite st_search_entries by done. f_equal.
    rewrite (search_chain_perm _ _ x (inv_names _ _ Hinv') He'). simpl.
    by rewrite strcmp_refl.
  - intros y Hy. rewrite !st_search_entries by done. f_equal.
    rewrite (search_chain_perm _ _ y (inv_names _ _ Hinv') He'). simpl.
    destruct (Z.eqb_spec (strcmp x y) 0) as [E|E]; [|done].
    apply strcmp_eq in E. by destruct Hy.
Qed.

Lemma ht_inv_create : ht_inv cs st_create.
Proof.
  split.
  - by split.
  - intros i chain e Hi He. cbn [st_create buckets] in Hi.
    apply lookup_replicate_1 in Hi as [-> _]. by apply elem_of_nil in He.
  - apply NoDup_nil_2.
  - done.
  - done.
  - intros e He. by apply elem_of_nil in He.
Qed.

Lemma st_search_create x : st_search cs st_create x = Some NotFound.
Proof. rewrite st_search_entries; [done|apply ht_inv_create]. Qed.

(** The driver's sequence of calls is a [run] of the contract. *)
Lemma ht_add_all_run names : ∀ st,
  st_add_all cs st names = run (st_add cs) st names.
Proof.
  induction names as [|x rest IH]; intros st; simpl; [done|].
  destruct (st_add cs st x) as [[p st1]|]; simpl; [|done]. by rewrite IH.
Qed.

(** *** The hash table backend satisfies the contract *)

Lemma ht_contract_miss st x :
  ht_inv cs st → st_search cs st x = Some NotFound →
  ∃ st', st_add cs st x = Some (next_position st, st') ∧ ht_inv cs st' ∧
         next_position st' = next_position st + 1 ∧ size st' = size st + 1 ∧
         st_search cs st' x = Some (next_position st) ∧
         ∀ y, y ≠ x → st_search cs st' y = st_search cs st y.
Proof.
  intros Hinv Hs.
  destruct (ht_add_miss st x Hinv Hs) as (st' & ? & ? & ? & ? & _ & _ & ? & ?).
  by exists st'.
Qed.

Lemma ht_contract_hit st x p :
  ht_inv cs st → st_search cs st x = Some p → p ≠ NotFound →
  st_add cs st x = Some (p, st).
Proof. intros _. apply ht_add_hit. Qed.

Lemma ht_contract_search st x : ht_inv cs st → is_Some (st_search cs st x).
Proof. intros Hinv. apply st_search_defined, Hinv. Qed.

(** The hypotheses of the contract, for the hash table. *)
Ltac ht_contract :=
  first [apply inv_next|apply ht_contract_search|apply ht_contract_hit
        |apply ht_contract_miss].

Lemma ht_add_spec st x :
  ht_inv cs st →
  ∃ p st', st_add cs st x = Some (p, st') ∧ ht_inv cs st' ∧
           st_search cs st' x = Some p ∧ p ≠ NotFound ∧
           (∀ y, y ≠ x → st_search cs st' y = st_search cs st y).
Proof.
  apply (contract_add (ht_inv cs) (st_add cs) (st_search cs) next_position size);
    ht_contract.
Qed.

Lemma ht_run_defined names st :
  ht_inv cs st →
  ∃ ps st', st_add_all cs st names = Some (ps, st') ∧ ht_inv cs st'.
Proof.
  rewrite ht_add_all_run.
  apply (contract_run_defined (ht_inv cs) (st_add cs) (st_search cs) next_position size);
    ht_contract.
Qed.

Lemma ht_run_distinct names st :
  ht_inv cs st → NoDup names →
  (∀ x, x ∈ names → st_search cs st x = Some NotFound) →
  ∃ st', st_add_all cs st names
           = Some (seqZ (next_position st) (Z.of_nat (length names)), st') ∧
         ht_inv cs st' ∧
         next_position st' = next_position st + Z.of_nat (length names) ∧
         size st' = size st + Z.of_nat (length names).
Proof.
  rewrite ht_add_all_run.
  apply (contract_run_distinct (ht_inv cs) (st_add cs) (st_search cs) next_position size);
    [apply ht_contract_miss].
Qed.

Lemma ht_run_other names st ps st' y :
  ht_inv cs st → st_add_all cs st names = Some (ps, st') → y ∉ names →
  st_search cs st' y = st_search cs st y.
Proof.
  rewrite ht_add_all_run.
  apply (contract_run_other (ht_inv cs) (st_add cs) (st_search cs) next_position size);
    ht_contract.
Qed.

Lemma ht_run_count names st ps st' :
  ht_inv cs st → st_add_all cs st names = Some (ps, st') →
  size st ≤ size st' ≤ size st + Z.of_nat (length (remove_dups names)).
Proof.
  rewrite ht_add_all_run.
  apply (contract_run_count (ht_inv cs) (st_add cs) (st_search cs) next_position size);
    ht_contract.
Qed.

(** A property that every [st_add] maintains holds after any sequence of
    calls. *)
Lemma ht_run_invariant (J : SymbolTableHT → Prop) :
  (∀ st x p st', ht_inv cs st → J st → st_add cs st x = Some (p, st') → J st') →
  ∀ names st ps st',
    ht_inv cs st → J st → st_add_all cs st names = Some (ps, st') → J st'.
Proof.
  intros Hstep. induction names as [|x rest IH]; intros st ps st' Hinv HJ Hrun;
    simpl in Hrun; [by simplify_eq|].
  destruct (ht_add_spec st x Hinv) as (p & st1 & Hadd & Hinv1 & _).
  rewrite Hadd in Hrun. simpl in Hrun.
  destruct (st_add_all cs st1 rest) as [[ps2 st2]|] eqn:Hrest; simpl in Hrun; [|done].
  simplify_eq. apply (IH st1 ps2 _ Hinv1); [|done]. apply (Hstep st x p st1 Hinv HJ Hadd).
Qed.

(** Every [st_add] keeps the capacity or doubles it. *)
Lemma ht_add_capacity st x p st' :
  ht_inv cs st → st_add cs st x = Some (p, st') →
  size st' = size st ∧ capacity st' = capacity st ∧
  next_position st' = next_position st ∨
  size st' = size st + 1 ∧
  capacity st' = (if exceeded (size st) (capacity st)
                  then capacity st * 2 else capacity st) ∧
  next_position st' = next_position st + 1.
Proof.
  intros Hinv Hadd. destruct (ht_contract_search st x Hinv) as [q Hq].
  destruct (decide (q = NotFound)) as [->|Hne].
  - destruct (ht_add_miss st x Hinv Hq) as (st1 & Hadd1 & _ & ? & ? & ? & _).
    right. by simplify_eq.
  - rewrite (ht_add_hit st x q Hq Hne) in Hadd. left. by simplify_eq.
Qed.

(** In a table built from a fresh one the position counter is the size. *)
Lemma ht_next_position_run names ps st :
  st_add_all cs st_create names = Some (ps, st) → next_position st = size st.
Proof.
  apply (ht_run_invariant (λ st, next_position st = size st));
    [|apply ht_inv_create|done].
  intros st0 x p st1 Hinv0 HJ Hadd.
  destruct (ht_add_capacity st0 x p st1 Hinv0 Hadd) as [(-> & _ & ->)|(-> & _ & ->)]; lia.
Qed.

(** Positions of new, pairwise distinct names after the run. *)
Lemma ht_run_distinct_search names : ∀ st ps st',
  ht_inv cs st → NoDup names →
  (∀ x, x ∈ names → st_search cs st x = Some NotFound) →
  st_add_all cs st names = Some (ps, st') →
  ∀ i x, names !! i = Some x →
         st_search cs st' x = Some (next_position st + Z.of_nat i).
Proof.
  induction names as [|y rest IH]; intros st ps st' Hinv Hnd Hnew Hrun i x Hi;
    [done|].
  apply NoDup_cons in Hnd as [Hy Hnd]. simpl in Hrun.
  destruct (ht_add_miss st y Hinv) as (st1 & Hadd & Hinv1 & Hn1 & _ & _ & _ & Hs1 & Ho);
    [apply Hnew; left|].
  rewrite Hadd in Hrun. simpl in Hrun.
  destruct (st_add_all cs st1 rest) as [[ps2 st2]|] eqn:Hrest; simpl in Hrun; [|done].
  simplify_eq. destruct i as [|i]; simpl in Hi.
  - simplify_eq. rewrite (ht_run_other rest st1 ps2 st' x Hinv1 Hrest Hy), Hs1.
    f_equal. lia.
  - rewrite (IH st1 ps2 st' Hinv1 Hnd) with (i := i); [f_equal; lia| |done..].
    intros z Hz. rewrite Ho; [apply Hnew; by right|]. by intros ->.
Qed.

(** Sizes and capacities along a run of new, pairwise distinct names. *)
Lemma ht_trace_distinct names : ∀ st,
  ht_inv cs st → NoDup names →
  (∀ x, x ∈ names → st_search cs st x = Some NotFound) →
  ∃ tr, st_add_trace cs st names = Some tr ∧
        tr.*1 = seqZ (next_position st) (Z.of_nat (length names)) ∧
        (λ t, (size t.2, capacity t.2)) <$> tr
          = growth (length names) (size st) (capacity st).
Proof.
  induction names as [|y rest IH]; intros st Hinv Hnd Hnew; simpl.
  - by exists [].
  - apply NoDup_cons in Hnd as [Hy Hnd].
    destruct (ht_add_miss st y Hinv) as (st1 & -> & Hinv1 & Hn1 & Hsz1 & Hc1 & _ & _ & Ho);
      [apply Hnew; left|].
    simpl. destruct (IH st1 Hinv1 Hnd) as (tr & -> & Hps & Hgr).
    { intros z Hz. rewrite Ho; [apply Hnew; by right|]. by intros ->. }
    simpl. eexists. split; [done|]. rewrite !fmap_cons. cbn [fst snd]. split.
    + rewrite Hps, Hn1.
      replace (Z.of_nat (S (length rest))) with (Z.succ (Z.of_nat (length rest))) by lia.
      rewrite (seqZ_cons (next_position st)) by lia. f_equal. f_equal; lia.
    + rewrite Hgr, Hsz1, Hc1. done.
Qed.

(** The trace ends in the table that [st_add_all] returns. *)
Lemma ht_trace_run names : ∀ st tr,
  st_add_trace cs st names = Some tr →
  st_add_all cs st names = Some (tr.*1, default st (snd <$> last tr)).
Proof.
  induction names as [|y rest IH]; intros st tr Htr; simpl in *; [by simplify_eq|].
  destruct (st_add cs st y) as [[p st1]|]; simpl in *; [|done].
  destruct (st_add_trace cs st1 rest) as [tr2|] eqn:Htr2; simpl in *; [|done].
  simplify_eq. rewrite (IH st1 tr2 Htr2). simpl. f_equal. f_equal.
  rewrite last_cons. by destruct (last tr2).
Qed.

(** *** Bounds: what a well-formed table alone guarantees *)

Lemma st_resize_wf st :
  ht_wf st → ∃ st', st_resize cs st = Some st' ∧ ht_wf st' ∧
                    capacity st' = capacity st * 2.
Proof.
  intros [Hc Hl]. unfold st_resize.
  match goal with |- context [rehash_buckets cs _ _ _ ?s] => set (st0 := s) end.
  assert (ht_wf st0) as Hwf0.
  { split; simpl; [lia|]. by rewrite length_replicate. }
  destruct (rehash_buckets_spec (buckets st) (Z.to_nat (capacity st)) O st0 Hwf0)
    as (st' & Hr & Hwf' & Hc' & _); [lia|].
  by exists st'.
Qed.

(** Whatever a well-formed table holds, [st_add] returns, and a search of
    the name just added returns the position that [st_add] returned. *)
Lemma ht_round_trip st x :
  ht_wf st →
  ∃ p st', st_add cs st x = Some (p, st') ∧ ht_wf st' ∧
           st_search cs st' x = Some p.
Proof.
  intros Hwf. destruct (st_search_defined st x Hwf) as [q Hq].
  unfold st_add. rewrite Hq. simpl.
  destruct (Z.eqb_spec q (-1)) as [->|Hne]; simpl; [|by exists q, st].
  assert (∃ st1, (if load_factor_exceeded st then st_resize cs st else Some st)
                 = Some st1 ∧ ht_wf st1) as (st1 & -> & Hwf1).
  { destruct (load_factor_exceeded st); [|by exists st].
    destruct (st_resize_wf st Hwf) as (st1 & ? & ? & _). by exists st1. }
  simpl. destruct (bucket_defined st1 x Hwf1) as [head Hh]. rewrite Hh. simpl.
  eexists _, _. split; [done|]. destruct Hwf1 as [Hc Hl]. split.
  - split; simpl; [done|]. by rewrite length_insert.
  - unfold st_search. simpl. rewrite list_lookup_insert_eq.
    + simpl. by rewrite strcmp_refl.
    + by apply lookup_lt_Some in Hh.
Qed.

(** *** The hash function *)

Lemma hash_step hash c :
  ulong (ulong (ulong (Z.shiftl hash 5) + hash) + c) = (hash * 33 + c) mod 2 ^ 64.
Proof.
  unfold ulong. rewrite Z.shiftl_mul_pow2 by lia.
  rewrite Zplus_mod_idemp_l, <- Z.add_assoc, Zplus_mod_idemp_l. f_equal. lia.
Qed.

Lemma hash_loop_djb2 str : ∀ hash,
  hash_loop cs str hash = djb2_from (char_to_int cs) hash str.
Proof.
  induction str as [|c str IH]; intros hash; simpl; [done|].
  by rewrite hash_step, IH.
Qed.

Lemma char_to_int_seven_bit c : uchar c < 128 → char_to_int cs c = uchar c.
Proof.
  intros H. unfold char_to_int.
  destruct (Z.leb_spec 128 (uchar c)); [lia|]. by rewrite andb_false_r.
Qed.

Lemma djb2_seven_bit str : ∀ hash,
  seven_bit str → djb2_from (char_to_int cs) hash str = djb2_from uchar hash str.
Proof.
  induction str as [|c str IH]; intros hash; simpl; [done|].
  intros [Hc Hs]. by rewrite char_to_int_seven_bit, IH.
Qed.

(** Every table that the operations build satisfies the invariant. *)
Lemma ht_inv_reachable names ps st :
  st_add_all cs st_create names = Some (ps, st) → ht_inv cs st.
Proof.
  intros Hrun.
  destruct (ht_run_defined names st_create ht_inv_create) as (ps' & st' & Hrun' & Hinv).
  by simplify_eq.
Qed.

(** *** The load factor along a run

    Up to the capacity [10 * 2^22] the single-precision check agrees with
    the exact comparison, except at the last threshold. *)

Lemma threshold_spec c : 4 * threshold c ≤ 3 * c < 4 * threshold c + 4.
Proof.
  unfold threshold. pose proof (Z.div_mod (3 * c) 4 ltac:(lia)).
  pose proof (Z.mod_pos_bound (3 * c) 4 ltac:(lia)). lia.
Qed.

Lemma capacity_at_succ k : capacity_at (S k) = capacity_at k * 2.
Proof. unfold capacity_at. rewrite Nat2Z.inj_succ, Z.pow_succ_r by lia. lia. Qed.

Lemma capacity_at_pos k : 10 ≤ capacity_at k.
Proof.
  unfold capacity_at, INITIAL_TABLE_SIZE.
  assert (0 < 2 ^ Z.of_nat k) by (apply Z.pow_pos_nonneg; lia). lia.
Qed.

Lemma capacity_at_mono j k : (j ≤ k)%nat → capacity_at j ≤ capacity_at k.
Proof.
  intros Hjk. unfold capacity_at, INITIAL_TABLE_SIZE.
  assert (2 ^ Z.of_nat j ≤ 2 ^ Z.of_nat k) by (apply Z.pow_le_mono_r; lia). lia.
Qed.

Lemma exceeded_below_threshold k s :
  (k ≤ 22)%nat → 0 ≤ s → s < threshold (capacity_at k) →
  exceeded s (capacity_at k) = false.
Proof.
  intros Hk Hs Hlt. apply exceeded_below; [done..|].
  pose proof (threshold_spec (capacity_at k)) as Ht.
  unfold capacity_at, INITIAL_TABLE_SIZE in *. lia.
Qed.

Lemma exceeded_above_threshold k :
  (k ≤ 21)%nat → exceeded (threshold (capacity_at k)) (capacity_at k) = true.
Proof. apply exceeded_at_threshold. Qed.

Lemma threshold_22 : threshold (capacity_at 22) = 31457280.
Proof. reflexivity. Qed.

Lemma capacity_22 : capacity_at 22 = 41943040.
Proof. reflexivity. Qed.

(** [st_add] keeps a table in its phase or moves it to the next one, as
    long as the size is below the threshold of the capacity [10 * 2^22]. *)
Lemma in_phase_add st x p st' k :
  ht_inv cs st → (k ≤ 22)%nat → in_phase k st →
  size st < threshold (capacity_at 22) →
  st_add cs st x = Some (p, st') →
  ∃ k', (k' ≤ 22)%nat ∧ in_phase k' st'.
Proof.
  intros Hinv Hk (Hc & Hs & Hprev) Hlt Hadd.
  pose proof (inv_size _ _ Hinv) as Hsz.
  pose proof (threshold_spec (capacity_at k)) as Ht.
  destruct (ht_add_capacity st x p st' Hinv Hadd) as [(Hs' & Hc' & _)|(Hs' & Hc' & _)].
  - exists k. split; [done|]. unfold in_phase. by rewrite Hs', Hc'.
  - rewrite Hc in Hc'.
    destruct (Z_lt_le_dec (size st) (threshold (capacity_at k))) as [Hbelow|Hat].
    + rewrite (exceeded_below_threshold k) in Hc'; [|done|lia|done].
      exists k. split; [done|]. unfold in_phase. rewrite Hs', Hc'.
      split; [done|]. split; [lia|]. intros Hk0. specialize (Hprev Hk0). lia.
    + assert (size st = threshold (capacity_at k)) as Heq by lia.
      assert (k ≠ 22%nat) as Hk22 by (intros ->; lia).
      rewrite Heq in Hc'. rewrite (exceeded_above_threshold k) in Hc' by lia.
      exists (S k). split; [lia|]. unfold in_phase.
      rewrite Hs', Hc', capacity_at_succ.
      pose proof (threshold_spec (capacity_at k * 2)) as Ht2.
      pose proof (capacity_at_pos k) as Hpos.
      split; [done|]. split; [lia|]. intros _.
      replace (S k - 1)%nat with k by lia. lia.
Qed.

Lemma in_phase_run names : ∀ st ps st' k,
  ht_inv cs st → (k ≤ 22)%nat → in_phase k st →
  size st + Z.of_nat (length names) ≤ threshold (capacity_at 22) →
  st_add_all cs st names = Some (ps, st') →
  ∃ k', (k' ≤ 22)%nat ∧ in_phase k' st' ∧
        size st' ≤ size st + Z.of_nat (length names).
Proof.
  induction names as [|x rest IH]; intros st ps st' k Hinv Hk Hph Hlen Hrun;
    simpl in Hrun.
  - simplify_eq. exists k. simpl. split; [done|]. split; [done|lia].
  - destruct (ht_add_spec st x Hinv) as (p & st1 & Hadd & Hinv1 & _).
    rewrite Hadd in Hrun. simpl in Hrun.
    destruct (st_add_all cs st1 rest) as [[ps2 st2]|] eqn:Hrest; simpl in Hrun; [|done].
    simplify_eq. simpl length in Hlen.
    destruct (in_phase_add st x p st1 k Hinv Hk Hph ltac:(lia) Hadd) as (k1 & Hk1 & Hph1).
    assert (size st1 ≤ size st + 1) as Hs1.
    { destruct (ht_add_capacity st x p st1 Hinv Hadd) as [(-> & _)|(-> & _)]; lia. }
    destruct (IH st1 ps2 st' k1 Hinv1 Hk1 Hph1 ltac:(lia) Hrest) as (k' & Hk' & Hph' & Hs').
    exists k'. split; [done|]. split; [done|]. simpl length. lia.
Qed.

Lemma in_phase_create : in_phase 0 st_create.
Proof. split; [done|]. split; [done|]. done. Qed.

(** A table in a phase satisfies the load-factor bound, within [int]. *)
Lemma in_phase_load_factor k st :
  (k ≤ 22)%nat → in_phase k st →
  4 * size st ≤ 3 * capacity st ∧ capacity st ≤ 41943040.
Proof.
  intros Hk (Hc & Hs & _). pose proof (threshold_spec (capacity_at k)).
  pose proof (capacity_at_mono k 22 Hk). rewrite capacity_22 in *. rewrite Hc. lia.
Qed.

(** For every sequence of at most 31457280 calls of [st_add] on a fresh
    table the load factor ends at most 0.75; the size, the position
    counter and the capacity stay far below 2^31, so that no [int]
    overflows in such a run. *)
Lemma load_factor_bounded_run names :
  Z.of_nat (length names) ≤ 31457280 →
  ∃ ps st, st_add_all cs st_create names = Some (ps, st) ∧
           4 * size st ≤ 3 * capacity st ∧
           capacity st ≤ 41943040 ∧ size st ≤ 31457280 ∧
           next_position st = size st.
Proof.
  intros Hlen.
  destruct (ht_run_defined names st_create ht_inv_create) as (ps & st & Hrun & Hinv).
  exists ps, st. split; [done|].
  pose proof (ht_next_position_run names ps st Hrun) as Hnext.
  destruct (in_phase_run names st_create ps st 0 ht_inv_create ltac:(lia)
              in_phase_create) as (k & Hk & Hph & Hs); [|done|].
  { rewrite threshold_22. simpl size. lia. }
  destruct (in_phase_load_factor k st Hk Hph) as [? ?]. simpl size in Hs.
  split; [done|]. split; [done|]. split; [lia|done].
Qed.

Lemma ht_add_all_snoc names x : ∀ st ps st1 p st2,
  st_add_all cs st names = Some (ps, st1) → st_add cs st1 x = Some (p, st2) →
  st_add_all cs st (names ++ [x]) = Some (ps ++ [p], st2).
Proof.
  induction names as [|y names IH]; intros st ps st1 p st2 Hrun Hadd; simpl in *.
  - simplify_eq. by rewrite Hadd.
  - destruct (st_add cs st y) as [[p0 st0]|]; simpl in *; [|done].
    destruct (st_add_all cs st0 names) as [[ps' st']|] eqn:Hr; simpl in *; [|done].
    simplify_eq. by rewrite (IH st0 ps' st1 p st2 Hr Hadd).
Qed.

(** The state after 31457280 pairwise distinct names, and after one more. *)
Lemma load_factor_exceeded_run names :
  NoDup names → Z.of_nat (length names) = 31457281 →
  ∃ ps st, st_add_all cs st_create names = Some (ps, st) ∧
           size st = 31457281 ∧ capacity st = 41943040.
Proof.
  intros Hnd Hlen.
  destruct names as [|x init _] using rev_ind; [simpl in Hlen; lia|].
  rewrite length_app in Hlen. simpl in Hlen.
  apply NoDup_app in Hnd as (Hnd & Hx & _).
  destruct (ht_run_distinct init st_create ht_inv_create Hnd) as (st1 & Hrun1 & Hinv1 & _ & Hs1).
  { intros y _. apply st_search_create. }
  simpl size in Hs1.
  destruct (in_phase_run init st_create _ st1 0 ht_inv_create ltac:(lia)
              in_phase_create ltac:(rewrite threshold_22; simpl size; lia) Hrun1)
    as (k & Hk & (Hc & Hs & Hprev) & _).
  assert (k = 22%nat) as ->.
  { destruct (decide (k = 22%nat)) as [|Hne]; [done|].
    pose proof (threshold_spec (capacity_at k)).
    pose proof (capacity_at_mono k 21 ltac:(lia)) as Hm.
    change (capacity_at 21) with 20971520 in Hm. lia. }
  rewrite capacity_22 in Hc.
  destruct (ht_add_miss st1 x Hinv1) as (st2 & Hadd & _ & _ & Hs2 & Hc2 & _).
  { rewrite (ht_run_other init st_create _ st1 x ht_inv_create Hrun1).
    - apply st_search_create.
    - intros Hin. apply (Hx x); [done|left]. }
  assert (size st1 = 31457280) as Hsz by lia.
  rewrite Hsz, Hc in Hc2.
  assert (exceeded 31457280 41943040 = false) as Hex by (vm_compute; reflexivity).
  rewrite Hex in Hc2.
  eexists _, st2. split; [exact (ht_add_all_snoc init x _ _ st1 _ st2 Hrun1 Hadd)|lia].
Qed.

Lemma numbered_names_distinct n : NoDup (numbered_names n).
Proof. unfold numbered_names. apply NoDup_fmap_2; [apply _|apply NoDup_seq]. Qed.

Lemma numbered_names_length n : length (numbered_names n) = n.
Proof. unfold numbered_names. by rewrite length_fmap, length_seq. Qed.

End HTFacts.

(** *** The contents of the hash table *)

Section HTContents.

Import HT.
Variable cs : bool.

(** The hash table backend refines the reference table. *)
Lemma ht_run_first_seen names :
  ∃ st, st_add_all cs st_create names
          = Some (ref_search (first_seen names) <$> names, st) ∧
        ht_inv cs st ∧
        next_position st = Z.of_nat (length (first_seen names)) ∧
        size st = Z.of_nat (length (first_seen names)) ∧
        ∀ x, st_search cs st x = Some (ref_search (first_seen names) x).
Proof.
  rewrite ht_add_all_run.
  destruct (contract_run_first_seen (ht_inv cs) (st_add cs) (st_search cs)
              next_position size (ht_contract_hit cs) (ht_contract_miss cs)
              names st_create [] (ht_inv_create cs) eq_refl)
    as (st & Hrun & Hinv & Hn & Hc & Hs).
  { intros x. apply st_search_create. }
  exists st. split_and!; [done..| |done].
  rewrite Hc. unfold first_seen. simpl. lia.
Qed.

Lemma ht_run_found names st ps st' x p :
  ht_inv cs st → st_search cs st x = Some p → p ≠ NotFound →
  st_add_all cs st names = Some (ps, st') → st_search cs st' x = Some p.
Proof.
  rewrite ht_add_all_run.
  apply (contract_run_found (ht_inv cs) (st_add cs) (st_search cs) next_position size
           (inv_next cs) (ht_contract_search cs) (ht_contract_hit cs)
           (ht_contract_miss cs)).
Qed.

Lemma search_chain_found l x :
  search_chain l x ≠ NotFound →
  ∃ e, e ∈ l ∧ name e = x ∧ position e = search_chain l x.
Proof.
  induction l as [|e l IH]; simpl; [done|].
  destruct (Z.eqb_spec (strcmp (name e) x) 0) as [E|E].
  - intros _. exists e. split; [left|]. by apply strcmp_eq in E.
  - intros H. destruct (IH H) as (e' & ? & ? & ?). exists e'. split; [by right|done].
Qed.

(** The entries of a table are the names that a search finds, with their
    positions. *)
Lemma elem_of_entries_search st x p :
  ht_inv cs st →
  (∃ e, e ∈ entries st ∧ name e = x ∧ position e = p)
  ↔ st_search cs st x = Some p ∧ p ≠ NotFound.
Proof.
  intros Hinv. rewrite st_search_entries by done. split.
  - intros (e & He & <- & <-).
    rewrite search_chain_present; [|apply Hinv|done]. split; [done|].
    apply (inv_positions _ _ Hinv) in He. unfold NotFound. lia.
  - intros [[= <-] Hne]. by apply search_chain_found.
Qed.



(** *** The hash on signed and on unsigned characters *)

Lemma djb2_from_ext (f g : ascii → Z) str : ∀ hash,
  (∀ c, f c = g c) → djb2_from f hash str = djb2_from g hash str.
Proof.
  induction str as [|c str IH]; intros hash Hfg; simpl; [done|].
  rewrite Hfg. by apply IH.
Qed.

Lemma char_to_int_value c :
  char_to_int cs c = (if cs then signed_byte else uchar) c.
Proof. by destruct cs. Qed.

(** *** Displaying the table *)

Lemma display_chain_elem_of chain i x p j :
  (x, p, j) ∈ display_chain chain i
  ↔ j = i ∧ ∃ e, e ∈ chain ∧ name e = x ∧ position e = p.
Proof.
  induction chain as [|e chain IH]; simpl.
  - rewrite elem_of_nil. split; [done|]. intros (_ & e & He & _).
    by apply elem_of_nil in He.
  - rewrite elem_of_cons, IH. split.
    + intros [[= -> -> ->]|(-> & e' & He' & <- & <-)].
      * split; [done|]. exists e. split; [left|done].
      * split; [done|]. exists e'. split; [by right|done].
    + intros (-> & e' & [->|He']%elem_of_cons & <- & <-); [by left|].
      right. split; [done|]. by exists e'.
Qed.

Lemma display_chain_length chain i : length (display_chain chain i) = length chain.
Proof. induction chain as [|e chain IH]; simpl; [done|]. by rewrite IH. Qed.

Lemma display_buckets_spec bs n : ∀ i,
  (i + n ≤ length bs)%nat →
  ∃ rows, display_buckets bs i n = Some rows ∧
          length rows = length (concat (take n (drop i bs))) ∧
          ∀ x p j, (x, p, j) ∈ rows
                   ↔ ∃ k chain e, (i ≤ k < i + n)%nat ∧ j = Z.of_nat k ∧
                                  bs !! k = Some chain ∧ e ∈ chain ∧
                                  name e = x ∧ position e = p.
Proof.
  induction n as [|n IH]; intros i Hlen; simpl.
  - exists []. split_and!; [done..|]. intros x p j. rewrite elem_of_nil.
    split; [done|]. intros (k & _ & _ & ? & _). lia.
  - destruct (lookup_lt_is_Some_2 bs i) as [chain Hi]; [lia|].
    rewrite Hi. simpl. rewrite (drop_S _ _ _ Hi). simpl.
    destruct (IH (S i)) as (rows & -> & Hl & Hrows); [lia|]. simpl.
    eexists. split_and!; [done| |].
    + by rewrite !length_app, display_chain_length, Hl.
    + intros x p j. rewrite elem_of_app, display_chain_elem_of, Hrows. split.
      * intros [(-> & e & He & <- & <-)|(k & chain' & e & Hk & -> & Hc & He & <- & <-)].
        -- exists i, chain, e. split_and!; [lia|lia|done..].
        -- exists k, chain', e. split_and!; [lia|lia|done..].
      * intros (k & chain' & e & Hk & -> & Hc & He & <- & <-).
        destruct (decide (k = i)) as [->|Hne].
        -- left. split; [done|]. simplify_eq. by exists e.
        -- right. exists k, chain', e. split_and!; [lia|lia|done..].
Qed.

(** [st_display] returns on every table that satisfies the invariant; it
    prints one row per entry, and the rows are the names that a search
    finds, each with its position and the bucket of its hash. *)
Lemma ht_display_spec st :
  ht_inv cs st →
  ∃ d, st_display st = Some d ∧
       display_size d = size st ∧ display_capacity d = capacity st ∧
       Z.of_nat (length (display_rows d)) = size st ∧
       ∀ x p j, (x, p, j) ∈ display_rows d
                ↔ st_search cs st x = Some p ∧ p ≠ NotFound ∧
                  j = hash_function cs x (capacity st).
Proof.
  intros Hinv. pose proof (inv_wf _ _ Hinv) as [Hc Hl]. unfold st_display.
  destruct (display_buckets_spec (buckets st) (Z.to_nat (capacity st)) 0)
    as (rows & -> & Hlen & Hrows); [lia|].
  simpl. eexists. split; [done|]. simpl. split_and!; [done..| |].
  - rewrite Hlen, drop_0, take_ge by lia. symmetry. apply Hinv.
  - intros x p j. rewrite Hrows.
    transitivity ((∃ e, e ∈ entries st ∧ name e = x ∧ position e = p) ∧
                  j = hash_function cs x (capacity st));
      [|rewrite elem_of_entries_search by done; tauto].
    split.
    + intros (k & chain & e & Hk & -> & Hb & He & <- & <-). split.
      * exists e. split; [|done]. apply elem_of_entries. eauto.
      * rewrite <- (inv_placed _ _ Hinv k chain e Hb He).
        pose proof (hash_function_range cs (name e) _ Hc). lia.
    + intros [(e & He & <- & <-) ->].
      apply elem_of_entries in He as (k & chain & Hb & He).
      exists k, chain, e. pose proof (lookup_lt_Some _ _ _ Hb) as Hk.
      split_and!; [lia|lia| |done..].
      rewrite <- (inv_placed _ _ Hinv k chain e Hb He).
      pose proof (hash_function_range cs (name e) _ Hc). lia.
Qed.

Lemma structure_chain_elem_of chain x p :
  (x, p) ∈ structure_chain chain ↔ ∃ e, e ∈ chain ∧ name e = x ∧ position e = p.
Proof.
  induction chain as [|e chain IH]; simpl.
  - rewrite elem_of_nil. split; [done|]. intros (e & He & _).
    by apply elem_of_nil in He.
  - rewrite elem_of_cons, IH. split.
    + intros [[= -> ->]|(e' & He' & <- & <-)].
      * exists e. split; [left|done].
      * exists e'. split; [by right|done].
    + intros (e' & [->|He']%elem_of_cons & <- & <-); [by left|].
      right. by exists e'.
Qed.

Lemma structure_buckets_spec bs n : ∀ i,
  (i + n ≤ length bs)%nat →
  ∃ lines, structure_buckets bs i n = Some lines ∧ length lines = n ∧
           ∀ k line, lines !! k = Some line →
             ∃ chain, bs !! (i + k)%nat = Some chain ∧
                      line.1 = Z.of_nat (i + k) ∧
                      (line.2 = LineEmpty ↔ chain = []) ∧
                      ∀ x p, (x, p) ∈ line_items line.2
                             ↔ ∃ e, e ∈ chain ∧ name e = x ∧ position e = p.
Proof.
  induction n as [|n IH]; intros i Hlen; simpl.
  - exists []. split_and!; [done..|]. by intros k line Hk.
  - destruct (lookup_lt_is_Some_2 bs i) as [chain Hi]; [lia|].
    rewrite Hi. simpl.
    destruct (IH (S i)) as (lines & -> & Hl & Hlines); [lia|]. simpl.
    eexists. split_and!; [done|by rewrite <- Hl|].
    intros [|k] line Hk; simpl in Hk.
    + injection Hk as <-. exists chain. rewrite Nat.add_0_r. simpl.
      split_and!; [done..| |].
      * by destruct chain.
      * intros x p. rewrite <- structure_chain_elem_of. by destruct chain.
    + destruct (Hlines k line Hk) as (chain' & Hc & ?).
      exists chain'. by replace (i + S k)%nat with (S i + k)%nat by lia.
Qed.

(** [st_display_structure] returns on every table that satisfies the
    invariant; it prints one line per bucket, and the line of bucket [i]
    holds the names of hash [i] that a search finds, with their positions. *)
Lemma ht_display_structure_spec st :
  ht_inv cs st →
  ∃ lines, st_display_structure st = Some (capacity st, size st, lines) ∧
           Z.of_nat (length lines) = capacity st ∧
           ∀ i line, lines !! i = Some line →
             line.1 = Z.of_nat i ∧
             (line.2 = LineEmpty ↔ line_items line.2 = []) ∧
             ∀ x p, (x, p) ∈ line_items line.2
                    ↔ st_search cs st x = Some p ∧ p ≠ NotFound ∧
                      hash_function cs x (capacity st) = Z.of_nat i.
Proof.
  intros Hinv. pose proof (inv_wf _ _ Hinv) as [Hc Hl]. unfold st_display_structure.
  destruct (structure_buckets_spec (buckets st) (Z.to_nat (capacity st)) 0)
    as (lines & -> & Hlen & Hlines); [lia|].
  simpl. exists lines. split_and!; [done|lia|].
  intros i line Hi. destruct (Hlines i line Hi) as (chain & Hb & H1 & HE & Hitems).
  simpl in Hb, H1. split_and!; [done| |].
  - rewrite HE. split; [intros ->|].
    + apply elem_of_nil_inv. intros [x p] [e [He _]]%Hitems.
      by apply elem_of_nil in He.
    + intros Hnil. apply elem_of_nil_inv. intros e He.
      assert ((name e, position e) ∈ line_items line.2) as Hin
        by (apply Hitems; by exists e).
      rewrite Hnil in Hin. by apply elem_of_nil in Hin.
  - intros x p. rewrite Hitems.
    transitivity ((∃ e, e ∈ entries st ∧ name e = x ∧ position e = p) ∧
                  hash_function cs x (capacity st) = Z.of_nat i);
      [|rewrite elem_of_entries_search by done; tauto].
    split.
    + intros (e & He & <- & <-). split.
      * exists e. split; [|done]. apply elem_of_entries. eauto.
      * rewrite <- (inv_placed _ _ Hinv i chain e Hb He).
        pose proof (hash_function_range cs (name e) _ Hc). lia.
    + intros [(e & He & <- & <-) Hh]. exists e. split; [|done].
      apply elem_of_entries in He as (k & chain' & Hb' & He).
      pose proof (inv_placed _ _ Hinv k chain' e Hb' He) as Hk.
      rewrite Hh, Nat2Z.id in Hk. by simplify_eq.
Qed.

(** *** The order of the chains after a resize *)

Lemma rehash_chain_order chain : ∀ st st',
  rehash_chain cs chain st = Some st' →
  capacity st' = capacity st ∧ length (buckets st') = length (buckets st) ∧
  ∀ j old, buckets st !! j = Some old →
    buckets st' !! j
    = Some (rev (filter (λ e, Z.to_nat (hash_function cs (name e) (capacity st)) = j)
                        chain) ++ old).
Proof.
  induction chain as [|e next IH]; intros st st' Hr; simpl in Hr.
  - by simplify_eq.
  - destruct (buckets st !! Z.to_nat (hash_function cs (name e) (capacity st)))
      as [head|] eqn:Hh; simpl in Hr; [|done].
    apply IH in Hr as (Hc & Hl & Hr). simpl in Hc, Hl, Hr.
    rewrite length_insert in Hl. split_and!; [done..|].
    intros j old Hj.
    destruct (decide (Z.to_nat (hash_function cs (name e) (capacity st)) = j)) as [E|E].
    + rewrite filter_cons_True by done. simpl. rewrite <- app_assoc. simpl.
      apply Hr. subst j. rewrite list_lookup_insert_eq; [by simplify_eq|].
      by apply lookup_lt_Some in Hh.
    + rewrite filter_cons_False by done. apply Hr.
      by rewrite list_lookup_insert_ne.
Qed.

Lemma rehash_buckets_order old n : ∀ i st st',
  rehash_buckets cs old i n st = Some st' →
  capacity st' = capacity st ∧ length (buckets st') = length (buckets st) ∧
  ∀ j oldj, buckets st !! j = Some oldj →
    buckets st' !! j
    = Some (rev (filter (λ e, Z.to_nat (hash_function cs (name e) (capacity st)) = j)
                        (concat (take n (drop i old)))) ++ oldj).
Proof.
  induction n as [|n IH]; intros i st st' Hr; simpl in Hr.
  - by simplify_eq.
  - destruct (old !! i) as [chain|] eqn:Hi; simpl in Hr; [|done].
    destruct (rehash_chain cs chain st) as [st1|] eqn:H1; simpl in Hr; [|done].
    apply rehash_chain_order in H1 as (Hc1 & Hl1 & H1).
    apply IH in Hr as (Hc & Hl & Hr).
    split_and!; [congruence..|]. intros j oldj Hj.
    rewrite (drop_S _ _ _ Hi). simpl. rewrite filter_app, rev_app_distr, <- app_assoc.
    rewrite <- Hc1. apply Hr. rewrite Hc1. by apply H1.
Qed.

(** After a resize every bucket holds the entries of its hash, in the
    reverse of the order in which the old table listed them. *)
Lemma st_resize_order st :
  ht_wf st →
  ∃ st', st_resize cs st = Some st' ∧ capacity st' = capacity st * 2 ∧
         ∀ j, (j < Z.to_nat (capacity st * 2))%nat →
           buckets st' !! j
           = Some (rev (filter
                          (λ e, Z.to_nat (hash_function cs (name e) (capacity st * 2)) = j)
                          (entries st))).
Proof.
  intros Hwf. destruct (st_resize_wf cs st Hwf) as (st' & Hr & _ & Hc).
  exists st'. split_and!; [done..|]. intros j Hj. pose proof Hwf as [Hcap Hlen].
  unfold st_resize in Hr. apply rehash_buckets_order in Hr as (_ & _ & Hr).
  simpl in Hr. rewrite (Hr j []).
  - by rewrite drop_0, take_ge, app_nil_r by lia.
  - by apply lookup_replicate_2.
Qed.

(** Doubling the capacity sends a name to its old bucket or to the
    bucket [capacity] further. *)
Lemma hash_function_double str capacity0 :
  0 < capacity0 →
  hash_function cs str (capacity0 * 2) = hash_function cs str capacity0 ∨
  hash_function cs str (capacity0 * 2) = hash_function cs str capacity0 + capacity0.
Proof.
  intros Hc. unfold hash_function. rewrite Z.rem_mul_r by lia.
  pose proof (Z.mod_pos_bound (hash_loop cs str 5381 / capacity0) 2 ltac:(lia)).
  assert ((hash_loop cs str 5381 / capacity0) mod 2 = 0 ∨
          (hash_loop cs str 5381 / capacity0) mod 2 = 1) as [->| ->] by lia; lia.
Qed.

(** *** The positions stored *)

Lemma ht_run_positions names ps st :
  st_add_all cs st_create names = Some (ps, st) →
  position <$> entries st ≡ₚ seqZ 0 (size st).
Proof.
  intros Hrun. rewrite <- (ht_next_position_run cs names ps st Hrun).
  revert Hrun.
  apply (ht_run_invariant cs
           (λ st, position <$> entries st ≡ₚ seqZ 0 (next_position st)));
    [|apply ht_inv_create|done].
  intros st0 x p st1 Hinv0 HJ Hadd.
  destruct (ht_contract_search cs st0 x Hinv0) as [q Hq].
  destruct (decide (q = NotFound)) as [->|Hne].
  - destruct (ht_add_miss cs st0 x Hinv0 Hq) as (st1' & Hadd1 & _ & Hn & _ & _ & He & _).
    simplify_eq. rewrite He, Hn, fmap_cons, HJ. simpl.
    pose proof (inv_next _ _ Hinv0).
    rewrite seqZ_app by lia.
    replace (seqZ (0 + next_position st0) 1) with [next_position st0]
      by (cbn; f_equal; lia).
    by rewrite Permutation_cons_append.
  - rewrite (ht_add_hit cs st0 x q Hq Hne) in Hadd. by simplify_eq.
Qed.

(** *** The capacity as a function of the size *)

Lemma in_phase_add_size st x p st' k :
  ht_inv cs st → (k ≤ 22)%nat → in_phase k st →
  size st' ≤ threshold (capacity_at 22) →
  st_add cs st x = Some (p, st') →
  ∃ k', (k' ≤ 22)%nat ∧ in_phase k' st'.
Proof.
  intros Hinv Hk Hph Hle Hadd.
  destruct (ht_add_capacity cs st x p st' Hinv Hadd) as [(Hs' & Hc' & _)|(Hs' & _)].
  - exists k. split; [done|]. unfold in_phase in *. by rewrite Hs', Hc'.
  - apply (in_phase_add cs st x p st' k); [done..|lia|done].
Qed.

Lemma in_phase_run_size names : ∀ st ps st' k,
  ht_inv cs st → (k ≤ 22)%nat → in_phase k st →
  size st' ≤ threshold (capacity_at 22) →
  st_add_all cs st names = Some (ps, st') →
  ∃ k', (k' ≤ 22)%nat ∧ in_phase k' st'.
Proof.
  induction names as [|x rest IH]; intros st ps st' k Hinv Hk Hph Hle Hrun;
    simpl in Hrun.
  - simplify_eq. by exists k.
  - destruct (ht_add_spec cs st x Hinv) as (p & st1 & Hadd & Hinv1 & _).
    rewrite Hadd in Hrun. simpl in Hrun.
    destruct (st_add_all cs st1 rest) as [[ps2 st2]|] eqn:Hrest; simpl in Hrun; [|done].
    simplify_eq.
    pose proof (ht_run_count cs rest st1 ps2 st' Hinv1 Hrest) as [Hmono _].
    destruct (in_phase_add_size st x p st1 k Hinv Hk Hph ltac:(lia) Hadd)
      as (k1 & Hk1 & Hph1).
    by apply (IH st1 ps2 st' k1).
Qed.

(** *** The range of [int] *)






(** In a phase the single-precision check of [st_add] decides the exact
    inequality [(size + 1) / capacity > 3 / 4]. *)
Lemma in_phase_exceeded k st :
  (k ≤ 22)%nat → in_phase k st → 0 ≤ size st →
  size st < threshold (capacity_at 22) →
  load_factor_exceeded st
  = bool_decide (3 * capacity st < 4 * (size st + 1)).
Proof.
  intros Hk (Hc & Hs & _) H0 Hlt. rewrite load_factor_exceeded_eq, Hc.
  pose proof (threshold_spec (capacity_at k)) as Ht.
  destruct (Z_lt_le_dec (size st) (threshold (capacity_at k))) as [Hbelow|Hat].
  - rewrite (exceeded_below_threshold k) by done.
    symmetry. apply bool_decide_eq_false. lia.
  - assert (size st = threshold (capacity_at k)) as -> by lia.
    assert (k ≠ 22%nat) as Hk22 by (intros ->; lia).
    rewrite (exceeded_above_threshold k) by lia.
    symmetry. apply bool_decide_eq_true. lia.
Qed.

End HTContents.

(** ** The release of the tables *)

Section Release.

Import Mem.

#[local] Set Warnings "-clear-no-such-hyp".

Lemma released_empty h : released ∅ h h.
Proof. intros a. by rewrite decide_False by set_solver. Qed.

Lemma released_trans f1 f2 h h1 h2 :
  released f1 h h1 → released f2 h1 h2 → released (f1 ∪ f2) h h2.
Proof.
  intros H1 H2 a. rewrite H2, H1.
  destruct (decide (a ∈ f2)) as [Hf2|Hf2], (decide (a ∈ f1)) as [Hf1|Hf1].
  - rewrite decide_True; [done|]. apply elem_of_union. by left.
  - rewrite decide_True; [done|]. apply elem_of_union. by right.
  - rewrite decide_True; [done|]. apply elem_of_union. by left.
  - rewrite decide_False; [done|]. rewrite elem_of_union. tauto.
Qed.

Lemma released_agree fp f h h' :
  released fp h h' → fp ## f → ∀ a, a ∈ f → h' !! a = h !! a.
Proof. intros H Hd a Ha. rewrite H. by rewrite decide_False by set_solver. Qed.

Lemma released_outside fp h h' a :
  released fp h h' → a ∉ fp → h' !! a = h !! a.
Proof. intros H Ha. rewrite H. by rewrite decide_False. Qed.

Lemma free_allocated h a b :
  h !! a = Some b → free (Some a) h = Ok (delete a h).
Proof. intros H. unfold free. by rewrite H. Qed.

(** Releasing a structure and the string it owns. *)
Lemma free_pair h a q b s :
  h !! a = Some b → h !! q = Some s → a ≠ q →
  (h1 ← free (Some q) h; free (Some a) h1) = Ok (delete a (delete q h)) ∧
  released {[a; q]} h (delete a (delete q h)).
Proof.
  intros Ha Hq Hne. split.
  - rewrite (free_allocated h q s Hq). simpl.
    apply (free_allocated _ a b). by rewrite lookup_delete_ne.
  - intros x. destruct (decide (x = a)) as [->|Hxa].
    { rewrite lookup_delete_eq. rewrite decide_True; [done|].
      apply elem_of_union. left. by apply elem_of_singleton. }
    rewrite lookup_delete_ne by done.
    destruct (decide (x = q)) as [->|Hxq].
    { rewrite lookup_delete_eq. rewrite decide_True; [done|].
      apply elem_of_union. right. by apply elem_of_singleton. }
    rewrite lookup_delete_ne by done. rewrite decide_False; [done|].
    rewrite elem_of_union, !elem_of_singleton. tauto.
Qed.

(** *** The tree *)

Lemma tree_at_allocated h p t fp :
  tree_at h p t fp → ∀ a, a ∈ fp → is_Some (h !! a).
Proof.
  induction 1 as [|a q name position pl pr l r fl fr Ha Hq _ IHl _ IHr]; intros x Hx.
  - set_solver.
  - apply elem_of_union in Hx as [[Hx|Hx]%elem_of_union|Hx]; [|by apply IHl|by apply IHr].
    apply elem_of_union in Hx as [->%elem_of_singleton| ->%elem_of_singleton]; eauto.
Qed.

Lemma tree_at_agree h h' p t fp :
  tree_at h p t fp → (∀ a, a ∈ fp → h' !! a = h !! a) → tree_at h' p t fp.
Proof.
  induction 1 as [|a q name position pl pr l r fl fr Ha Hq _ IHl _ IHr];
    intros Hag; [constructor|].
  apply (tree_at_node h' a q name position pl pr); try done.
  - rewrite Hag; [done|set_solver].
  - rewrite Hag; [done|set_solver].
  - apply IHl. intros x Hx. apply Hag. set_solver.
  - apply IHr. intros x Hx. apply Hag. set_solver.
Qed.

(** [free_tree] returns on every tree, given fuel for its height, and
    releases the blocks of the tree and no other. *)
Lemma free_tree_spec t : ∀ fuel h p fp,
  tree_at h p t fp → (height t ≤ fuel)%nat →
  ∃ h', BSTMem.free_tree fuel p h = Ok h' ∧ released fp h h'.
Proof.
  induction t as [|name position l IHl r IHr]; intros fuel h p fp Ht Hfuel;
    inversion Ht as [|a q ? ? pl pr ? ? fl fr Ha Hq Hl Hr Haq Hal Har Hql Hqr Hlr];
    subst.
  - exists h. split; [by destruct fuel|apply released_empty].
  - simpl in Hfuel. destruct fuel as [|fuel]; [lia|]. simpl.
    unfold BSTMem.node_left at 1, load. rewrite Ha. simpl.
    destruct (IHl fuel h pl fl Hl ltac:(lia)) as (h1 & -> & Hrel1). simpl.
    unfold BSTMem.node_right at 1, load.
    rewrite (released_outside fl h h1 a Hrel1 Hal), Ha. simpl.
    destruct (IHr fuel h1 pr fr) as (h2 & -> & Hrel2); [|lia|].
    { apply (tree_at_agree h); [done|]. by apply (released_agree fl). }
    simpl. unfold BSTMem.node_name at 1, load.
    rewrite (released_outside fr h1 h2 a Hrel2 Har),
      (released_outside fl h h1 a Hrel1 Hal), Ha. simpl.
    destruct (free_pair h2 a q (BNode (Some q) position pl pr) (BChars name))
      as (Hfree & Hrel'); [| |done|].
    { by rewrite (released_outside fr h1 h2 a Hrel2 Har),
        (released_outside fl h h1 a Hrel1 Hal). }
    { by rewrite (released_outside fr h1 h2 q Hrel2 Hqr),
        (released_outside fl h h1 q Hrel1 Hql). }
    eexists. split; [exact Hfree|].
    replace ({[a; q]} ∪ fl ∪ fr) with (fl ∪ fr ∪ {[a; q]}) by set_solver.
    apply (released_trans (fl ∪ fr) {[a; q]} h h2); [|done].
    by apply (released_trans fl fr h h1 h2).
Qed.

(** [st_destroy] of the BST backend releases the table. *)
Lemma bst_destroy_spec h a st fp fuel :
  bst_at h a st fp → (height (BST.root st) ≤ fuel)%nat →
  ∃ h', BSTMem.st_destroy fuel (Some a) h = Ok h' ∧ released fp h h'.
Proof.
  intros [p ft Ha Ht Hfresh] Hfuel. unfold BSTMem.st_destroy.
  unfold BSTMem.table_root, load. rewrite Ha. simpl.
  destruct (free_tree_spec _ fuel h p ft Ht Hfuel) as (h1 & -> & Hrel1). simpl.
  rewrite (released_outside ft h h1 a Hrel1 Hfresh), Ha.
  eexists. split; [done|].
  replace ({[a]} ∪ ft) with (ft ∪ {[a]}) by set_solver.
  apply (released_trans _ _ _ h1); [done|].
  intros x. destruct (decide (x = a)) as [->|Hne].
  - rewrite lookup_delete_eq. by rewrite decide_True by set_solver.
  - rewrite lookup_delete_ne by done. by rewrite decide_False by set_solver.
Qed.

Lemma bst_at_allocated h a st fp :
  bst_at h a st fp → ∀ x, x ∈ fp → is_Some (h !! x).
Proof.
  intros [p ft Ha Ht Hfresh] x [->%elem_of_singleton|Hx]%elem_of_union; [eauto|].
  by apply (tree_at_allocated h p (BST.root st) ft).
Qed.

(** *** The chains and the bucket array *)

Lemma chain_at_allocated h p chain fp :
  chain_at h p chain fp → ∀ a, a ∈ fp → is_Some (h !! a).
Proof.
  induction 1 as [|a q e next rest fr Ha Hq _ IH]; intros x Hx.
  - set_solver.
  - apply elem_of_union in Hx as [Hx|Hx]; [|by apply IH].
    apply elem_of_union in Hx as [->%elem_of_singleton| ->%elem_of_singleton]; eauto.
Qed.

Lemma chain_at_agree h h' p chain fp :
  chain_at h p chain fp → (∀ a, a ∈ fp → h' !! a = h !! a) → chain_at h' p chain fp.
Proof.
  induction 1 as [|a q e next rest fr Ha Hq _ IH]; intros Hag; [constructor|].
  apply (chain_at_entry h' a q e next); try done.
  - rewrite Hag; [done|set_solver].
  - rewrite Hag; [done|set_solver].
  - apply IH. intros x Hx. apply Hag. set_solver.
Qed.

Lemma free_chain_spec chain : ∀ fuel h p fp,
  chain_at h p chain fp → (length chain ≤ fuel)%nat →
  ∃ h', HTMem.free_chain fuel p h = Ok h' ∧ released fp h h'.
Proof.
  induction chain as [|e rest IH]; intros fuel h p fp Hc Hfuel;
    inversion Hc as [|a q ? next ? fr Ha Hq Hrest Haq Har Hqr]; subst.
  - exists h. split; [by destruct fuel|apply released_empty].
  - simpl in Hfuel. destruct fuel as [|fuel]; [lia|]. simpl.
    unfold HTMem.entry_next at 1, HTMem.entry_name at 1, load. rewrite Ha. simpl.
    destruct (free_pair h a q (BEntry (Some q) (HT.position e) next)
                (BChars (HT.name e)) Ha Hq Haq) as (_ & Hrel2).
    rewrite Hq. simpl. rewrite lookup_delete_ne, Ha by done. simpl.
    destruct (IH fuel (delete a (delete q h)) next fr) as (h' & -> & Hrel'); [|lia|].
    { apply (chain_at_agree h); [done|]. apply (released_agree {[a; q]}); [done|].
      intros x [->%elem_of_singleton| ->%elem_of_singleton]%elem_of_union; done. }
    exists h'. split; [done|]. by apply (released_trans _ _ _ (delete a (delete q h))).
Qed.

Lemma buckets_at_agree h h' cells chains fp :
  buckets_at h cells chains fp → (∀ a, a ∈ fp → h' !! a = h !! a) →
  buckets_at h' cells chains fp.
Proof.
  induction 1 as [|p cells chain chains fc fr Hc _ IH Hd]; intros Hag; [constructor|].
  constructor; [|apply IH|done].
  - apply (chain_at_agree h); [done|]. intros x Hx. apply Hag. set_solver.
  - intros x Hx. apply Hag. set_solver.
Qed.

Lemma buckets_at_allocated h cells chains fp :
  buckets_at h cells chains fp → ∀ a, a ∈ fp → is_Some (h !! a).
Proof.
  induction 1 as [|p cells chain chains fc fr Hc _ IH Hd]; intros x Hx; [set_solver|].
  apply elem_of_union in Hx as [Hx|Hx]; [|by apply IH].
  by apply (chain_at_allocated h p chain fc).
Qed.

Lemma buckets_at_length h cells chains fp :
  buckets_at h cells chains fp → length cells = length chains.
Proof. induction 1; simpl; [done|]. by f_equal. Qed.

(** The outer loop of [st_destroy], over the cells from index [i] on. *)
Lemma destroy_loop_spec a b all_cells capacity0 size0 next0 chains : ∀ cells fp h i fuel chain_fuel,
  h !! a = Some (BTableHT (Some b) capacity0 size0 next0) →
  h !! b = Some (BBuckets all_cells) →
  buckets_at h cells chains fp → a ∉ fp → b ∉ fp →
  0 ≤ i → drop (Z.to_nat i) all_cells = cells →
  i + Z.of_nat (length cells) = capacity0 →
  (length cells < fuel)%nat →
  (∀ chain, chain ∈ chains → (length chain ≤ chain_fuel)%nat) →
  ∃ h', HTMem.destroy_loop fuel chain_fuel (Some a) i h = Ok h' ∧ released fp h h'.
Proof.
  induction chains as [|chain chains IH];
    intros cells fp h i fuel chain_fuel Ha Hb Hbs Hafp Hbfp Hi Hdrop Hcap Hfuel Hcf;
    revert Hdrop Hcap Hfuel;
    inversion Hbs as [|p cells' ? ? fc fr Hc Hrest Hd]; subst; intros Hdrop Hcap Hfuel.
  - destruct fuel as [|fuel]; [simpl in Hfuel; lia|]. simpl.
    unfold HTMem.table_capacity, load. rewrite Ha. simpl.
    simpl in Hcap. destruct (Z.ltb_spec i capacity0); [lia|].
    exists h. split; [done|apply released_empty].
  - simpl in Hfuel, Hcap. destruct fuel as [|fuel]; [lia|]. simpl.
    unfold HTMem.table_capacity, HTMem.table_buckets, load. rewrite Ha. simpl.
    destruct (Z.ltb_spec i capacity0); [|lia].
    unfold HTMem.bucket_cell, load. rewrite Hb. simpl.
    destruct (Z.ltb_spec i 0); [lia|].
    assert (all_cells !! Z.to_nat i = Some p) as ->.
    { rewrite <- (Nat.add_0_r (Z.to_nat i)), <- lookup_drop. by rewrite Hdrop. }
    simpl.
    destruct (free_chain_spec chain chain_fuel h p fc Hc) as (h1 & -> & Hrel1).
    { apply Hcf. left. }
    simpl.
    destruct (IH cells' fr h1 (i + 1) fuel chain_fuel) as (h' & -> & Hrel'); try lia.
    + by rewrite (released_outside fc h h1 a Hrel1) by set_solver.
    + by rewrite (released_outside fc h h1 b Hrel1) by set_solver.
    + apply (buckets_at_agree h); [done|]. by apply (released_agree fc).
    + set_solver.
    + set_solver.
    + replace (Z.to_nat (i + 1)) with (Z.to_nat i + 1)%nat by lia.
      by rewrite <- drop_drop, Hdrop.
    + intros c Hin. apply Hcf. by right.
    + exists h'. split; [done|]. by apply (released_trans _ _ _ h1).
Qed.

(** [st_destroy] of the hash table backend releases the table. *)
Lemma ht_destroy_spec h a st fp fuel :
  ht_at h a st fp → ht_wf st →
  (Z.to_nat (HT.capacity st) + length (entries st) < fuel)%nat →
  ∃ h', HTMem.st_destroy fuel (Some a) h = Ok h' ∧ released fp h h'.
Proof.
  intros [b cells fb Ha Hb Hbs Hab Hafb Hbfb] [Hcap Hlen] Hfuel.
  pose proof (buckets_at_length _ _ _ _ Hbs) as Hl.
  unfold HTMem.st_destroy.
  destruct (destroy_loop_spec a b cells (HT.capacity st) (HT.size st)
              (HT.next_position st) (HT.buckets st) cells fb h 0 fuel fuel)
    as (h1 & -> & Hrel1); try done; try lia.
  { intros chain Hin. unfold entries in Hfuel.
    assert (length chain ≤ length (concat (HT.buckets st)))%nat; [|lia].
    apply list_elem_of_In in Hin. clear -Hin.
    induction (HT.buckets st) as [|c cs IH]; simpl in *; [done|].
    rewrite length_app. destruct Hin as [->|Hin]; [lia|]. specialize (IH Hin). lia. }
  simpl. unfold HTMem.table_buckets, load.
  rewrite (released_outside fb h h1 a Hrel1 Hafb), Ha. simpl.
  destruct (free_pair h1 a b (BTableHT (Some b) (HT.capacity st) (HT.size st)
                                (HT.next_position st)) (BBuckets cells))
    as (Hfree & Hrel'); [| |done|].
  { by rewrite (released_outside fb h h1 a Hrel1 Hafb). }
  { by rewrite (released_outside fb h h1 b Hrel1 Hbfb). }
  eexists. split; [exact Hfree|].
  replace ({[a; b]} ∪ fb) with (fb ∪ {[a; b]}) by set_solver.
  by apply (released_trans _ _ _ h1).
Qed.

Lemma ht_at_allocated h a st fp :
  ht_at h a st fp → ∀ x, x ∈ fp → is_Some (h !! x).
Proof.
  intros [b cells fb Ha Hb Hbs Hab Hafb Hbfb] x [Hx|Hx]%elem_of_union.
  - apply elem_of_union in Hx as [->%elem_of_singleton| ->%elem_of_singleton]; eauto.
  - by apply (buckets_at_allocated h cells (HT.buckets st) fb).
Qed.

(** A heap that holds nothing but the blocks released is empty afterwards:
    nothing leaks. *)
Lemma released_all fp (h h' : heap) :
  released fp h h' → (∀ a, is_Some (h !! a) → a ∈ fp) → h' = ∅.
Proof.
  intros Hrel Hdom. apply map_empty. intros a. rewrite Hrel.
  destruct (decide (a ∈ fp)) as [|Hn]; [done|].
  destruct (h !! a) as [b|] eqn:Hb; [|done]. destruct Hn. apply Hdom. eauto.
Qed.

End Release.

(** ** The claims *)

(** Closed decidable facts, such as [NoDup] of a list of literals, hold by
    computation. *)
Ltac by_computation := apply (bool_decide_unpack _); vm_compute; exact I.

(** C1. For every sequence of [st_add] calls with pairwise distinct names on
    a freshly created table, the positions returned are 0, 1, 2, ... in the
    order of the calls, in the BST backend and in the hash backend. *)
Theorem c1_positions_in_insertion_order (char_is_signed : bool) (names : list string) :
  NoDup names →
  (BST.st_add_all BST.st_create names).1 = seqZ 0 (Z.of_nat (length names)) ∧
  fst <$> HT.st_add_all char_is_signed HT.st_create names
    = Some (seqZ 0 (Z.of_nat (length names))).
Proof.
  intros Hnd. split.
  - apply (bst_run_distinct names BST.st_create bst_inv_create Hnd). by intros x _.
  - destruct (ht_run_distinct char_is_signed names HT.st_create
                (ht_inv_create char_is_signed) Hnd) as (st' & -> & _).
    + intros x _. apply st_search_create.
    + done.
Qed.

Lemma c1_witness :
  NoDup driver_names ∧
  (BST.st_add_all BST.st_create driver_names).1 = [0; 1; 2; 3; 4] ∧
  fst <$> HT.st_add_all true HT.st_create driver_names = Some [0; 1; 2; 3; 4].
Proof.
  split; [by_computation|].
  apply (c1_positions_in_insertion_order true driver_names).
  by_computation.
Defined.



(** C3. Idempotent insert: calling [st_add] twice with one name returns
    the same position both times and the second call leaves the table,
    position counter included, as it is; over any sequence of calls the
    size grows by at most one per distinct name.  Both backends. *)
Theorem c3_idempotent_insert (char_is_signed : bool)
  (bst : BST.SymbolTableBST) (ht : HT.SymbolTableHT)
  (name : string) (names : list string) :
  bst_inv bst → ht_inv char_is_signed ht →
  (BST.st_add (BST.st_add bst name).2 name = BST.st_add bst name ∧
   BST.size bst ≤ BST.size (BST.st_add_all bst names).2
                ≤ BST.size bst + Z.of_nat (length (remove_dups names))) ∧
  (∃ p ht1, HT.st_add char_is_signed ht name = Some (p, ht1) ∧
            HT.st_add char_is_signed ht1 name = Some (p, ht1)) ∧
  (∃ ps ht', HT.st_add_all char_is_signed ht names = Some (ps, ht') ∧
             HT.size ht ≤ HT.size ht'
                        ≤ HT.size ht + Z.of_nat (length (remove_dups names))).
Proof.
  intros Hbst Hht. split; [split|split].
  - destruct (bst_add_search bst name) as (l & r & Hs).
    rewrite (bst_add_found _ _ _ _ _ _ Hs). by destruct (BST.st_add bst name).
  - by apply bst_run_count.
  - destruct (ht_add_spec char_is_signed ht name Hht) as (p & ht1 & Hadd & _ & Hs & Hp & _).
    exists p, ht1. split; [done|]. by apply ht_add_hit.
  - destruct (ht_run_defined char_is_signed names ht Hht) as (ps & ht' & Hrun & _).
    exists ps, ht'. split; [done|]. by apply (ht_run_count char_is_signed names ht ps).
Qed.

Lemma c3_witness :
  bst_inv BST.st_create ∧ ht_inv true driver_table ∧
  (BST.st_add (BST.st_add BST.st_create "count").2 "count"
     = BST.st_add BST.st_create "count" ∧
   BST.size BST.st_create
     ≤ BST.size (BST.st_add_all BST.st_create ["count"; "sum"; "count"]%string).2
     ≤ BST.size BST.st_create
       + Z.of_nat (length (remove_dups ["count"; "sum"; "count"]%string))) ∧
  (∃ p ht1, HT.st_add true driver_table "count" = Some (p, ht1) ∧
            HT.st_add true ht1 "count" = Some (p, ht1)) ∧
  (∃ ps ht', HT.st_add_all true driver_table ["count"; "sum"; "count"]%string
               = Some (ps, ht') ∧
             HT.size driver_table ≤ HT.size ht'
               ≤ HT.size driver_table
                 + Z.of_nat (length (remove_dups ["count"; "sum"; "count"]%string))).
Proof.
  assert (ht_inv true driver_table) as Hinv.
  { apply (ht_inv_reachable true (driver_names ++ ["result"; "temp"]%string)
             [0; 1; 2; 3; 4; 5; 6]).
    vm_compute. reflexivity. }
  split; [apply bst_inv_create|]. split; [exact Hinv|].
  apply (c3_idempotent_insert true BST.st_create driver_table "count"
           ["count"; "sum"; "count"]%string bst_inv_create Hinv).
Defined.

(** C4. [st_resize] preserves the contents: the entries after the resize
    are the entries before it (none lost, none duplicated, names and
    positions unchanged), the recomputed size is the size before, and every
    search returns what it returned before; in particular every name
    present before the resize keeps its position. *)
Theorem c4_resize_preserves_contents (char_is_signed : bool) (st : HT.SymbolTableHT) :
  ht_inv char_is_signed st →
  ∃ st', HT.st_resize char_is_signed st = Some st' ∧
         HT.capacity st' = HT.capacity st * 2 ∧
         entries st' ≡ₚ entries st ∧
         HT.size st' = HT.size st ∧
         HT.size st' = Z.of_nat (length (entries st')) ∧
         HT.next_position st' = HT.next_position st ∧
         (∀ name, HT.st_search char_is_signed st' name
                  = HT.st_search char_is_signed st name) ∧
         (∀ e, e ∈ entries st →
               HT.st_search char_is_signed st' (HT.name e) = Some (HT.position e)) ∧
         ht_inv char_is_signed st'.
Proof.
  intros Hinv.
  destruct (st_resize_spec char_is_signed st Hinv) as (st' & Hr & Hinv' & Hc & Hs & Hn & He).
  exists st'. split_and!; try done.
  - apply Hinv'.
  - intros name. by apply st_resize_search.
  - intros e He'. rewrite (st_resize_search char_is_signed st st') by done.
    rewrite st_search_entries by done. f_equal.
    apply search_chain_present; [apply Hinv|done].
Qed.

Lemma c4_witness :
  ht_inv true driver_table ∧
  ∃ st', HT.st_resize true driver_table = Some st' ∧
         HT.capacity st' = HT.capacity driver_table * 2 ∧
         entries st' ≡ₚ entries driver_table ∧
         HT.size st' = HT.size driver_table ∧
         HT.size st' = Z.of_nat (length (entries st')) ∧
         HT.next_position st' = HT.next_position driver_table ∧
         (∀ name, HT.st_search true st' name = HT.st_search true driver_table name) ∧
         (∀ e, e ∈ entries driver_table →
               HT.st_search true st' (HT.name e) = Some (HT.position e)) ∧
         ht_inv true st'.
Proof.
  assert (ht_inv true driver_table) as Hinv.
  { apply (ht_inv_reachable true (driver_names ++ ["result"; "temp"]%string)
             [0; 1; 2; 3; 4; 5; 6]).
    vm_compute. reflexivity. }
  split; [exact Hinv|]. apply (c4_resize_preserves_contents true driver_table Hinv).
Defined.

(** C5. The load-factor invariant, [size / capacity <= 0.75] after every
    [st_add] on a table built from a fresh one, fails on the code.  After
    31457281 pairwise distinct names the table has size 31457281 and
    capacity 41943040 (10 * 2^22): before the last insertion the check,
    computed in single precision, rounds 31457281 to 31457280, finds the
    quotient 0.75 and does not resize, although
    (size + 1) / capacity > 0.75. *)
Theorem c5_load_factor_exceeded (char_is_signed : bool) (names : list string) :
  NoDup names → Z.of_nat (length names) = 31457281 →
  exceeded 31457280 41943040 = false ∧
  HT.float_of_int 31457281 = HT.float_of_int 31457280 ∧
  ∃ ps st, HT.st_add_all char_is_signed HT.st_create names = Some (ps, st) ∧
           HT.size st = 31457281 ∧ HT.capacity st = 41943040 ∧
           3 * HT.capacity st < 4 * HT.size st.
Proof.
  intros Hnd Hlen. split; [vm_compute; reflexivity|]. split; [vm_compute; reflexivity|].
  destruct (load_factor_exceeded_run char_is_signed names Hnd Hlen)
    as (ps & st & Hrun & Hs & Hc).
  exists ps, st. split; [done|]. split; [done|]. split; [done|]. lia.
Qed.

Lemma c5_witness :
  NoDup (numbered_names (Z.to_nat 31457281)) ∧
  Z.of_nat (length (numbered_names (Z.to_nat 31457281))) = 31457281 ∧
  exceeded 31457280 41943040 = false ∧
  HT.float_of_int 31457281 = HT.float_of_int 31457280 ∧
  ∃ ps st, HT.st_add_all true HT.st_create (numbered_names (Z.to_nat 31457281))
             = Some (ps, st) ∧
           HT.size st = 31457281 ∧ HT.capacity st = 41943040 ∧
           3 * HT.capacity st < 4 * HT.size st.
Proof.
  split; [apply numbered_names_distinct|].
  split; [rewrite numbered_names_length; apply Z2Nat.id; lia|].
  apply (c5_load_factor_exceeded true (numbered_names (Z.to_nat 31457281))).
  - apply numbered_names_distinct.
  - rewrite numbered_names_length. apply Z2Nat.id. lia.
Defined.

(** C6. The resize check of [st_add] is [(size + 1) / capacity > 0.75],
    made before the insertion.  From a fresh table (capacity 10), adding 9
    pairwise distinct names triggers exactly one resize, to capacity 20, at
    the 8th insertion; afterwards the 9 names are found at the positions
    0 to 8 that they received. *)
Theorem c6_resize_trigger_point (char_is_signed : bool) (names : list string) :
  NoDup names → length names = 9%nat →
  ∃ tr st',
    st_add_trace char_is_signed HT.st_create names = Some tr ∧
    HT.st_add_all char_is_signed HT.st_create names = Some (tr.*1, st') ∧
    tr.*1 = [0; 1; 2; 3; 4; 5; 6; 7; 8] ∧
    HT.load_factor_exceeded <$> (HT.st_create :: take 8 tr.*2)
      = [false; false; false; false; false; false; false; true; false] ∧
    HT.capacity <$> tr.*2 = [10; 10; 10; 10; 10; 10; 10; 20; 20] ∧
    HT.size <$> tr.*2 = [1; 2; 3; 4; 5; 6; 7; 8; 9] ∧
    HT.capacity st' = 20 ∧
    ∀ i name, names !! i = Some name →
              HT.st_search char_is_signed st' name = Some (Z.of_nat i).
Proof.
  intros Hnd Hlen.
  destruct (ht_trace_distinct char_is_signed names HT.st_create
              (ht_inv_create char_is_signed) Hnd) as (tr & Htr & Hps & Hgr).
  { intros x _. apply st_search_create. }
  pose proof (ht_trace_run char_is_signed names HT.st_create tr Htr) as Hrun.
  rewrite Hlen in Hps, Hgr.
  assert (growth 9 (HT.size HT.st_create) (HT.capacity HT.st_create)
          = [(1, 10); (2, 10); (3, 10); (4, 10); (5, 10); (6, 10); (7, 10);
             (8, 20); (9, 20)]) as Hpath by (vm_compute; reflexivity).
  rewrite Hpath in Hgr. clear Hpath.
  exists tr, (default HT.st_create (snd <$> last tr)).
  split; [done|]. split; [done|]. split; [done|].
  assert (∀ i name, names !! i = Some name →
            HT.st_search char_is_signed (default HT.st_create (snd <$> last tr)) name
            = Some (Z.of_nat i)) as Hsearch.
  { intros i name Hi.
    by rewrite (ht_run_distinct_search char_is_signed names HT.st_create _ _
                  (ht_inv_create char_is_signed) Hnd
                  (λ x _, st_search_create char_is_signed x) Hrun i name Hi). }
  clear Htr Hrun Hps.
  do 9 (destruct tr as [|[? [? ? ? ?]] tr]; [done|]).
  destruct tr; [|done].
  rewrite !fmap_cons in Hgr. cbn [fst snd HT.size HT.capacity] in Hgr.
  simplify_eq. split_and!; [vm_compute; reflexivity|done..].
Qed.

Lemma c6_witness :
  NoDup (driver_names ++ ["result"; "temp"; "max"; "min"]%string) ∧
  length (driver_names ++ ["result"; "temp"; "max"; "min"]%string) = 9%nat ∧
  ∃ tr st',
    st_add_trace true HT.st_create
      (driver_names ++ ["result"; "temp"; "max"; "min"]%string) = Some tr ∧
    HT.st_add_all true HT.st_create
      (driver_names ++ ["result"; "temp"; "max"; "min"]%string) = Some (tr.*1, st') ∧
    tr.*1 = [0; 1; 2; 3; 4; 5; 6; 7; 8] ∧
    HT.load_factor_exceeded <$> (HT.st_create :: take 8 tr.*2)
      = [false; false; false; false; false; false; false; true; false] ∧
    HT.capacity <$> tr.*2 = [10; 10; 10; 10; 10; 10; 10; 20; 20] ∧
    HT.size <$> tr.*2 = [1; 2; 3; 4; 5; 6; 7; 8; 9] ∧
    HT.capacity st' = 20 ∧
    ∀ i name, (driver_names ++ ["result"; "temp"; "max"; "min"]%string) !! i = Some name →
              HT.st_search true st' name = Some (Z.of_nat i).
Proof.
  split; [by_computation|].
  split; [reflexivity|].
  apply (c6_resize_trigger_point true
           (driver_names ++ ["result"; "temp"; "max"; "min"]%string)).
  - by_computation.
  - reflexivity.
Defined.

(** C7. Every table that [st_add] calls build from a fresh BST table
    satisfies the ordering invariant (smaller keys only in the left
    subtree of a node, greater keys only in its right subtree), and its
    in-order traversal yields the names in strictly ascending order. *)
Theorem c7_bst_ordering (names : list string) :
  bst_ordered (BST.root (BST.st_add_all BST.st_create names).2) ∧
  strictly_ascending
    (BST.inorder_traversal (BST.root (BST.st_add_all BST.st_create names).2)).*1.
Proof.
  assert (bst_ordered (BST.root (BST.st_add_all BST.st_create names).2)) as H.
  { by apply bst_add_all_ordered. }
  split; [done|]. by apply inorder_ascending.
Qed.

(** C8, as amended.  For every string and every positive capacity,
    [hash_function] computes the djb2 variant (seed 5381, then
    [hash * 33 + c] for each character, modulo 2^64) and returns it modulo
    the capacity, a bucket index below the capacity.  The number [c] is
    the value of the [char]: the byte, 0 to 255, where plain [char] is
    unsigned, and the byte read as a signed 8-bit number (the byte minus
    256 for a byte of 128 or more) where plain [char] is signed.  For a
    name of 7-bit characters it is the byte on every platform. *)
Theorem c8_hash_function_djb2 (char_is_signed : bool) (str : string) (capacity : Z) :
  0 < capacity →
  HT.hash_function char_is_signed str capacity
    = djb2 (if char_is_signed then signed_byte else uchar) str mod capacity ∧
  0 ≤ HT.hash_function char_is_signed str capacity < capacity ∧
  (seven_bit str →
   HT.hash_function char_is_signed str capacity = djb2 uchar str mod capacity).
Proof.
  intros Hc. split; [|split].
  - unfold HT.hash_function, djb2. rewrite hash_loop_djb2. f_equal.
    apply djb2_from_ext, char_to_int_value.
  - by apply hash_function_range.
  - unfold HT.hash_function, djb2. rewrite hash_loop_djb2. intros H7.
    by rewrite djb2_seven_bit.
Qed.

Lemma c8_witness :
  0 < 10 ∧
  HT.hash_function true e_acute 10 = djb2 signed_byte e_acute mod 10 ∧
  0 ≤ HT.hash_function true e_acute 10 < 10 ∧
  (seven_bit e_acute →
   HT.hash_function true e_acute 10 = djb2 uchar e_acute mod 10).
Proof.
  split; [lia|]. apply (c8_hash_function_djb2 true e_acute 10). lia.
Defined.

(** C8 as the claim words it, with [c] the byte, fails where plain [char]
    is signed: for the name of the two bytes C3 A9 and capacity 10,
    [hash_function] returns 9, and djb2 over the bytes gives 3. *)
Lemma c8_counterexample :
  0 < 10 ∧
  HT.hash_function true e_acute 10 = 9 ∧
  djb2 uchar e_acute mod 10 = 3.
Proof. split; [lia|]. split; vm_compute; reflexivity. Qed.

(** C9. A search of a name that was never added returns the [NotFound]
    signal, -1, in both backends. *)
Theorem c9_search_never_added (char_is_signed : bool)
  (names : list string) (name : string) :
  name ∉ names →
  BST.st_search (BST.st_add_all BST.st_create names).2 name = -1 ∧
  ∃ ps st, HT.st_add_all char_is_signed HT.st_create names = Some (ps, st) ∧
           HT.st_search char_is_signed st name = Some (-1).
Proof.
  intros Hname. split.
  - by rewrite (bst_run_other names BST.st_create name bst_inv_create Hname).
  - destruct (ht_run_defined char_is_signed names HT.st_create
                (ht_inv_create char_is_signed)) as (ps & st & Hrun & _).
    exists ps, st. split; [done|].
    rewrite (ht_run_other char_is_signed names HT.st_create ps st name
               (ht_inv_create char_is_signed) Hrun Hname).
    apply st_search_create.
Qed.

Lemma c9_witness :
  ("nonexistent"%string ∉ driver_names) ∧
  BST.st_search (BST.st_add_all BST.st_create driver_names).2 "nonexistent" = -1 ∧
  ∃ ps st, HT.st_add_all true HT.st_create driver_names = Some (ps, st) ∧
           HT.st_search true st "nonexistent" = Some (-1).
Proof.
  split; [by_computation|].
  apply (c9_search_never_added true driver_names "nonexistent").
  by_computation.
Defined.




(** ** Further properties of the two backends *)

Lemma driver_table_inv : ht_inv true driver_table.
Proof.
  apply (ht_inv_reachable true (driver_names ++ ["result"; "temp"]%string)
           [0; 1; 2; 3; 4; 5; 6]).
  vm_compute. reflexivity.
Qed.

(** X1. The BST backend refines the reference table.  For every sequence
    of [st_add] calls on a fresh table, names repeated or not, each call
    returns the index of its name in the list of the names in the order of
    their first occurrence; afterwards [st_search] returns this index for
    every name of the sequence and -1 for every other name, and [size] is
    the number of distinct names. *)
Theorem x1_bst_refines_reference (names : list string) :
  (BST.st_add_all BST.st_create names).1
    = ref_search (first_seen names) <$> names ∧
  (∀ x, BST.st_search (bst_built names) x = ref_search (first_seen names) x) ∧
  BST.size (bst_built names) = Z.of_nat (length (remove_dups names)) ∧
  first_seen names ≡ₚ remove_dups names.
Proof.
  destruct (bst_run_first_seen names) as (Hps & _ & Hsz & Hs).
  split_and!; [done|done| |apply first_seen_remove_dups].
  unfold bst_built. by rewrite Hsz, first_seen_remove_dups.
Qed.

(** X2. The hash table backend refines the reference table: the same
    statement as X1, with [st_add] returning on every call; the position
    counter equals the size. *)
Theorem x2_ht_refines_reference (char_is_signed : bool) (names : list string) :
  ∃ st, HT.st_add_all char_is_signed HT.st_create names
          = Some (ref_search (first_seen names) <$> names, st) ∧
        (∀ x, HT.st_search char_is_signed st x
              = Some (ref_search (first_seen names) x)) ∧
        HT.size st = Z.of_nat (length (remove_dups names)) ∧
        HT.next_position st = HT.size st.
Proof.
  destruct (ht_run_first_seen char_is_signed names) as (st & Hrun & _ & Hn & Hsz & Hs).
  exists st. split_and!; [done|done| |congruence].
  by rewrite Hsz, first_seen_remove_dups.
Qed.

(** X3. The two backends are interchangeable: for every sequence of
    [st_add] calls on fresh tables they return the same positions, end
    with the same size, and answer every [st_search] alike. *)
Theorem x3_backends_agree (char_is_signed : bool) (names : list string) :
  ∃ ht, HT.st_add_all char_is_signed HT.st_create names
          = Some ((BST.st_add_all BST.st_create names).1, ht) ∧
        HT.size ht = BST.size (bst_built names) ∧
        ∀ x, HT.st_search char_is_signed ht x
             = Some (BST.st_search (bst_built names) x).
Proof.
  destruct (ht_run_first_seen char_is_signed names) as (ht & Hrun & _ & _ & Hsz & Hs).
  destruct (bst_run_first_seen names) as (Hps & _ & Hbsz & Hbs).
  exists ht. unfold bst_built. rewrite Hps, Hbsz. split_and!; [done..|].
  intros x. by rewrite Hs, Hbs.
Qed.

(** X4. Positions are stable: a name that a table holds keeps its position
    through every later sequence of [st_add] calls, whatever names they
    add and whatever resizes they cause.  Both backends. *)
Theorem x4_positions_persist (char_is_signed : bool)
  (bst : BST.SymbolTableBST) (ht : HT.SymbolTableHT)
  (names : list string) (x : string) (p q : Z) :
  bst_inv bst → ht_inv char_is_signed ht →
  BST.st_search bst x = p → p ≠ -1 →
  HT.st_search char_is_signed ht x = Some q → q ≠ -1 →
  BST.st_search (BST.st_add_all bst names).2 x = p ∧
  ∃ ps ht', HT.st_add_all char_is_signed ht names = Some (ps, ht') ∧
            HT.st_search char_is_signed ht' x = Some q.
Proof.
  intros Hbst Hht Hp Hpne Hq Hqne. split.
  - rewrite <- Hp. apply bst_run_found; [done|]. by rewrite Hp.
  - destruct (ht_run_defined char_is_signed names ht Hht) as (ps & ht' & Hrun & _).
    exists ps, ht'. split; [done|].
    by apply (ht_run_found char_is_signed names ht ps ht' x q).
Qed.

Lemma x4_witness :
  bst_inv (bst_built driver_names) ∧ ht_inv true driver_table ∧
  BST.st_search (bst_built driver_names) "count" = 1 ∧ 1 ≠ -1 ∧
  HT.st_search true driver_table "count" = Some 1 ∧ 1 ≠ -1 ∧
  BST.st_search
    (BST.st_add_all (bst_built driver_names) ["sum"; "zeta"; "count"]%string).2
    "count" = 1 ∧
  ∃ ps ht', HT.st_add_all true driver_table ["sum"; "zeta"; "count"]%string
              = Some (ps, ht') ∧
            HT.st_search true ht' "count" = Some 1.
Proof.
  assert (bst_inv (bst_built driver_names)) as Hbst
    by apply (bst_run_defined driver_names BST.st_create bst_inv_create).
  split; [exact Hbst|]. split; [exact driver_table_inv|].
  split; [reflexivity|]. split; [lia|]. split; [reflexivity|]. split; [lia|].
  apply (x4_positions_persist true (bst_built driver_names) driver_table
           ["sum"; "zeta"; "count"]%string "count" 1 1 Hbst driver_table_inv);
    [reflexivity|lia|reflexivity|lia].
Defined.

(** X5. What [st_display] of the BST backend prints for a table built
    from a fresh one: the number after "Size:" is the number of rows and
    the number of distinct names added, and the rows are the names added,
    each with the position that [st_search] returns for it. *)
Theorem x5_bst_display (names : list string) :
  (BST.st_display (bst_built names)).1
    = Z.of_nat (length (BST.st_display (bst_built names)).2) ∧
  (BST.st_display (bst_built names)).1 = Z.of_nat (length (remove_dups names)) ∧
  ∀ x p, (x, p) ∈ (BST.st_display (bst_built names)).2
         ↔ x ∈ names ∧ BST.st_search (bst_built names) x = p.
Proof.
  destruct (bst_run_first_seen names) as (_ & Hinv & Hsz & Hs).
  fold (bst_built names) in Hinv, Hsz, Hs.
  pose proof (bst_run_positions names BST.st_create ltac:(done) ltac:(done)) as Hpos.
  fold (bst_built names) in Hpos.
  assert (bst_ordered (BST.root (bst_built names))) as Hord
    by by apply bst_add_all_ordered.
  cbn [BST.st_display fst snd]. split_and!.
  - apply Permutation_length in Hpos. rewrite length_fmap, length_seqZ in Hpos.
    rewrite Hpos. destruct Hinv as [? _]. lia.
  - by rewrite Hsz, first_seen_remove_dups.
  - intros x p. rewrite (search_node_inorder _ x p Hord). split.
    + intros (l & r & Hn). assert (BST.st_search (bst_built names) x = p) as Hp
        by (unfold BST.st_search; by rewrite Hn).
      split; [|done].
      assert (p ∈ (BST.inorder_traversal (BST.root (bst_built names))).*2) as Hin.
      { apply list_elem_of_fmap. exists (x, p). split; [done|].
        apply (search_node_inorder _ x p Hord). eauto. }
      rewrite Hpos in Hin. apply elem_of_seqZ in Hin.
      assert (x ∈ first_seen names) as Hx.
      { apply ref_search_found. rewrite <- Hs, Hp. unfold NotFound. lia. }
      unfold first_seen in Hx. apply first_seen_from_elem_of in Hx as [Hx|Hx]; [|done].
      by apply elem_of_nil in Hx.
    + intros [Hx <-].
      assert (BST.st_search (bst_built names) x ≠ NotFound) as Hne.
      { rewrite Hs. apply ref_search_found. unfold first_seen.
        apply first_seen_from_elem_of. by right. }
      unfold BST.st_search in *.
      destruct (BST.search_node (BST.root (bst_built names)) x) as [|n q l r] eqn:Hn;
        [done|].
      apply search_node_name in Hn as Hnx. subst n. eauto.
Qed.

(** X6. What [st_display] of the hash table backend prints for a table
    built from a fresh one: the function returns (no access outside the
    bucket array), the size printed is the number of rows, and the rows
    are the names added, each with the position that [st_search] returns
    for it and, as bucket, the value of [hash_function] for the name. *)
Theorem x6_ht_display (char_is_signed : bool) (names : list string) :
  ∃ ps st d,
    HT.st_add_all char_is_signed HT.st_create names = Some (ps, st) ∧
    HT.st_display st = Some d ∧
    HT.display_size d = Z.of_nat (length (HT.display_rows d)) ∧
    HT.display_size d = Z.of_nat (length (remove_dups names)) ∧
    HT.display_capacity d = HT.capacity st ∧
    ∀ x p j, (x, p, j) ∈ HT.display_rows d
             ↔ x ∈ names ∧ HT.st_search char_is_signed st x = Some p ∧
               j = HT.hash_function char_is_signed x (HT.capacity st).
Proof.
  destruct (ht_run_first_seen char_is_signed names) as (st & Hrun & Hinv & _ & Hsz & Hs).
  destruct (ht_display_spec char_is_signed st Hinv) as (d & Hd & Hds & Hdc & Hlen & Hrows).
  eexists _, st, d. split_and!; [done|done|congruence| |done|].
  - by rewrite Hds, Hsz, first_seen_remove_dups.
  - intros x p j. rewrite Hrows.
    assert (x ∈ names ↔ ref_search (first_seen names) x ≠ NotFound) as Hx.
    { rewrite ref_search_found. unfold first_seen.
      rewrite first_seen_from_elem_of, elem_of_nil. tauto. }
    rewrite Hx, Hs. split.
    + intros ([= <-] & ? & ?). done.
    + intros (? & [= <-] & ?). done.
Qed.

(** X7. The positions stored in a table built from a fresh one are the
    numbers 0, 1, ..., size - 1, each exactly once, in both backends; in
    the hash table the position counter is the size. *)
Theorem x7_positions_dense (char_is_signed : bool) (names : list string) :
  (BST.inorder_traversal (BST.root (bst_built names))).*2
    ≡ₚ seqZ 0 (BST.size (bst_built names)) ∧
  ∃ ps st,
    HT.st_add_all char_is_signed HT.st_create names = Some (ps, st) ∧
    HT.position <$> entries st ≡ₚ seqZ 0 (HT.size st) ∧
    HT.next_position st = HT.size st.
Proof.
  split.
  - by apply (bst_run_positions names BST.st_create).
  - destruct (ht_run_defined char_is_signed names HT.st_create
                (ht_inv_create char_is_signed)) as (ps & st & Hrun & _).
    exists ps, st. split; [done|]. split.
    + by apply (ht_run_positions char_is_signed names ps).
    + by apply (ht_next_position_run char_is_signed names ps).
Qed.

(** X8. What [st_display_structure] prints for a table built from a fresh
    one: the function returns, it prints one line per bucket, in the order
    of the indices, and the line of bucket [i] holds the names added whose
    [hash_function] is [i], each with the position that [st_search]
    returns; the line reads "(empty)" when there is no such name. *)
Theorem x8_ht_display_structure (char_is_signed : bool) (names : list string) :
  ∃ ps st lines,
    HT.st_add_all char_is_signed HT.st_create names = Some (ps, st) ∧
    HT.st_display_structure st = Some (HT.capacity st, HT.size st, lines) ∧
    Z.of_nat (length lines) = HT.capacity st ∧
    ∀ i line, lines !! i = Some line →
      line.1 = Z.of_nat i ∧
      (line.2 = HT.LineEmpty ↔ line_items line.2 = []) ∧
      ∀ x p, (x, p) ∈ line_items line.2
             ↔ x ∈ names ∧ HT.st_search char_is_signed st x = Some p ∧
               HT.hash_function char_is_signed x (HT.capacity st) = Z.of_nat i.
Proof.
  destruct (ht_run_first_seen char_is_signed names) as (st & Hrun & Hinv & _ & Hsz & Hs).
  destruct (ht_display_structure_spec char_is_signed st Hinv) as (lines & Hd & Hlen & Hlines).
  eexists _, st, lines. split_and!; [done..|].
  intros i line Hi. destruct (Hlines i line Hi) as (H1 & H2 & H3).
  split_and!; [done..|]. intros x p. rewrite H3.
  assert (x ∈ names ↔ ref_search (first_seen names) x ≠ NotFound) as Hx.
  { rewrite ref_search_found. unfold first_seen.
    rewrite first_seen_from_elem_of, elem_of_nil. tauto. }
  rewrite Hx, Hs. split.
  - intros ([= <-] & ? & ?). done.
  - intros (? & [= <-] & ?). done.
Qed.

(** X9. The tree is not rebalanced: names added to a fresh table in
    strictly ascending order form a chain of right children, a linked list
    in the order of insertion, whose height is the number of names. *)
Theorem x9_bst_ascending_degenerates (names : list string) :
  strictly_ascending names →
  BST.root (bst_built names)
    = right_spine (zip names (seqZ 0 (Z.of_nat (length names)))) ∧
  height (BST.root (bst_built names)) = length names.
Proof.
  intros Hasc. unfold bst_built.
  assert (BST.st_add_all BST.st_create names
          = (seqZ 0 (Z.of_nat (length names)),
             {| BST.root := right_spine (zip names (seqZ 0 (Z.of_nat (length names))));
                BST.size := Z.of_nat (length names) |})) as ->
    by apply (st_add_all_right_spine names [] Hasc).
  simpl. split; [done|].
  rewrite height_right_spine, length_zip, length_seqZ. lia.
Qed.

Lemma x9_witness :
  strictly_ascending ["array"; "count"; "index"]%string ∧
  BST.root (bst_built ["array"; "count"; "index"]%string)
    = right_spine [("array", 0); ("count", 1); ("index", 2)]%string ∧
  height (BST.root (bst_built ["array"; "count"; "index"]%string)) = 3%nat.
Proof.
  assert (strictly_ascending ["array"; "count"; "index"]%string) as Hasc.
  { unfold strictly_ascending. repeat constructor. }
  split; [exact Hasc|].
  apply (x9_bst_ascending_degenerates ["array"; "count"; "index"]%string Hasc).
Defined.

(** X10. The order of the chains after [st_resize]: whatever a table with
    a bucket array of [capacity] buckets holds, the resize returns, and
    every bucket of the new array holds the entries of its hash in the
    reverse of the order in which the old table listed them (bucket after
    bucket, each chain from its head). *)
Theorem x10_resize_reverses_chains (char_is_signed : bool) (st : HT.SymbolTableHT) :
  ht_wf st →
  ∃ st', HT.st_resize char_is_signed st = Some st' ∧
         HT.capacity st' = HT.capacity st * 2 ∧
         ∀ j, (j < Z.to_nat (HT.capacity st * 2))%nat →
           HT.buckets st' !! j
           = Some (rev (filter
                          (λ e, Z.to_nat (HT.hash_function char_is_signed (HT.name e)
                                            (HT.capacity st * 2)) = j)
                          (entries st))).
Proof. apply st_resize_order. Qed.

Lemma x10_witness :
  ht_wf driver_table ∧
  ∃ st', HT.st_resize true driver_table = Some st' ∧
         HT.capacity st' = HT.capacity driver_table * 2 ∧
         ∀ j, (j < Z.to_nat (HT.capacity driver_table * 2))%nat →
           HT.buckets st' !! j
           = Some (rev (filter
                          (λ e, Z.to_nat (HT.hash_function true (HT.name e)
                                            (HT.capacity driver_table * 2)) = j)
                          (entries driver_table))).
Proof.
  split; [split; reflexivity|].
  apply (x10_resize_reverses_chains true driver_table). split; reflexivity.
Defined.

(** X11. [st_resize] splits the buckets: since the capacity doubles, the
    index of a name is its old index or its old index plus the old
    capacity, and every entry of the old bucket [i] is in the new bucket
    [i] or in the new bucket [i + capacity]. *)
Theorem x11_resize_splits_buckets (char_is_signed : bool) (st : HT.SymbolTableHT) :
  ht_inv char_is_signed st →
  (∀ str, HT.hash_function char_is_signed str (HT.capacity st * 2)
          = HT.hash_function char_is_signed str (HT.capacity st) ∨
          HT.hash_function char_is_signed str (HT.capacity st * 2)
          = HT.hash_function char_is_signed str (HT.capacity st) + HT.capacity st) ∧
  ∃ st', HT.st_resize char_is_signed st = Some st' ∧
         ∀ i chain e, HT.buckets st !! i = Some chain → e ∈ chain →
           ∃ j chain', (j = i ∨ j = (i + Z.to_nat (HT.capacity st))%nat) ∧
                       HT.buckets st' !! j = Some chain' ∧ e ∈ chain'.
Proof.
  intros Hinv. pose proof (inv_wf _ _ Hinv) as Hwf. pose proof Hwf as [Hc Hl].
  split; [intros str; by apply hash_function_double|].
  destruct (st_resize_order char_is_signed st Hwf) as (st' & Hr & Hc' & Hb).
  exists st'. split; [done|]. intros i chain e Hi He.
  pose proof (inv_placed _ _ Hinv i chain e Hi He) as Hpl.
  pose proof (hash_function_range char_is_signed (HT.name e) (HT.capacity st * 2)
                ltac:(lia)) as Hrange.
  exists (Z.to_nat (HT.hash_function char_is_signed (HT.name e) (HT.capacity st * 2))).
  eexists. split_and!.
  - destruct (hash_function_double char_is_signed (HT.name e) (HT.capacity st) Hc)
      as [->| ->]; [by left|right].
    pose proof (hash_function_range char_is_signed (HT.name e) (HT.capacity st) Hc).
    rewrite Z2Nat.inj_add by lia. by rewrite Hpl.
  - apply Hb. lia.
  - apply list_elem_of_In, in_rev, list_elem_of_In.
    rewrite rev_involutive. apply list_elem_of_filter. split; [done|].
    apply elem_of_entries. eauto.
Qed.

Lemma x11_witness :
  ht_inv true driver_table ∧
  (∀ str, HT.hash_function true str (HT.capacity driver_table * 2)
          = HT.hash_function true str (HT.capacity driver_table) ∨
          HT.hash_function true str (HT.capacity driver_table * 2)
          = HT.hash_function true str (HT.capacity driver_table)
            + HT.capacity driver_table) ∧
  ∃ st', HT.st_resize true driver_table = Some st' ∧
         ∀ i chain e, HT.buckets driver_table !! i = Some chain → e ∈ chain →
           ∃ j chain', (j = i ∨ j = (i + Z.to_nat (HT.capacity driver_table))%nat) ∧
                       HT.buckets st' !! j = Some chain' ∧ e ∈ chain'.
Proof.
  split; [exact driver_table_inv|].
  apply (x11_resize_splits_buckets true driver_table driver_table_inv).
Defined.

(** X12. The capacity as a function of the size.  For every sequence of
    [st_add] calls on a fresh table with at most 31457280 distinct names,
    the capacity is 10 doubled some number of times, the load factor is at
    most 0.75, and, once the table has been resized, above 0.375: the
    capacity is the least of the capacities 10, 20, 40, ... that keeps the
    load factor at most 0.75.  The capacity is at most 41943040, so that no
    [int] of the table overflows. *)
Theorem x12_capacity_follows_size (char_is_signed : bool) (names : list string) :
  Z.of_nat (length (remove_dups names)) ≤ 31457280 →
  ∃ ps st k,
    HT.st_add_all char_is_signed HT.st_create names = Some (ps, st) ∧
    HT.size st = Z.of_nat (length (remove_dups names)) ∧
    HT.capacity st = capacity_at k ∧
    4 * HT.size st ≤ 3 * HT.capacity st ∧
    (k = O ∨ 3 * HT.capacity st < 8 * HT.size st) ∧
    (∀ j, (j < k)%nat → 3 * capacity_at j < 4 * HT.size st) ∧
    HT.capacity st ≤ 41943040.
Proof.
  intros Hlen.
  destruct (ht_run_first_seen char_is_signed names) as (st & Hrun & Hinv & _ & Hsz & _).
  rewrite first_seen_remove_dups in Hsz.
  destruct (in_phase_run_size char_is_signed names HT.st_create
              (ref_search (first_seen names) <$> names) st 0
              (ht_inv_create char_is_signed) ltac:(lia) in_phase_create)
    as (k & Hk & Hc & Hs & Hprev); [|done|].
  { rewrite threshold_22. lia. }
  eexists _, st, k. split_and!; [done..| | | |].
  - pose proof (threshold_spec (capacity_at k)). rewrite Hc. lia.
  - destruct k as [|k]; [by left|right]. specialize (Hprev ltac:(done)).
    replace (S k - 1)%nat with k in Hprev by lia.
    rewrite Hc, capacity_at_succ.
    pose proof (threshold_spec (capacity_at k)). lia.
  - intros j Hj. destruct k as [|k]; [lia|]. specialize (Hprev ltac:(done)).
    replace (S k - 1)%nat with k in Hprev by lia.
    pose proof (capacity_at_mono j k ltac:(lia)).
    pose proof (threshold_spec (capacity_at k)). lia.
  - rewrite Hc, <- capacity_22. by apply capacity_at_mono.
Qed.

Lemma x12_witness :
  Z.of_nat (length (remove_dups driver_names)) ≤ 31457280 ∧
  ∃ ps st k,
    HT.st_add_all true HT.st_create driver_names = Some (ps, st) ∧
    HT.size st = Z.of_nat (length (remove_dups driver_names)) ∧
    HT.capacity st = capacity_at k ∧
    4 * HT.size st ≤ 3 * HT.capacity st ∧
    (k = O ∨ 3 * HT.capacity st < 8 * HT.size st) ∧
    (∀ j, (j < k)%nat → 3 * capacity_at j < 4 * HT.size st) ∧
    HT.capacity st ≤ 41943040.
Proof.
  assert (Z.of_nat (length (remove_dups driver_names)) ≤ 31457280) as Hlen
    by by_computation.
  split; [exact Hlen|].
  apply (x12_capacity_follows_size true driver_names Hlen).
Defined.

(** The two small tables are laid out in their heaps. *)
Section Layouts.

#[local] Set Warnings "-clear-no-such-hyp".

Lemma bst_heap_tree :
  tree_at bst_heap (Some 2%positive) (BST.root (bst_built ["count"; "sum"]%string))
    ({[2%positive; 3%positive]} ∪ ∅ ∪ ({[4%positive; 5%positive]} ∪ ∅ ∪ ∅)).
Proof.
  apply (tree_at_node bst_heap 2%positive 3%positive "count" 0 None (Some 4%positive));
    [reflexivity|reflexivity|constructor| |done|set_solver..].
  apply (tree_at_node bst_heap 4%positive 5%positive "sum" 1 None None);
    [reflexivity|reflexivity|constructor|constructor|done|set_solver..].
Qed.

Lemma bst_heap_table :
  bst_at bst_heap 1%positive (bst_built ["count"; "sum"]%string)
    ({[1%positive]} ∪
     ({[2%positive; 3%positive]} ∪ ∅ ∪ ({[4%positive; 5%positive]} ∪ ∅ ∪ ∅))).
Proof.
  apply (bst_at_table bst_heap 1%positive _ (Some 2%positive));
    [reflexivity|apply bst_heap_tree|set_solver].
Qed.

Lemma ht_heap_table :
  ht_at ht_heap 1%positive ht_small
    ({[1%positive; 2%positive]} ∪
     ({[3%positive; 4%positive]} ∪ ({[5%positive; 6%positive]} ∪ ∅) ∪ (∅ ∪ ∅))).
Proof.
  apply (ht_at_table ht_heap 1%positive ht_small 2%positive [Some 3%positive; None]);
    [reflexivity|reflexivity| |done|set_solver..].
  apply buckets_at_cons; [|apply buckets_at_cons; [constructor..|set_solver]|set_solver].
  apply (chain_at_entry ht_heap 3%positive 4%positive (HT.create_entry "b" 1)
           (Some 5%positive));
    [reflexivity|reflexivity| |done|set_solver..].
  apply (chain_at_entry ht_heap 5%positive 6%positive (HT.create_entry "a" 0) None);
    [reflexivity|reflexivity|constructor|done|set_solver..].
Qed.

End Layouts.

(** X13. [free_tree] is memory safe and complete.  In a heap where the
    pointer [root] is the root of a tree, each node in a block of its own
    that owns the block of its name, [free_tree root] returns, given fuel
    for the height of the tree: it reads no released block and releases no
    block twice; afterwards exactly the blocks of the tree are released,
    and every other block of the heap is as it was. *)
Theorem x13_free_tree_releases (h : gmap Mem.addr Mem.block) (root : Mem.ptr)
  (t : BST.BSTNode) (fp : gset Mem.addr) (fuel : nat) :
  tree_at h root t fp → (height t ≤ fuel)%nat →
  (∀ a, a ∈ fp → is_Some (h !! a)) ∧
  ∃ h', BSTMem.free_tree fuel root h = Mem.Ok h' ∧
        (∀ a, a ∈ fp → h' !! a = None) ∧
        (∀ a, a ∉ fp → h' !! a = h !! a).
Proof.
  intros Ht Hfuel. split; [by apply (tree_at_allocated h root t)|].
  destruct (free_tree_spec t fuel h root fp Ht Hfuel) as (h' & Hfree & Hrel).
  exists h'. split; [done|]. split; intros a Ha; rewrite Hrel.
  - by rewrite decide_True.
  - by rewrite decide_False.
Qed.

Lemma x13_witness :
  tree_at bst_heap (Some 2%positive) (BST.root (bst_built ["count"; "sum"]%string))
    ({[2%positive; 3%positive]} ∪ ∅ ∪ ({[4%positive; 5%positive]} ∪ ∅ ∪ ∅)) ∧
  (height (BST.root (bst_built ["count"; "sum"]%string)) ≤ 2)%nat ∧
  (∀ a, a ∈ ({[2%positive; 3%positive]} ∪ ∅ ∪ ({[4%positive; 5%positive]} ∪ ∅ ∪ ∅)
             : gset Mem.addr) →
        is_Some (bst_heap !! a)) ∧
  ∃ h', BSTMem.free_tree 2%nat (Some 2%positive) bst_heap = Mem.Ok h' ∧
        (∀ a, a ∈ ({[2%positive; 3%positive]} ∪ ∅ ∪ ({[4%positive; 5%positive]} ∪ ∅ ∪ ∅)
                   : gset Mem.addr) →
              h' !! a = None) ∧
        (∀ a, a ∉ ({[2%positive; 3%positive]} ∪ ∅ ∪ ({[4%positive; 5%positive]} ∪ ∅ ∪ ∅)
                   : gset Mem.addr) →
              h' !! a = bst_heap !! a).
Proof.
  split; [exact bst_heap_tree|]. split; [vm_compute; lia|].
  apply (x13_free_tree_releases bst_heap (Some 2%positive) _ _ 2%nat bst_heap_tree).
  vm_compute. lia.
Defined.

(** X14. [st_destroy] of the BST backend is memory safe and leaves no
    block of the table behind: for a table structure at [st] whose [root]
    is the root of a tree laid out as in X13, [st_destroy st] returns, and
    exactly the blocks of the tree and the table structure are released;
    a heap that held nothing else is empty afterwards. *)
Theorem x14_bst_destroy_releases (h : gmap Mem.addr Mem.block) (a : Mem.addr)
  (st : BST.SymbolTableBST) (fp : gset Mem.addr) (fuel : nat) :
  bst_at h a st fp → (height (BST.root st) ≤ fuel)%nat →
  (∀ x, x ∈ fp → is_Some (h !! x)) ∧
  ∃ h', BSTMem.st_destroy fuel (Some a) h = Mem.Ok h' ∧
        (∀ x, x ∈ fp → h' !! x = None) ∧
        (∀ x, x ∉ fp → h' !! x = h !! x) ∧
        ((∀ x, is_Some (h !! x) → x ∈ fp) → h' = ∅).
Proof.
  intros Hat Hfuel. split; [by apply (bst_at_allocated h a st)|].
  destruct (bst_destroy_spec h a st fp fuel Hat Hfuel) as (h' & Hd & Hrel).
  exists h'. split; [done|]. split_and!.
  - intros x Hx. rewrite Hrel. by rewrite decide_True.
  - intros x Hx. rewrite Hrel. by rewrite decide_False.
  - by apply released_all.
Qed.

Lemma x14_witness :
  bst_at bst_heap 1%positive (bst_built ["count"; "sum"]%string)
    ({[1%positive]} ∪
     ({[2%positive; 3%positive]} ∪ ∅ ∪ ({[4%positive; 5%positive]} ∪ ∅ ∪ ∅))) ∧
  (height (BST.root (bst_built ["count"; "sum"]%string)) ≤ 2)%nat ∧
  (∀ x, x ∈ ({[1%positive]} ∪
             ({[2%positive; 3%positive]} ∪ ∅ ∪ ({[4%positive; 5%positive]} ∪ ∅ ∪ ∅))
             : gset Mem.addr) →
        is_Some (bst_heap !! x)) ∧
  ∃ h', BSTMem.st_destroy 2%nat (Some 1%positive) bst_heap = Mem.Ok h' ∧
        (∀ x, x ∈ ({[1%positive]} ∪
                   ({[2%positive; 3%positive]} ∪ ∅ ∪ ({[4%positive; 5%positive]} ∪ ∅ ∪ ∅))
                   : gset Mem.addr) →
              h' !! x = None) ∧
        (∀ x, x ∉ ({[1%positive]} ∪
                   ({[2%positive; 3%positive]} ∪ ∅ ∪ ({[4%positive; 5%positive]} ∪ ∅ ∪ ∅))
                   : gset Mem.addr) →
              h' !! x = bst_heap !! x) ∧
        ((∀ x, is_Some (bst_heap !! x) →
               x ∈ ({[1%positive]} ∪
                    ({[2%positive; 3%positive]} ∪ ∅ ∪ ({[4%positive; 5%positive]} ∪ ∅ ∪ ∅))
                    : gset Mem.addr)) →
         h' = ∅).
Proof.
  split; [exact bst_heap_table|]. split; [vm_compute; lia|].
  apply (x14_bst_destroy_releases bst_heap 1%positive _ _ 2%nat bst_heap_table).
  vm_compute. lia.
Defined.

(** X15. [st_destroy] of the hash table backend is memory safe and leaves
    no block of the table behind: for a table structure at [st] whose
    bucket array has [capacity] cells, each cell the head of a linked
    chain of entries that own the blocks of their names, [st_destroy st]
    returns, given fuel for the loops; it reads no released block, reads
    no cell outside the array and releases no block twice; afterwards
    exactly the blocks of the entries, of their names, of the array and of
    the table structure are released; a heap that held nothing else is
    empty afterwards. *)
Theorem x15_ht_destroy_releases (h : gmap Mem.addr Mem.block) (a : Mem.addr)
  (st : HT.SymbolTableHT) (fp : gset Mem.addr) (fuel : nat) :
  ht_at h a st fp → ht_wf st →
  (Z.to_nat (HT.capacity st) + length (entries st) < fuel)%nat →
  (∀ x, x ∈ fp → is_Some (h !! x)) ∧
  ∃ h', HTMem.st_destroy fuel (Some a) h = Mem.Ok h' ∧
        (∀ x, x ∈ fp → h' !! x = None) ∧
        (∀ x, x ∉ fp → h' !! x = h !! x) ∧
        ((∀ x, is_Some (h !! x) → x ∈ fp) → h' = ∅).
Proof.
  intros Hat Hwf Hfuel. split; [by apply (ht_at_allocated h a st)|].
  destruct (ht_destroy_spec h a st fp fuel Hat Hwf Hfuel) as (h' & Hd & Hrel).
  exists h'. split; [done|]. split_and!.
  - intros x Hx. rewrite Hrel. by rewrite decide_True.
  - intros x Hx. rewrite Hrel. by rewrite decide_False.
  - by apply released_all.
Qed.

Lemma x15_witness :
  ht_at ht_heap 1%positive ht_small
    ({[1%positive; 2%positive]} ∪
     ({[3%positive; 4%positive]} ∪ ({[5%positive; 6%positive]} ∪ ∅) ∪ (∅ ∪ ∅))) ∧
  ht_wf ht_small ∧
  (Z.to_nat (HT.capacity ht_small) + length (entries ht_small) < 5)%nat ∧
  (∀ x, x ∈ ({[1%positive; 2%positive]} ∪
             ({[3%positive; 4%positive]} ∪ ({[5%positive; 6%positive]} ∪ ∅) ∪ (∅ ∪ ∅))
             : gset Mem.addr) →
        is_Some (ht_heap !! x)) ∧
  ∃ h', HTMem.st_destroy 5%nat (Some 1%positive) ht_heap = Mem.Ok h' ∧
        (∀ x, x ∈ ({[1%positive; 2%positive]} ∪
                   ({[3%positive; 4%positive]} ∪ ({[5%positive; 6%positive]} ∪ ∅)
                    ∪ (∅ ∪ ∅)) : gset Mem.addr) →
              h' !! x = None) ∧
        (∀ x, x ∉ ({[1%positive; 2%positive]} ∪
                   ({[3%positive; 4%positive]} ∪ ({[5%positive; 6%positive]} ∪ ∅)
                    ∪ (∅ ∪ ∅)) : gset Mem.addr) →
              h' !! x = ht_heap !! x) ∧
        ((∀ x, is_Some (ht_heap !! x) →
               x ∈ ({[1%positive; 2%positive]} ∪
                    ({[3%positive; 4%positive]} ∪ ({[5%positive; 6%positive]} ∪ ∅)
                     ∪ (∅ ∪ ∅)) : gset Mem.addr)) →
         h' = ∅).
Proof.
  assert (ht_wf ht_small) as Hwf by (split; reflexivity).
  split; [exact ht_heap_table|]. split; [exact Hwf|]. split; [vm_compute; lia|].
  apply (x15_ht_destroy_releases ht_heap 1%positive ht_small _ 5%nat ht_heap_table Hwf).
  vm_compute. lia.
Defined.

(** X16. The resize check of [st_add] is exact below the bound.  In every
    table built from a fresh one with fewer than 31457280 distinct names,
    the check [(float)(size + 1) / capacity > 0.75], computed in single
    precision, holds exactly when [(size + 1) / capacity > 3 / 4] holds
    for the integers. *)
Theorem x16_resize_check_exact (char_is_signed : bool) (names : list string) :
  Z.of_nat (length (remove_dups names)) < 31457280 →
  ∃ ps st,
    HT.st_add_all char_is_signed HT.st_create names = Some (ps, st) ∧
    HT.load_factor_exceeded st
    = bool_decide (3 * HT.capacity st < 4 * (HT.size st + 1)).
Proof.
  intros Hlen.
  destruct (ht_run_first_seen char_is_signed names) as (st & Hrun & Hinv & _ & Hsz & _).
  rewrite first_seen_remove_dups in Hsz.
  destruct (in_phase_run_size char_is_signed names HT.st_create
              (ref_search (first_seen names) <$> names) st 0
              (ht_inv_create char_is_signed) ltac:(lia) in_phase_create)
    as (k & Hk & Hph); [|done|].
  { rewrite threshold_22. lia. }
  eexists _, st. split; [done|].
  apply (in_phase_exceeded k); [done|done|lia|]. rewrite threshold_22. lia.
Qed.

Lemma x16_witness :
  Z.of_nat (length (remove_dups driver_names)) < 31457280 ∧
  ∃ ps st,
    HT.st_add_all true HT.st_create driver_names = Some (ps, st) ∧
    HT.load_factor_exceeded st
    = bool_decide (3 * HT.capacity st < 4 * (HT.size st + 1)).
Proof.
  assert (Z.of_nat (length (remove_dups driver_names)) < 31457280) as Hlen
    by by_computation.
  split; [exact Hlen|].
  apply (x16_resize_check_exact true driver_names Hlen).
Defined.

(** X17. The shape of the tree.  In every table built from a fresh one,
    each node holds a smaller position than all the nodes below it (a node
    is older than its descendants, since [insert_node] only adds leaves and
    never moves a node); the root is the node of the first name added, at
    position 0. *)
Theorem x17_bst_older_nodes_above (names : list string) :
  position_ordered (BST.root (bst_built names)) ∧
  match names with
  | [] => BST.root (bst_built names) = BST.NULL
  | x :: _ => ∃ l r, BST.root (bst_built names) = BST.Node x 0 l r
  end.
Proof.
  split.
  - by apply (bst_run_position_ordered names BST.st_create).
  - destruct names as [|x rest]; [done|].
    destruct (st_add_all_root rest (BST.st_add BST.st_create x).2
                x 0 BST.NULL BST.NULL eq_refl) as (l & r & H).
    exists l, r. rewrite <- H. unfold bst_built. cbn [BST.st_add_all].
    destruct (BST.st_add BST.st_create x) as [p st1]. simpl.
    by destruct (BST.st_add_all st1 rest).
Qed.
